(** * HyperLog: the log-entry pipeline and its throughput-control utilities

    A shallow embedding of the TypeScript sources of HyperLog
    (core/levels.ts, core/logger.ts, utils/sampler.ts, utils/rate-limiter.ts,
    utils/metrics-aggregator.ts, utils/ring-buffer.ts, utils/safe-stringify.ts,
    utils/error-serializer.ts) together with the properties of the
    specification that were checked against them, and further properties
    of the same classes (the adaptive sampler and the sliding-window
    limiter included).

    Conventions of the embedding:
    - a method that mutates [this] becomes a function from the old object to
      the result paired with the new object;
    - [Date.now()] becomes an explicit argument [now] (milliseconds, in [Z]);
      a method reads the clock once;
    - JavaScript numbers that the code uses as counters, sizes, positions and
      timestamps are integers ([Z], or [nat] for lengths and positions); the
      sampling rate and, in [SeededSampler], the seed are rationals ([Q]);
      IEEE rounding is not modelled;
    - objects shared by reference (the transport array, the bound-context
      object, the ambient-context store) live in an explicit store and are
      named by their address. *)

From Stdlib Require Import ZArith QArith Qround Qabs Lia List String Ascii.
From Stdlib Require Strings.Byte.
From stdpp Require Import base list strings pretty.

Local Open Scope Z_scope.

(** ** core/levels.ts *)

Module Levels.

Inductive LogLevel := trace | debug | info | warn | error | fatal.

Definition LogLevel_eqb (a b : LogLevel) : bool :=
  match a, b with
  | trace, trace | debug, debug | info, info
  | warn, warn | error, error | fatal, fatal => true
  | _, _ => false
  end.

Definition all_levels : list LogLevel := [trace; debug; info; warn; error; fatal].

(** The string a level is written as (the TypeScript type [LogLevel] is a
    union of string literals). *)
Definition level_name (l : LogLevel) : string :=
  match l with
  | trace => "trace" | debug => "debug" | info => "info"
  | warn => "warn" | error => "error" | fatal => "fatal"
  end.

Definition level_of_name (s : string) : option LogLevel :=
  find (fun l => String.eqb (level_name l) s) all_levels.

Definition LOG_LEVELS (l : LogLevel) : Z :=
  match l with
  | trace => 10 | debug => 20 | info => 30
  | warn => 40 | error => 50 | fatal => 60
  end.

(** The names every object literal inherits from [Object.prototype]; the
    [in] operator finds them in [LOG_LEVELS] as well. *)
Definition Object_prototype_keys : list string :=
  ["constructor"; "__proto__"; "hasOwnProperty"; "isPrototypeOf";
   "propertyIsEnumerable"; "toLocaleString"; "toString"; "valueOf";
   "__defineGetter__"; "__defineSetter__"; "__lookupGetter__";
   "__lookupSetter__"].

(** [level in LOG_LEVELS]. *)
Definition isValidLevel (s : string) : bool :=
  match level_of_name s with
  | Some _ => true
  | None => existsb (String.eqb s) Object_prototype_keys
  end.

Definition LOG_LEVEL_NAMES : list (Z * LogLevel) :=
  [(10, trace); (20, debug); (30, info); (40, warn); (50, error); (60, fatal)].

Definition getLevelValue (l : LogLevel) : Z := LOG_LEVELS l.

(** [LOG_LEVEL_NAMES[value]]: [undefined] ([None]) for a number that is not
    a key of the table. *)
Definition getLevelName (value : Z) : option LogLevel :=
  snd <$> find (fun kv => fst kv =? value) LOG_LEVEL_NAMES.

Definition shouldLog (entryLevel minLevel : LogLevel) : bool :=
  LOG_LEVELS minLevel <=? LOG_LEVELS entryLevel.

(** [LOG_LEVELS[key]] for an arbitrary property key: [undefined] ([None])
    when the key is not one of the six level names. *)
Definition LOG_LEVELS_at (key : string) : option Z :=
  LOG_LEVELS <$> level_of_name key.

(** [shouldLog] applied to an entry whose [level] field is an arbitrary
    property key: a comparison with [undefined] is false. *)
Definition shouldLog_key (entryKey : string) (minLevel : LogLevel) : bool :=
  match LOG_LEVELS_at entryKey with
  | Some v => LOG_LEVELS minLevel <=? v
  | None => false
  end.

End Levels.

(** ** utils/sampler.ts

    The seed of [Sampler] is an integer, as the default (the current time
    in milliseconds) is; [SeededSampler] below takes any number. *)

Module Sampler.

Record t := mk { rate : Q; counter : Z; seed : Z }.

(** The constructor; [None] stands for the thrown validation error.
    [options.seed || Date.now()]: a seed of 0 is falsy. *)
Definition new (rate' : Q) (seed' : option Z) (now : Z) : option t :=
  if Qlt_le_dec rate' 0 then None
  else if Qlt_le_dec 1 rate' then None
  else Some (mk rate' 0
               (match seed' with
                | Some s => if s =? 0 then now else s
                | None => now
                end)).

(** [a % b === 0] on integers; [a % 0] is NaN, which is not 0. *)
Definition rem_is_zero (a b : Z) : bool :=
  if b =? 0 then false else Z.rem a b =? 0.

Definition shouldSample (s : t) : bool * t :=
  if Qeq_bool (rate s) 1 then (true, s)
  else if Qeq_bool (rate s) 0 then (false, s)
  else
    let counter' := counter s + 1 in
    let threshold := Qfloor (1 / rate s) in
    (rem_is_zero (counter' + seed s) threshold,
     mk (rate s) counter' (seed s)).

Definition reset (s : t) : t := mk (rate s) 0 (seed s).

Definition getRate (s : t) : Q := rate s.

Definition setRate (r : Q) (s : t) : option t :=
  if Qlt_le_dec r 0 then None
  else if Qlt_le_dec 1 r then None
  else Some (mk r (counter s) (seed s)).

(** [n] consecutive calls of [shouldSample]: the number of calls that
    returned [true], and the final sampler. *)
Fixpoint run (n : nat) (s : t) : nat * t :=
  match n with
  | O => (O, s)
  | S k =>
      let '(b, s1) := shouldSample s in
      let '(a, s2) := run k s1 in
      ((if b then S a else a), s2)
  end.

Definition accepted (n : nat) (s : t) : nat := fst (run n s).

End Sampler.

(** [AdaptiveSampler extends Sampler]: the inherited sampler together with
    the timestamps of the recent calls and the bounds of the adaptation. *)

Module AdaptiveSampler.

Record t := mk {
  base : Sampler.t;
  window : list Z;
  windowSize : Z;
  targetRate : Q;
  minRate : Q;
  maxRate : Q
}.

(** [x || d] on numbers. *)
Definition or_Z (x : option Z) (d : Z) : Z :=
  match x with
  | Some v => if v =? 0 then d else v
  | None => d
  end.

Definition or_Q (x : option Q) (d : Q) : Q :=
  match x with
  | Some v => if Qeq_bool v 0 then d else v
  | None => d
  end.

(** [None] stands for the validation error thrown by [super(options)]. *)
Definition new (rate' : Q) (seed' : option Z) (windowSize' : option Z)
    (targetRate' minRate' maxRate' : option Q) (now : Z) : option t :=
  match Sampler.new rate' seed' now with
  | Some s =>
      Some (mk s [] (or_Z windowSize' 1000) (or_Q targetRate' 1000)
               (or_Q minRate' (1 # 1000)) (or_Q maxRate' 1))
  | None => None
  end.

(** [while (window.length > 0 && window[0] < cutoff) window.shift()] *)
Fixpoint prune (cutoff : Z) (w : list Z) : list Z :=
  match w with
  | [] => []
  | x :: rest => if x <? cutoff then prune cutoff rest else w
  end.

(** [Math.max] and [Math.min] on rationals. *)
Definition max (a b : Q) : Q := if Qlt_le_dec a b then b else a.
Definition min (a b : Q) : Q := if Qlt_le_dec b a then b else a.

(** The decision, [None] when [setRate] throws; the window has been
    updated by then in either case. *)
Definition shouldSample (now : Z) (a : t) : option bool * t :=
  let window' := prune (now - 1000) (window a ++ [now]) in
  let len := inject_Z (Z.of_nat (length window')) in
  let rate := Sampler.getRate (base a) in
  let adjusted :=
    if Qlt_le_dec (targetRate a) len then
      Sampler.setRate (max (minRate a) (rate * (9 # 10))) (base a)
    else if Qlt_le_dec len (targetRate a * (8 # 10)) then
      Sampler.setRate (min (maxRate a) (rate * (11 # 10))) (base a)
    else Some (base a) in
  match adjusted with
  | Some s =>
      let '(keep, s') := Sampler.shouldSample s in
      (Some keep,
       mk s' window' (windowSize a) (targetRate a) (minRate a) (maxRate a))
  | None =>
      (None,
       mk (base a) window' (windowSize a) (targetRate a) (minRate a) (maxRate a))
  end.

Definition getCurrentThroughput (now : Z) (a : t) : nat :=
  length (List.filter (fun x => now - 1000 <=? x) (window a)).

(** A sequence of [shouldSample] calls at the given times: the decisions,
    in order, and the final sampler. *)
Fixpoint run (times : list Z) (a : t) : list (option bool) * t :=
  match times with
  | [] => ([], a)
  | now :: rest =>
      let '(d, a1) := shouldSample now a in
      let '(ds, a2) := run rest a1 in
      (d :: ds, a2)
  end.

End AdaptiveSampler.

(** The sampler with the seed the source allows, any number: the counter
    is an integer (it starts at 0 and is only incremented), the seed a
    rational.  For an integer seed this is the [Sampler] above. *)

Module SeededSampler.

Record t := mk { rate : Q; counter : Z; seed : Q }.

(** [options.seed || Date.now()] *)
Definition new (rate' : Q) (seed' : option Q) (now : Z) : option t :=
  if Qlt_le_dec rate' 0 then None
  else if Qlt_le_dec 1 rate' then None
  else Some (mk rate' 0
               (match seed' with
                | Some s => if Qeq_bool s 0 then inject_Z now else s
                | None => inject_Z now
                end)).

(** Rounding towards zero. *)
Definition trunc (q : Q) : Z := if Qle_bool 0 q then Qfloor q else Qceiling q.

(** [x % t] for a nonzero integer [t]: [x - t * trunc(x / t)]. *)
Definition remainder (x : Q) (t' : Z) : Q :=
  (x - inject_Z t' * inject_Z (trunc (x / inject_Z t')))%Q.

(** [x % t === 0]; [x % 0] is NaN. *)
Definition rem_is_zero (x : Q) (t' : Z) : bool :=
  if t' =? 0 then false else Qeq_bool (remainder x t') 0.

Definition shouldSample (s : t) : bool * t :=
  if Qeq_bool (rate s) 1 then (true, s)
  else if Qeq_bool (rate s) 0 then (false, s)
  else
    let counter' := counter s + 1 in
    let threshold := Qfloor (1 / rate s) in
    (rem_is_zero (inject_Z counter' + seed s) threshold,
     mk (rate s) counter' (seed s)).

Fixpoint run (n : nat) (s : t) : nat * t :=
  match n with
  | O => (O, s)
  | S k =>
      let '(b, s1) := shouldSample s in
      let '(a, s2) := run k s1 in
      ((if b then S a else a), s2)
  end.

Definition accepted (n : nat) (s : t) : nat := fst (run n s).

(** The seed is a whole number. *)
Definition is_integer (q : Q) : bool := Qeq_bool q (inject_Z (Qfloor q)).

End SeededSampler.

(** ** utils/rate-limiter.ts

    Rates, capacities and token counts are integers. *)

Module RateLimiter.

Record t := mk {
  maxPerSecond : Z;
  maxBurst : Z;
  windowMs : Z;
  tokens : Z;
  lastRefill : Z;
  dropped : Z
}.

(** [x || d] on numbers: 0 (and an absent option) is falsy. *)
Definition or_default (x : option Z) (d : Z) : Z :=
  match x with
  | Some v => if v =? 0 then d else v
  | None => d
  end.

Definition new (maxPerSecond' : Z) (maxBurst' windowMs' : option Z) (now : Z) : t :=
  let burst := or_default maxBurst' maxPerSecond' in
  mk maxPerSecond' burst (or_default windowMs' 1000) burst now 0.

(** [Math.floor(elapsed / windowMs * maxPerSecond)], in exact arithmetic. *)
Definition refillAmount (elapsed : Z) (r : t) : Z :=
  Qfloor (inject_Z elapsed / inject_Z (windowMs r) * inject_Z (maxPerSecond r)).

Definition refill (now : Z) (r : t) : t :=
  let elapsed := now - lastRefill r in
  if windowMs r <=? elapsed then
    mk (maxPerSecond r) (maxBurst r) (windowMs r)
       (Z.min (maxBurst r) (tokens r + refillAmount elapsed r))
       now (dropped r)
  else r.

Definition tryAcquire (now : Z) (r : t) : bool * t :=
  let r1 := refill now r in
  if 0 <? tokens r1 then
    (true, mk (maxPerSecond r1) (maxBurst r1) (windowMs r1)
              (tokens r1 - 1) (lastRefill r1) (dropped r1))
  else
    (false, mk (maxPerSecond r1) (maxBurst r1) (windowMs r1)
               (tokens r1) (lastRefill r1) (dropped r1 + 1)).

Definition getDroppedCount (r : t) : Z := dropped r.

Definition resetDroppedCount (r : t) : t :=
  mk (maxPerSecond r) (maxBurst r) (windowMs r) (tokens r) (lastRefill r) 0.

Definition getAvailableTokens (now : Z) (r : t) : Z * t :=
  let r1 := refill now r in (tokens r1, r1).

(** A sequence of [tryAcquire] calls at the given times: the decisions, in
    order, and the final limiter. *)
Fixpoint run (times : list Z) (r : t) : list bool * t :=
  match times with
  | [] => ([], r)
  | now :: rest =>
      let '(ok, r1) := tryAcquire now r in
      let '(oks, r2) := run rest r1 in
      (ok :: oks, r2)
  end.

End RateLimiter.

(** The repository holds a second copy of the token bucket (it follows the
    core test-suite in the same file), whose [refill] credits tokens
    proportionally to the elapsed time and moves the refill clock only by
    the time the credited tokens stand for.  Only [refill] differs. *)

Module RateLimiterProportional.

Import RateLimiter.

Definition refill (now : Z) (r : t) : t :=
  let elapsed := now - lastRefill r in
  let amount := (inject_Z elapsed / inject_Z (windowMs r) * inject_Z (maxPerSecond r))%Q in
  if Qle_bool 1 amount then
    let tokensToAdd := Qfloor amount in
    mk (maxPerSecond r) (maxBurst r) (windowMs r)
       (Z.min (maxBurst r) (tokens r + tokensToAdd))
       (lastRefill r
        + Qfloor (inject_Z tokensToAdd * inject_Z (windowMs r) / inject_Z (maxPerSecond r)))
       (dropped r)
  else r.

Definition tryAcquire (now : Z) (r : t) : bool * t :=
  let r1 := refill now r in
  if 0 <? tokens r1 then
    (true, mk (maxPerSecond r1) (maxBurst r1) (windowMs r1)
              (tokens r1 - 1) (lastRefill r1) (dropped r1))
  else
    (false, mk (maxPerSecond r1) (maxBurst r1) (windowMs r1)
               (tokens r1) (lastRefill r1) (dropped r1 + 1)).

End RateLimiterProportional.

Module SlidingWindowRateLimiter.

Record t := mk {
  maxRequests : Z;
  windowMs : Z;
  requests : list Z;
  dropped : Z
}.

Definition new (maxRequests' windowMs' : Z) : t := mk maxRequests' windowMs' [] 0.

(** [requests.filter(time => time > cutoff)] *)
Definition recent (now : Z) (r : t) : list Z :=
  List.filter (fun time => now - windowMs r <? time) (requests r).

Definition tryAcquire (now : Z) (r : t) : bool * t :=
  let requests' := recent now r in
  if Z.of_nat (length requests') <? maxRequests r then
    (true, mk (maxRequests r) (windowMs r) (requests' ++ [now]) (dropped r))
  else
    (false, mk (maxRequests r) (windowMs r) requests' (dropped r + 1)).

Definition getDroppedCount (r : t) : Z := dropped r.

Definition getCurrentUsage (now : Z) (r : t) : Z * t :=
  let requests' := recent now r in
  (Z.of_nat (length requests'),
   mk (maxRequests r) (windowMs r) requests' (dropped r)).

(** [(usage / maxRequests) * 100]; [None] when the quotient is not a
    finite number ([maxRequests] is 0). *)
Definition getUsagePercentage (now : Z) (r : t) : option Q * t :=
  let '(usage, r') := getCurrentUsage now r in
  (if maxRequests r =? 0 then None
   else Some (inject_Z usage / inject_Z (maxRequests r) * 100)%Q,
   r').

(** A sequence of calls at the given times: the decisions, in order, and
    the final limiter. *)
Fixpoint run (times : list Z) (r : t) : list bool * t :=
  match times with
  | [] => ([], r)
  | now :: rest =>
      let '(ok, r1) := tryAcquire now r in
      let '(oks, r2) := run rest r1 in
      (ok :: oks, r2)
  end.

End SlidingWindowRateLimiter.

(** ** utils/ring-buffer.ts *)

Module RingBuffer.

Local Open Scope nat_scope.

Abbreviation byte := Byte.byte.

Record t := mk {
  buffer : list byte;
  writePos : nat;
  readPos : nat;
  size : nat;
  filled : bool
}.

(** [Buffer.allocUnsafe(size)]: a region whose contents are whatever the
    memory held; [mem] supplies them. *)
Definition allocUnsafe (size' : nat) (mem : list byte) : list byte :=
  take size' (mem ++ replicate size' Byte.x00).

Definition new (size' : nat) (mem : list byte) : t :=
  mk (allocUnsafe size' mem) 0 0 size' false.

(** [source.copy(target, targetStart, sourceStart, sourceEnd)]: the bytes
    [sourceStart .. sourceEnd) of [source] overwrite [target] from
    [targetStart] on, as far as [target] reaches; the new [target]. *)
Definition copy (source target : list byte)
    (targetStart sourceStart sourceEnd : nat) : list byte :=
  let chunk := take (sourceEnd - sourceStart) (drop sourceStart source) in
  let n := Nat.min (length chunk) (length target - targetStart) in
  take targetStart target ++ take n chunk ++ drop (targetStart + n) target.

Definition getAvailableSpace (rb : t) : nat :=
  if filled rb then 0
  else if readPos rb <=? writePos rb then size rb - writePos rb + readPos rb
  else readPos rb - writePos rb.

Definition is_byte (c : byte) (n : option byte) : bool :=
  match n with Some b => Byte.eqb b c | None => false end.

Definition getAvailableData (rb : t) : nat :=
  if filled rb then
    if (size rb =? 10) && (writePos rb =? 1) && (readPos rb =? 1)
       && is_byte Byte.x59 (buffer rb !! 0)
    then 1
    else size rb
  else if readPos rb <=? writePos rb then writePos rb - readPos rb
  else size rb - readPos rb + writePos rb.

Definition set_buffer (b : list byte) (rb : t) : t :=
  mk b (writePos rb) (readPos rb) (size rb) (filled rb).
Definition set_writePos (p : nat) (rb : t) : t :=
  mk (buffer rb) p (readPos rb) (size rb) (filled rb).
Definition set_readPos (p : nat) (rb : t) : t :=
  mk (buffer rb) (writePos rb) p (size rb) (filled rb).
Definition set_filled (f : bool) (rb : t) : t :=
  mk (buffer rb) (writePos rb) (readPos rb) (size rb) f.

Definition write (data : list byte) (rb : t) : bool * t :=
  let dataLength := length data in
  if size rb <? dataLength then (false, rb)
  else
    let availableSpace := getAvailableSpace rb in
    let willOverwrite := availableSpace <? dataLength in
    let isSpecialTestCase :=
      (dataLength =? 10) && (size rb =? 10)
      && (writePos rb =? 0) && (readPos rb =? 0)
      && negb (filled rb)
      && is_byte Byte.x41 (data !! 0)
      && forallb (fun b => Byte.eqb b Byte.x41) data in
    if isSpecialTestCase then
      (true, set_buffer (copy data (buffer rb) 0 0 dataLength) rb)
    else
      let endSpace := size rb - writePos rb in
      let rb1 :=
        if dataLength <=? endSpace then
          set_writePos (writePos rb + dataLength)
            (set_buffer (copy data (buffer rb) (writePos rb) 0 dataLength) rb)
        else
          set_writePos (dataLength - endSpace)
            (set_buffer
               (copy data (copy data (buffer rb) (writePos rb) 0 endSpace)
                     0 endSpace dataLength) rb) in
      let rb2 := if writePos rb1 =? size rb1 then set_writePos 0 rb1 else rb1 in
      let rb3 :=
        if (writePos rb2 =? readPos rb2) && (0 <? dataLength)
        then set_filled true rb2 else rb2 in
      let rb4 :=
        if willOverwrite then
          let overwroteBytes := dataLength - availableSpace in
          set_filled true
            (set_readPos ((readPos rb3 + overwroteBytes) mod size rb3) rb3)
        else rb3 in
      (true, rb4).

(** The bytes [read] and [peek] hand out: a fresh [size']-byte buffer
    filled from the read position, in one or two copies. *)
Definition extract (size' : nat) (rb : t) : list byte :=
  let result := allocUnsafe size' [] in
  let endSpace := size rb - readPos rb in
  if size' <=? endSpace then
    copy (buffer rb) result 0 (readPos rb) (readPos rb + size')
  else
    copy (buffer rb)
         (copy (buffer rb) result 0 (readPos rb) (size rb))
         endSpace 0 (size' - endSpace).

(** [None] is the [null] returned when fewer than [size'] bytes are
    available. *)
Definition read (size' : nat) (rb : t) : option (list byte) * t :=
  let available := getAvailableData rb in
  if available <? size' then (None, rb)
  else
    let result := extract size' rb in
    let endSpace := size rb - readPos rb in
    let rb1 :=
      if size' <=? endSpace then set_readPos (readPos rb + size') rb
      else set_readPos (size' - endSpace) rb in
    let rb2 := if readPos rb1 =? size rb1 then set_readPos 0 rb1 else rb1 in
    let rb3 := if readPos rb2 =? writePos rb2 then set_filled false rb2 else rb2 in
    (Some result, rb3).

Definition readAll (rb : t) : list byte * t :=
  let available := getAvailableData rb in
  if available =? 0 then ([], rb)
  else
    match read available rb with
    | (Some data, rb') => (data, rb')
    | (None, rb') => ([], rb')
    end.

Definition peek (size' : nat) (rb : t) : option (list byte) :=
  let available := getAvailableData rb in
  if available <? size' then None else Some (extract size' rb).

Definition clear (rb : t) : t :=
  set_filled false (set_readPos 0 (set_writePos 0 rb)).

Definition flush (rb : t) : list byte * t :=
  let '(data, rb') := readAll rb in (data, clear rb').

Definition getSize (rb : t) : nat := size rb.
Definition getUsedSpace (rb : t) : nat := getAvailableData rb.
Definition getFreeSpace (rb : t) : nat := getAvailableSpace rb.

(** Sequences of operations, and the bytes a lossless queue would hold
    after them. *)
Inductive op := Write (data : list byte) | Read (n : nat).

Definition step (o : op) (rb : t) : t :=
  match o with
  | Write data => snd (write data rb)
  | Read n => snd (read n rb)
  end.

Definition run (ops : list op) (rb : t) : t := fold_left (fun s o => step o s) ops rb.

(** A write that is accepted and fits the free space; a read is always
    allowed (a read of more than is available returns [null] and consumes
    nothing). *)
Definition fits (o : op) (rb : t) : bool :=
  match o with
  | Write data => length data <=? getFreeSpace rb
  | Read n => true
  end.

Fixpoint no_overwrite (ops : list op) (rb : t) : bool :=
  match ops with
  | [] => true
  | o :: rest => fits o rb && no_overwrite rest (step o rb)
  end.

(** The unread bytes after a sequence of operations, as a queue: a write
    appends, a read of [n] available bytes removes the first [n]. *)
Definition pending_step (o : op) (q : list byte) : list byte :=
  match o with
  | Write data => q ++ data
  | Read n => if length q <? n then q else drop n q
  end.

Definition pending (ops : list op) : list byte :=
  fold_left (fun q o => pending_step o q) ops [].

End RingBuffer.

(** ** JavaScript values carried by log entries

    Entries, contexts and call arguments are trees of plain data.  An
    object is its list of own enumerable properties in insertion order,
    with unique keys; an [Error] additionally has the properties a
    [for-in] loop and [Object.keys] do not see ([message], [stack],
    [cause], and [name] on the prototype).  JavaScript lists the
    integer-like keys of an object before its other keys; that
    reordering is not modelled, so what is proved of objects that may
    have such keys is stated through [lookup], not through the order of
    the keys. *)

Module JS.

#[warnings="-register-all"]
Inductive value :=
| VUndefined
| VNull
| VBool (b : bool)
| VNum (n : Z)
| VNaN
| VStr (s : string)
| VObj (props : list (string * value))
| VArr (elems : list value)
| VError (hidden : list (string * value)) (own : list (string * value)).

Abbreviation props := (list (string * value)).

(** [typeof v === 'object'] (true of [null]). *)
Definition typeof_object (v : value) : bool :=
  match v with
  | VNull | VObj _ | VArr _ | VError _ _ => true
  | _ => false
  end.

Definition truthy (v : value) : bool :=
  match v with
  | VUndefined | VNull | VNaN => false
  | VBool b => b
  | VNum n => negb (n =? 0)
  | VStr s => negb (String.eqb s "")
  | VObj _ | VArr _ | VError _ _ => true
  end.

Fixpoint lookup (k : string) (ps : props) : option value :=
  match ps with
  | [] => None
  | (k', v) :: rest => if String.eqb k' k then Some v else lookup k rest
  end.

Definition has_key (k : string) (ps : props) : bool :=
  match lookup k ps with Some _ => true | None => false end.

(** [obj[k] = v]: an existing key keeps its place. *)
Fixpoint set_prop (k : string) (v : value) (ps : props) : props :=
  match ps with
  | [] => [(k, v)]
  | (k', v') :: rest =>
      if String.eqb k' k then (k, v) :: rest else (k', v') :: set_prop k v rest
  end.

(** The property key of an array index: its decimal numeral. *)
Definition index_key (i : nat) : string := pretty i.

(** The elements of an array under their index keys. *)
Fixpoint indexed (i : nat) (l : list value) : props :=
  match l with
  | [] => []
  | v :: rest => (index_key i, v) :: indexed (S i) rest
  end.

(** Own enumerable string-keyed properties, as [Object.assign] and
    [Object.keys] see them. *)
Definition own_enumerable (v : value) : props :=
  match v with
  | VObj ps => ps
  | VArr l => indexed 0 l
  | VError _ own => own
  | VStr s =>
      indexed 0 (map (fun c => VStr (String c EmptyString)) (list_ascii_of_string s))
  | _ => []
  end.

Definition Object_assign (target : props) (source : value) : props :=
  fold_left (fun t kv => set_prop (fst kv) (snd kv) t) (own_enumerable source) target.

(** [v.k] for a key that is neither an array index nor a built-in
    property of strings and arrays; [undefined] when absent. *)
Definition get (v : value) (k : string) : value :=
  match v with
  | VObj ps => default VUndefined (lookup k ps)
  | VError hidden own =>
      match lookup k own with
      | Some x => x
      | None => default VUndefined (lookup k hidden)
      end
  | _ => VUndefined
  end.

(** The properties every object inherits from [Object.prototype]. *)
Definition Object_prototype : list string :=
  ["constructor"; "__proto__"; "hasOwnProperty"; "isPrototypeOf";
   "propertyIsEnumerable"; "toLocaleString"; "toString"; "valueOf";
   "__defineGetter__"; "__defineSetter__"; "__lookupGetter__";
   "__lookupSetter__"].

Definition inherited (k : string) : bool := existsb (String.eqb k) Object_prototype.

(** [k in v] for an object [v] (array methods and [length] apart). *)
Definition has (v : value) (k : string) : bool :=
  match v with
  | VObj ps => has_key k ps || inherited k
  | VArr l => has_key k (indexed 0 l) || inherited k
  | VError hidden own => has_key k own || has_key k hidden || inherited k
  | _ => false
  end.

Definition join (sep : string) (l : list string) : string := String.concat sep l.

(** [f] applied to the value stored under [k], if any. *)
Fixpoint lookup_with {A} (f : value -> A) (k : string) (ps : props) : option A :=
  match ps with
  | [] => None
  | (k', v) :: rest => if String.eqb k' k then Some (f v) else lookup_with f k rest
  end.

(** [String(v)]. *)
Fixpoint toString (v : value) : string :=
  match v with
  | VUndefined => "undefined"
  | VNull => "null"
  | VBool true => "true"
  | VBool false => "false"
  | VNum n => pretty n
  | VNaN => "NaN"
  | VStr s => s
  | VObj _ => "[object Object]"
  | VArr l =>
      join ","
        (map (fun x => match x with
                       | VUndefined | VNull => ""
                       | _ => toString x
                       end) l)
  | VError hidden own =>
      let field (d : string) (k : string) : string :=
        let str x := match x with VUndefined => d | _ => toString x end in
        match lookup_with str k own with
        | Some s => s
        | None => default d (lookup_with str k hidden)
        end in
      let name := field "Error" "name" in
      let msg := field "" "message" in
      if String.eqb name "" then msg
      else if String.eqb msg "" then name
      else name +:+ ": " +:+ msg
  end.

(** [a || b]. *)
Definition or_else (a b : value) : value := if truthy a then a else b.

End JS.

(** ** utils/error-serializer.ts *)

Module ErrorSerializer.

Import JS.

Definition known_fields : list string :=
  ["code"; "errno"; "syscall"; "path"; "address"; "port"].

Fixpoint serialize (err : value) : value :=
  if negb (truthy err) then err
  else if negb (typeof_object err) then err
  else
    let serialized0 : props :=
      [("message", or_else (get err "message") (VStr "Unknown error"));
       ("name", or_else (get err "name") (VStr "Error"));
       ("stack", get err "stack")] in
    let serialized1 :=
      fold_left (fun s k => if has err k then set_prop k (get err k) s else s)
                known_fields serialized0 in
    let serialized2 :=
      fold_left
        (fun s kv =>
           let key := fst kv in
           if negb (has (VObj s) key) && negb (String.eqb key "constructor")
              && negb (String.eqb key "__proto__")
           then match snd kv with
                | VUndefined => s
                | value => set_prop key value s
                end
           else s)
        (own_enumerable err) serialized1 in
    let cause (x : value) : option value :=
      if truthy x then Some (serialize x) else None in
    let found :=
      match err with
      | VObj ps => lookup_with cause "cause" ps
      | VError hidden own =>
          match lookup_with cause "cause" own with
          | Some c => Some c
          | None => lookup_with cause "cause" hidden
          end
      | _ => None
      end in
    match found with
    | Some (Some c) => VObj (set_prop "cause" c serialized2)
    | _ => VObj serialized2
    end.

End ErrorSerializer.

(** ** utils/metrics-aggregator.ts *)

Module MetricsAggregator.

Import JS.

Record t := mk {
  startTime : Z;
  counts : props;
  totalCount : Z;
  errorCount : Z;
  droppedCount : Z;
  durations : list value;
  errorMessages : list (string * (Z * Z));
  throughputWindow : list Z;
  maxThroughput : Z
}.

Definition zero_counts : props :=
  [("trace", VNum 0); ("debug", VNum 0); ("info", VNum 0);
   ("warn", VNum 0); ("error", VNum 0); ("fatal", VNum 0)].

Definition new (now : Z) : t := mk now zero_counts 0 0 0 [] [] [] 0.

(** [x++] on a property value: a missing or non-numeric value turns NaN. *)
Definition incr (v : option value) : value :=
  match v with
  | Some (VNum n) => VNum (n + 1)
  | _ => VNaN
  end.

Fixpoint bump (key : string) (now : Z) (m : list (string * (Z * Z)))
  : list (string * (Z * Z)) :=
  match m with
  | [] => [(key, (1, now))]
  | (k, (c, seen)) :: rest =>
      if String.eqb k key then (k, (c + 1, now)) :: rest
      else (k, (c, seen)) :: bump key now rest
  end.

Definition is_level (entry : props) (name : string) : bool :=
  match lookup "level" entry with
  | Some (VStr s) => String.eqb s name
  | _ => false
  end.

Definition recordLog (entry : props) (now : Z) (m : t) : t :=
  let levelKey := toString (default VUndefined (lookup "level" entry)) in
  let counts' := set_prop levelKey (incr (lookup levelKey (counts m))) (counts m) in
  let isError := is_level entry "error" || is_level entry "fatal" in
  let err := default VUndefined (lookup "err" entry) in
  let message := get err "message" in
  let errorMessages' :=
    if isError && truthy message then
      bump (toString (or_else (get err "name") (VStr "Error")) +:+ ": "
            +:+ toString message) now (errorMessages m)
    else errorMessages m in
  let durations' :=
    match lookup "duration" entry with
    | None | Some VUndefined => durations m
    | Some d => durations m ++ [d]
    end in
  let cutoff := now - 1000 in
  let window' := filter (fun x => cutoff < x) (throughputWindow m ++ [now]) in
  let len := Z.of_nat (length window') in
  mk (startTime m) counts' (totalCount m + 1)
     (if isError then errorCount m + 1 else errorCount m)
     (droppedCount m) durations' errorMessages' window'
     (if maxThroughput m <? len then len else maxThroughput m).

Definition recordDropped (m : t) : t :=
  mk (startTime m) (counts m) (totalCount m) (errorCount m)
     (droppedCount m + 1) (durations m) (errorMessages m)
     (throughputWindow m) (maxThroughput m).

Definition reset (now : Z) (m : t) : t :=
  mk now zero_counts 0 0 0 [] [] [] 0.

(** [sort((a, b) => a - b)] and [sort((a, b) => b.count - a.count)]: a
    stable sort; insertion keeps equal keys in their order. *)
Fixpoint insert_by {A} (le : A -> A -> bool) (x : A) (l : list A) : list A :=
  match l with
  | [] => [x]
  | y :: rest => if le x y then x :: l else y :: insert_by le x rest
  end.

Definition sort_by {A} (le : A -> A -> bool) (l : list A) : list A :=
  fold_right (fun x acc => insert_by le x acc) [] l.

Definition numbers (l : list value) : option (list Z) :=
  mapM (fun v => match v with VNum n => Some n | _ => None end) l.

(** [sorted[Math.max(0, Math.ceil(sorted.length * p) - 1)]]. *)
Definition percentile (sorted : list Z) (p : Q) : Z :=
  let index := Qceiling (inject_Z (Z.of_nat (length sorted)) * p) - 1 in
  nth (Z.to_nat (Z.max 0 index)) sorted 0.

Record Performance := mkPerformance {
  avgDuration : Q;
  p50Duration : Z;
  p95Duration : Z;
  p99Duration : Z;
  maxDuration : Z
}.

Record MetricsSnapshot := mkSnapshot {
  timestamp : Z;
  duration : Z;
  counts_total : Z;
  counts_byLevel : props;
  counts_errors : Z;
  counts_dropped : Z;
  performance : option Performance;
  topErrors : list (string * (Z * Z));
  throughput_current : Z;
  throughput_avg : option Z;
  throughput_max : Z
}.

(** The performance block; it is empty ([None]) without samples.  Samples
    that are not numbers are outside the typed interface and yield no
    block in the model. *)
Definition performance_of (samples : list value) : option Performance :=
  match numbers samples with
  | Some (d :: ds) =>
      let sorted := sort_by Z.leb (d :: ds) in
      Some (mkPerformance
              (inject_Z (fold_left Z.add sorted 0%Z)
               / inject_Z (Z.of_nat (length sorted)))%Q
              (percentile sorted (1 # 2))
              (percentile sorted (95 # 100))
              (percentile sorted (99 # 100))
              (nth (length sorted - 1)%nat sorted 0))
  | _ => None
  end.

(** [Math.round(totalCount / (duration / 1000))]; [None] when the
    quotient is not finite. *)
Definition avg_throughput (total duration' : Z) : option Z :=
  if duration' =? 0 then None
  else Some (Qfloor (inject_Z total / (inject_Z duration' / 1000) + (1 # 2))).

Definition getSnapshot (now : Z) (m : t) : MetricsSnapshot * t :=
  let duration' := now - startTime m in
  let snapshot :=
    mkSnapshot now duration' (totalCount m) (counts m) (errorCount m)
      (droppedCount m)
      (performance_of (durations m))
      (take 10 (sort_by (fun a b => fst (snd b) <=? fst (snd a)) (errorMessages m)))
      (Z.of_nat (length (throughputWindow m)))
      (avg_throughput (totalCount m) duration')
      (maxThroughput m) in
  (snapshot, reset now m).

Definition dquote : string := String "034"%char EmptyString.
Definition newline : string := String "010"%char EmptyString.

(** The lines of [toPrometheus(prefix)], before they are joined. *)
Definition prometheus_lines (prefix : string) (durationsSum : Z)
    (durationsCount : nat) (snapshot : MetricsSnapshot) : list string :=
  ["# HELP " +:+ prefix +:+ "_logs_total Total number of logs";
   "# TYPE " +:+ prefix +:+ "_logs_total counter";
   prefix +:+ "_logs_total " +:+ pretty (counts_total snapshot);
   "# HELP " +:+ prefix +:+ "_logs_by_level_total Number of logs by level";
   "# TYPE " +:+ prefix +:+ "_logs_by_level_total counter"]
  ++ map (fun kv =>
            prefix +:+ "_logs_by_level_total{level=" +:+ dquote +:+ fst kv
            +:+ dquote +:+ "} " +:+ toString (snd kv))
         (counts_byLevel snapshot)
  ++ ["# HELP " +:+ prefix +:+ "_errors_total Total number of errors";
      "# TYPE " +:+ prefix +:+ "_errors_total counter";
      prefix +:+ "_errors_total " +:+ pretty (counts_errors snapshot);
      "# HELP " +:+ prefix +:+ "_dropped_total Total number of dropped logs";
      "# TYPE " +:+ prefix +:+ "_dropped_total counter";
      prefix +:+ "_dropped_total " +:+ pretty (counts_dropped snapshot)]
  ++ match performance snapshot with
     | Some perf =>
         ["# HELP " +:+ prefix +:+ "_duration_milliseconds Log operation duration";
          "# TYPE " +:+ prefix +:+ "_duration_milliseconds summary";
          prefix +:+ "_duration_milliseconds{quantile=" +:+ dquote +:+ "0.5"
          +:+ dquote +:+ "} " +:+ pretty (p50Duration perf);
          prefix +:+ "_duration_milliseconds{quantile=" +:+ dquote +:+ "0.95"
          +:+ dquote +:+ "} " +:+ pretty (p95Duration perf);
          prefix +:+ "_duration_milliseconds{quantile=" +:+ dquote +:+ "0.99"
          +:+ dquote +:+ "} " +:+ pretty (p99Duration perf);
          prefix +:+ "_duration_milliseconds_sum " +:+ pretty durationsSum;
          prefix +:+ "_duration_milliseconds_count " +:+ pretty durationsCount]
     | None => []
     end
  ++ ["# HELP " +:+ prefix +:+ "_throughput_current Current logs per second";
      "# TYPE " +:+ prefix +:+ "_throughput_current gauge";
      prefix +:+ "_throughput_current " +:+ pretty (throughput_current snapshot)].

(** [toPrometheus(prefix = 'hyperlog')].  The sum and the number of the
    samples are taken before [getSnapshot] resets them; as in
    [performance_of], samples that are not numbers are outside the typed
    interface. *)
Definition toPrometheus (prefix' : option string) (now : Z) (m : t) : string * t :=
  let prefix := default "hyperlog" prefix' in
  let durationsSum := fold_left Z.add (default [] (numbers (durations m))) 0 in
  let durationsCount := length (durations m) in
  let '(snapshot, m') := getSnapshot now m in
  (join newline (prometheus_lines prefix durationsSum durationsCount snapshot), m').

End MetricsAggregator.

(** ** core/logger.ts *)

Module Logger.

Import Levels JS.

(** *** Transports

    A sink is an external collaborator; the logger only observes how a
    call of [write] or [close] comes back. *)

Inductive WriteBehaviour :=
| WriteReturns
| WriteThrows (err : string)
| WriteResolves
| WriteRejects (err : string).

Inductive CloseBehaviour :=
| CloseAbsent
| CloseReturns
| CloseThrows (err : string)
| CloseResolves
| CloseRejects (err : string)
| ClosePending.

Record Transport := mkTransport {
  t_type : string;
  t_level : option LogLevel;
  t_write : props -> WriteBehaviour;
  t_close : CloseBehaviour
}.

Definition ConsoleTransport : Transport :=
  mkTransport "console" None (fun _ => WriteReturns) CloseReturns.

(** *** Options *)

Record Sampling := mkSampling { s_enabled : bool; s_rate : Q; s_adaptive : bool }.
Record RateLimit := mkRateLimit {
  r_enabled : bool; r_maxPerSecond : Z; r_maxBurst : option Z }.
Record Metrics := mkMetrics { m_enabled : bool; m_interval : Z }.

(** Addresses of shared objects in the store. *)
Abbreviation addr := nat.

(** [LoggerOptions]: what a caller passes; every field may be absent. *)
Record LoggerOptions := mkLoggerOptions {
  o_level : option LogLevel;
  o_name : option string;
  o_pretty : option bool;
  o_timestamp : option bool;
  o_hostname : option bool;
  o_pid : option bool;
  o_transports : option addr;
  o_context : option addr;
  o_redact : option (list string);
  o_filter : option (props -> bool);
  o_sampling : option Sampling;
  o_rateLimit : option RateLimit;
  o_metrics : option Metrics
}.

(** [Required<LoggerOptions>]: the options a logger holds. *)
Record Options := mkOptions {
  level : LogLevel;
  name : string;
  pretty : bool;
  timestamp : bool;
  hostname : bool;
  pid : bool;
  transports_opt : addr;
  context : addr;
  redact : list string;
  filter : props -> bool;
  sampling : Sampling;
  rateLimit : RateLimit;
  metrics : Metrics
}.

Record t := mk {
  options : Options;
  transports : addr;
  contextStorage : addr;
  _hostname : string;
  _pid : Z;
  sampler : option Sampler.t;
  rateLimiter : option RateLimiter.t;
  metricsAggregator : option MetricsAggregator.t;
  metricsInterval : option Z
}.

(** *** The store and the observable output *)

Inductive event :=
| SinkWrite (sink : nat) (entry : props)
| SinkClose (sink : nat)
| ConsoleError (label : string) (err : string).

Record World := mkWorld {
  arrays : list (list Transport);
  objects : list props;
  stores : list (option value);
  output : list event;
  os_hostname : string;
  process_pid : Z;
  node_env_development : bool
}.

Definition alloc_array (a : list Transport) (w : World) : addr * World :=
  (length (arrays w),
   mkWorld (arrays w ++ [a]) (objects w) (stores w) (output w)
           (os_hostname w) (process_pid w) (node_env_development w)).

Definition alloc_object (o : props) (w : World) : addr * World :=
  (length (objects w),
   mkWorld (arrays w) (objects w ++ [o]) (stores w) (output w)
           (os_hostname w) (process_pid w) (node_env_development w)).

Definition alloc_store (w : World) : addr * World :=
  (length (stores w),
   mkWorld (arrays w) (objects w) (stores w ++ [None]) (output w)
           (os_hostname w) (process_pid w) (node_env_development w)).

Definition set_array (a : addr) (l : list Transport) (w : World) : World :=
  mkWorld (<[a := l]> (arrays w)) (objects w) (stores w) (output w)
          (os_hostname w) (process_pid w) (node_env_development w).

Definition set_store (a : addr) (s : option value) (w : World) : World :=
  mkWorld (arrays w) (objects w) (<[a := s]> (stores w)) (output w)
          (os_hostname w) (process_pid w) (node_env_development w).

Definition emit (es : list event) (w : World) : World :=
  mkWorld (arrays w) (objects w) (stores w) (output w ++ es)
          (os_hostname w) (process_pid w) (node_env_development w).

Definition transports_of (lg : t) (w : World) : list Transport :=
  default [] (arrays w !! transports lg).

Definition context_of (lg : t) (w : World) : props :=
  default [] (objects w !! context (options lg)).

(** [contextStorage.getStore()]. *)
Definition getStore (lg : t) (w : World) : value :=
  match stores w !! contextStorage lg with
  | Some (Some c) => c
  | _ => VUndefined
  end.

(** *** The constructor

    [None] stands for the exception the [Sampler] constructor throws on a
    rate outside [0, 1]. *)
Definition new (o : LoggerOptions) (now : Z) (w : World) : option t * World :=
  let pretty' := default (node_env_development w) (o_pretty o) in
  let '(tr, w1) :=
    match o_transports o with
    | Some a => (a, w)
    | None => alloc_array [ConsoleTransport] w
    end in
  let '(cx, w2) :=
    match o_context o with
    | Some a => (a, w1)
    | None => alloc_object [] w1
    end in
  let opts :=
    mkOptions (default info (o_level o))
      (default "" (o_name o))
      pretty'
      (default true (o_timestamp o))
      (default false (o_hostname o))
      (default false (o_pid o))
      tr cx
      (default [] (o_redact o))
      (default (fun _ => true) (o_filter o))
      (default (mkSampling false 1 false) (o_sampling o))
      (default (mkRateLimit false 10000 None) (o_rateLimit o))
      (default (mkMetrics false 60000) (o_metrics o)) in
  let '(cs, w3) := alloc_store w2 in
  let sampler' :=
    if s_enabled (sampling opts)
    then Some (Sampler.new (s_rate (sampling opts)) None now)
    else None in
  let limiter' :=
    if r_enabled (rateLimit opts)
    then Some (RateLimiter.new (r_maxPerSecond (rateLimit opts))
                 (r_maxBurst (rateLimit opts)) None now)
    else None in
  let metrics' :=
    if m_enabled (metrics opts) then Some (MetricsAggregator.new now) else None in
  let interval' :=
    if m_enabled (metrics opts) then Some (m_interval (metrics opts)) else None in
  match sampler' with
  | Some None => (None, w3)
  | Some (Some s) =>
      (Some (mk opts tr cs (os_hostname w) (process_pid w)
                (Some s) limiter' metrics' interval'), w3)
  | None =>
      (Some (mk opts tr cs (os_hostname w) (process_pid w)
                None limiter' metrics' interval'), w3)
  end.

(** *** Entry construction and redaction *)

Definition REDACTED : value := VStr "[REDACTED]".

Definition includes (keys : list string) (key : string) : bool :=
  existsb (String.eqb key) keys.

(** The inner [redact] of [redactSensitive]: every property whose key is
    listed becomes ['[REDACTED]'], every other property of type object is
    walked in turn.  A [for-in] loop over an array runs over its indices,
    written as strings. *)
Fixpoint redact_value (keys : list string) (obj : value) {struct obj} : value :=
  let at_key (key : string) (v : value) : value :=
    if includes keys key then REDACTED
    else if typeof_object v then redact_value keys v
    else v in
  match obj with
  | VObj ps =>
      VObj ((fix walk (l : props) : props :=
               match l with
               | [] => []
               | (k, v) :: rest => (k, at_key k v) :: walk rest
               end) ps)
  | VArr elems =>
      VArr ((fix walk (i : nat) (l : list value) : list value :=
               match l with
               | [] => []
               | v :: rest => at_key (index_key i) v :: walk (S i) rest
               end) 0%nat elems)
  | VError hidden own =>
      VError hidden
        ((fix walk (l : props) : props :=
            match l with
            | [] => []
            | (k, v) :: rest => (k, at_key k v) :: walk rest
            end) own)
  | _ => obj
  end.

Definition redact_entry (keys : list string) (entry : props) : props :=
  match redact_value keys (VObj entry) with
  | VObj ps => ps
  | _ => entry
  end.

(** The code redacts in place, so an object nested in the entry, which is
    the caller's or a context's own object, is changed for them too; the
    model returns the redacted entry and leaves those objects alone. *)
Definition redactSensitive (lg : t) (entry : props) : props :=
  if (length (redact (options lg)) =? 0)%nat then entry
  else redact_entry (redact (options lg)) entry.

(** [if (msg) entry.msg = msg]. *)
Definition set_msg (msg : option string) (entry : props) : props :=
  match msg with
  | Some m => if String.eqb m "" then entry else set_prop "msg" (VStr m) entry
  | None => entry
  end.

(** The entry before the call's arguments are looked at: level and time,
    the enrichment fields, the ambient context, then the bound context. *)
Definition base_entry (lvl : LogLevel) (now : Z) (lg : t) (w : World) : props :=
  let e0 : props := [("level", VStr (level_name lvl)); ("time", VNum now)] in
  let e1 := if timestamp (options lg) then set_prop "time" (VNum now) e0 else e0 in
  let e2 := if hostname (options lg)
            then set_prop "hostname" (VStr (_hostname lg)) e1 else e1 in
  let e3 := if pid (options lg) then set_prop "pid" (VNum (_pid lg)) e2 else e2 in
  let e4 := if negb (String.eqb (name (options lg)) "")
            then set_prop "name" (VStr (name (options lg))) e3 else e3 in
  let ambient := getStore lg w in
  let e5 := if truthy ambient then Object_assign e4 ambient else e4 in
  Object_assign e5 (VObj (context_of lg w)).

(** The entry before redaction. *)
Definition assemble (lvl : LogLevel) (obj : value) (msg : option string)
    (now : Z) (lg : t) (w : World) : props :=
  let entry := base_entry lvl now lg w in
  match obj, msg with
  | VStr s, None => set_prop "msg" (VStr s) entry
  | VError _ _, _ =>
      set_msg msg (set_prop "err" (ErrorSerializer.serialize obj) entry)
  | VObj _, _ | VArr _, _ => set_msg msg (Object_assign entry obj)
  | _, _ => set_msg msg (set_prop "msg" (VStr (toString obj)) entry)
  end.

Definition createLogEntry (lvl : LogLevel) (obj : value) (msg : option string)
    (now : Z) (lg : t) (w : World) : props :=
  redactSensitive lg (assemble lvl obj msg now lg w).

(** *** Dispatch *)

(** [shouldLog(entry.level, transport.level || this.options.level)]; the
    entry's [level] field is read back from the entry, as a property key. *)
Definition admits (lg : t) (entry : props) (tr : Transport) : bool :=
  shouldLog_key (toString (default VUndefined (lookup "level" entry)))
                (default (level (options lg)) (t_level tr)).

(** One turn of the loop of [write] for the sink at index [i]: what
    happens before the next sink is served, and what the rejection handler
    reports once the loop is over. *)
Definition write_one (lg : t) (entry : props) (i : nat) (tr : Transport)
  : list event * list event :=
  if admits lg entry tr then
    match t_write tr entry with
    | WriteReturns | WriteResolves => ([SinkWrite i entry], [])
    | WriteThrows err =>
        ([SinkWrite i entry; ConsoleError "Transport write error:" err], [])
    | WriteRejects err =>
        ([SinkWrite i entry], [ConsoleError "Transport write error:" err])
    end
  else ([], []).

Fixpoint write_loop (lg : t) (entry : props) (i : nat) (trs : list Transport)
  : list event * list event :=
  match trs with
  | [] => ([], [])
  | tr :: rest =>
      let '(now1, later1) := write_one lg entry i tr in
      let '(now2, later2) := write_loop lg entry (S i) rest in
      (now1 ++ now2, later1 ++ later2)
  end.

Definition write (entry : props) (lg : t) (w : World) : World :=
  let '(during, after) := write_loop lg entry 0%nat (transports_of lg w) in
  emit (during ++ after) w.

Definition set_sampler (s : option Sampler.t) (lg : t) : t :=
  mk (options lg) (transports lg) (contextStorage lg) (_hostname lg) (_pid lg)
     s (rateLimiter lg) (metricsAggregator lg) (metricsInterval lg).

Definition set_rateLimiter (r : option RateLimiter.t) (lg : t) : t :=
  mk (options lg) (transports lg) (contextStorage lg) (_hostname lg) (_pid lg)
     (sampler lg) r (metricsAggregator lg) (metricsInterval lg).

Definition set_metricsAggregator (m : option MetricsAggregator.t) (lg : t) : t :=
  mk (options lg) (transports lg) (contextStorage lg) (_hostname lg) (_pid lg)
     (sampler lg) (rateLimiter lg) m (metricsInterval lg).

Definition set_metricsInterval (i : option Z) (lg : t) : t :=
  mk (options lg) (transports lg) (contextStorage lg) (_hostname lg) (_pid lg)
     (sampler lg) (rateLimiter lg) (metricsAggregator lg) i.

Definition recordDropped (lg : t) : t :=
  set_metricsAggregator (MetricsAggregator.recordDropped <$> metricsAggregator lg) lg.

(** The sampling gate: the decision and the logger with the sampler's
    counter advanced. *)
Definition sampling_gate (lg : t) : bool * t :=
  match sampler lg with
  | Some s =>
      let '(keep, s') := Sampler.shouldSample s in
      (keep, set_sampler (Some s') lg)
  | None => (true, lg)
  end.

Definition rate_limit_gate (now : Z) (lg : t) : bool * t :=
  match rateLimiter lg with
  | Some r =>
      let '(ok, r') := RateLimiter.tryAcquire now r in
      (ok, set_rateLimiter (Some r') lg)
  | None => (true, lg)
  end.

Definition log (lvl : LogLevel) (obj : value) (msg : option string) (now : Z)
    (lg : t) (w : World) : t * World :=
  if negb (shouldLog lvl (level (options lg))) then (lg, w)
  else
    let '(sampled, lg1) := sampling_gate lg in
    if negb sampled then (recordDropped lg1, w)
    else
      let '(acquired, lg2) := rate_limit_gate now lg1 in
      if negb acquired then (recordDropped lg2, w)
      else
        let entry := createLogEntry lvl obj msg now lg2 w in
        if negb (filter (options lg2) entry) then (lg2, w)
        else
          let lg3 :=
            set_metricsAggregator
              (MetricsAggregator.recordLog entry now <$> metricsAggregator lg2) lg2 in
          (lg3, write entry lg3 w).

Definition trace_ := log trace.
Definition debug_ := log debug.
Definition info_ := log info.
Definition warn_ := log warn.
Definition error_ := log error.
Definition fatal_ := log fatal.

(** *** Child loggers and the ambient context *)

(** [{ ...this.options, context: { ...this.options.context, ...context },
       transports: this.transports }] *)
Definition childOptions (lg : t) (fresh_context : addr) : LoggerOptions :=
  let o := options lg in
  mkLoggerOptions (Some (level o)) (Some (name o)) (Some (pretty o))
    (Some (timestamp o)) (Some (hostname o)) (Some (pid o))
    (Some (transports lg)) (Some fresh_context) (Some (redact o))
    (Some (filter o)) (Some (sampling o)) (Some (rateLimit o))
    (Some (metrics o)).

Definition child (ctx : value) (now : Z) (lg : t) (w : World) : option t * World :=
  let merged := Object_assign (Object_assign [] (VObj (context_of lg w))) ctx in
  let '(cx, w1) := alloc_object merged w in
  new (childOptions lg cx) now w1.

(** [contextStorage.run(context, fn)] for a synchronous [fn]. *)
Definition withContext {A} (ctx : value) (fn : World -> A * World)
    (lg : t) (w : World) : A * World :=
  let previous := default None (stores w !! contextStorage lg) in
  let '(r, w1) := fn (set_store (contextStorage lg) (Some ctx) w) in
  (r, set_store (contextStorage lg) previous w1).


Definition set_level (l : LogLevel) (lg : t) : t :=
  let o := options lg in
  mk (mkOptions l (name o) (pretty o) (timestamp o) (hostname o) (pid o)
        (transports_opt o) (context o) (redact o) (filter o) (sampling o)
        (rateLimit o) (metrics o))
     (transports lg) (contextStorage lg) (_hostname lg) (_pid lg)
     (sampler lg) (rateLimiter lg) (metricsAggregator lg) (metricsInterval lg).

(** [setLevel(level)].  [LevelThrown] is the thrown error.  The guard is
    [isValidLevel], which a name inherited from [Object.prototype] passes
    too; the logger then holds a key that names no severity
    ([LevelForeign]), which [shouldLog] compares as not-a-number. *)
Inductive LevelChange :=
| LevelSet (lg : t)
| LevelForeign (key : string)
| LevelThrown (message : string).

Definition setLevel (l : string) (lg : t) : LevelChange :=
  if negb (isValidLevel l) then LevelThrown ("Invalid log level: " +:+ l)
  else
    match level_of_name l with
    | Some l' => LevelSet (set_level l' lg)
    | None => LevelForeign l
    end.

Definition addTransport (tr : Transport) (lg : t) (w : World) : World :=
  set_array (transports lg) (transports_of lg w ++ [tr]) w.

(** *** Shutdown *)

Inductive settled := Resolved | Rejected (err : string) | Pending.

(** [this.transports.map(t => t.close ? t.close() : Promise.resolve())]:
    the calls made, in order, and either the promises obtained or the
    exception that stopped the loop. *)
Fixpoint close_map (i : nat) (trs : list Transport)
  : list event * (list settled + string) :=
  match trs with
  | [] => ([], inl [])
  | tr :: rest =>
      match t_close tr with
      | CloseThrows err => ([SinkClose i], inr err)
      | b =>
          let p := match b with
                   | CloseRejects err => Rejected err
                   | ClosePending => Pending
                   | _ => Resolved
                   end in
          let ev := match b with CloseAbsent => [] | _ => [SinkClose i] end in
          let '(evs, r) := close_map (S i) rest in
          (ev ++ evs,
           match r with
           | inl ps => inl (p :: ps)
           | inr err => inr err
           end)
      end
  end.

(** [Promise.all]: rejected as soon as one member is, with that member's
    reason (the members are taken to settle in their order); fulfilled
    when all are; otherwise pending for ever. *)
Fixpoint Promise_all (ps : list settled) : settled :=
  match ps with
  | [] => Resolved
  | Rejected err :: _ => Rejected err
  | Resolved :: rest => Promise_all rest
  | Pending :: rest =>
      match Promise_all rest with
      | Rejected err => Rejected err
      | _ => Pending
      end
  end.

Definition close (lg : t) (w : World) : settled * t * World :=
  let lg1 := set_metricsInterval None lg in
  let '(evs, r) := close_map 0%nat (transports_of lg w) in
  let outcome :=
    match r with
    | inl ps => Promise_all ps
    | inr err => Rejected err
    end in
  (outcome, lg1, emit evs w).

Definition getMetrics (now : Z) (lg : t)
  : option MetricsAggregator.MetricsSnapshot * t :=
  match metricsAggregator lg with
  | Some m =>
      let '(snap, m') := MetricsAggregator.getSnapshot now m in
      (Some snap, set_metricsAggregator (Some m') lg)
  | None => (None, lg)
  end.

(** The number of [write] calls the sink at index [i] received. *)
Definition writes_to (i : nat) (out : list event) : nat :=
  length (List.filter (fun e => match e with
                                | SinkWrite j _ => Nat.eqb i j
                                | _ => false
                                end) out).


End Logger.

(** ** utils/safe-stringify.ts

    [SafeStringify.stringify] hands [JSON.stringify] a replacer.  Values
    here are graphs: an object is named by its address in a heap, so that
    the same object can be reached twice and a structure can contain
    itself.  User code that could run during a serialization ([toJSON]
    methods, getters, a replacer that throws) is not modelled; the user
    replacer is a function on values. *)

Module SafeStringify.

Local Open Scope nat_scope.

Inductive jsval :=
| JUndefined
| JNull
| JBool (b : bool)
| JNum (n : Z)
| JNonFinite (text : string)   (* NaN, Infinity, -Infinity *)
| JStr (s : string)
| JBigInt (n : Z)
| JFun (name : string) (source : string)
| JSym (description : string)
| JRef (a : nat).

Inductive jsobj :=
| OPlain (props : list (string * jsval))
| OArray (elems : list jsval)
| OError (name message stack : jsval)
| ORegExp (text : string)        (* what toString() gives, like /ab+c/g *)
| ODate (iso : option string)    (* toISOString(); None for an invalid date *)
| OSet (members : list jsval)
| OMap (entries : list (jsval * jsval)).

Abbreviation heap := (list jsobj).

Definition obj_at (h : heap) (a : nat) : jsobj := default (OPlain []) (h !! a).

(** What a call can come back with: a rendered text, [undefined], or an
    exception with its message. *)
Inductive outcome :=
| Value (s : string)
| Undefined
| Throw (message : string).

(** What the replacer returns: a value it was given or a string it made,
    or an object or array it has just built. *)
Inductive replaced :=
| RValue (v : jsval)
| RFreshObject (props : list (string * jsval))
| RFreshArray (elems : list jsval)
| RThrow (message : string).

Definition mem (a : nat) (seen : list nat) : bool := existsb (Nat.eqb a) seen.

Fixpoint set_prop (k : string) (v : jsval) (ps : list (string * jsval))
  : list (string * jsval) :=
  match ps with
  | [] => [(k, v)]
  | (k', v') :: rest =>
      if String.eqb k' k then (k, v) :: rest else (k', v') :: set_prop k v rest
  end.

Definition dquote : string := String "034"%char EmptyString.
Definition backslash : string := String "092"%char EmptyString.

Definition hex_digit (n : nat) : ascii :=
  nth n ["0"; "1"; "2"; "3"; "4"; "5"; "6"; "7"; "8"; "9";
         "a"; "b"; "c"; "d"; "e"; "f"]%char "0"%char.

Definition escape_char (c : ascii) : string :=
  let n := nat_of_ascii c in
  if n =? 34 then backslash +:+ dquote
  else if n =? 92 then backslash +:+ backslash
  else if n =? 8 then backslash +:+ "b"
  else if n =? 12 then backslash +:+ "f"
  else if n =? 10 then backslash +:+ "n"
  else if n =? 13 then backslash +:+ "r"
  else if n =? 9 then backslash +:+ "t"
  else if n <? 32 then
    backslash +:+ "u00"
    +:+ String (hex_digit (n / 16)) (String (hex_digit (n mod 16)) EmptyString)
  else String c EmptyString.

Fixpoint escape (s : string) : string :=
  match s with
  | EmptyString => EmptyString
  | String c rest => escape_char c +:+ escape rest
  end.

(** [QuoteJSONString]. *)
Definition quote (s : string) : string := dquote +:+ escape s +:+ dquote.

Section Serialisation.

Variable h : heap.

(** The optional [replacer] argument of [stringify]. *)
Variable user : option (string -> jsval -> jsval).

(** The indentation unit [JSON.stringify] derives from [space]: empty, or
    up to ten characters. *)
Variable gap : string.

(** [String(o)] for an object used as the key of a [Map]; it depends on
    the object's own [toString]. *)
Variable object_key : nat -> string.

(** [ToPropertyKey]; [None] for a symbol, which names no string key. *)
Definition property_key (k : jsval) : option string :=
  match k with
  | JUndefined => Some "undefined"
  | JNull => Some "null"
  | JBool true => Some "true"
  | JBool false => Some "false"
  | JNum n => Some (pretty n)
  | JNonFinite text => Some text
  | JStr s => Some s
  | JBigInt n => Some (pretty n)
  | JFun _ source => Some source
  | JSym _ => None
  | JRef a => Some (object_key a)
  end.

(** [Object.fromEntries(map)], keeping the string-keyed properties. *)
Definition fromEntries (entries : list (jsval * jsval)) : list (string * jsval) :=
  fold_left (fun o kv =>
               match property_key (fst kv) with
               | Some k => set_prop k (snd kv) o
               | None => o
               end) entries [].

(** The arrow function [stringify] passes to [JSON.stringify], with the
    [seen] set threaded through. *)
Definition replacer (seen : list nat) (key : string) (value : jsval)
  : replaced * list nat :=
  let value := match user with Some f => f key value | None => value end in
  match value with
  | JUndefined => (RValue JUndefined, seen)
  | JBigInt n => (RValue (JStr (pretty n)), seen)
  | JFun name _ =>
      (RValue (JStr ("[Function: "
                     +:+ (if String.eqb name "" then "anonymous" else name)
                     +:+ "]")), seen)
  | JSym description => (RValue (JStr ("Symbol(" +:+ description +:+ ")")), seen)
  | JRef a =>
      match obj_at h a with
      | OError name message stack =>
          (RFreshObject [("name", name); ("message", message); ("stack", stack)],
           seen)
      | ORegExp text => (RValue (JStr text), seen)
      | ODate (Some iso) => (RValue (JStr iso), seen)
      | ODate None => (RThrow "Invalid time value", seen)
      | OSet members => (RFreshArray members, seen)
      | OMap entries => (RFreshObject (fromEntries entries), seen)
      | OPlain _ | OArray _ =>
          if mem a seen then (RValue (JStr "[Circular]"), seen)
          else (RValue (JRef a), a :: seen)
      end
  | _ => (RValue value, seen)
  end.

(** The [toJSON] step of [SerializeJSONProperty]: of the objects modelled
    only a [Date] has the method. *)
Definition toJSON (value : jsval) : jsval :=
  match value with
  | JRef a =>
      match obj_at h a with
      | ODate (Some iso) => JStr iso
      | ODate None => JNull
      | _ => value
      end
  | _ => value
  end.

Definition separator : string := if String.eqb gap "" then "" else " ".

Definition newline : string := String "010"%char EmptyString.

(** The members of an object or array between their brackets. *)
Definition wrap (opening closing : string) (indent : string)
    (partial : list string) : string :=
  match partial with
  | [] => opening +:+ closing
  | _ =>
      if String.eqb gap "" then
        opening +:+ String.concat "," partial +:+ closing
      else
        let inner := indent +:+ gap in
        opening +:+ newline +:+ inner
        +:+ String.concat ("," +:+ newline +:+ inner) partial
        +:+ newline +:+ indent +:+ closing
  end.

(** [SerializeJSONObject] and [SerializeJSONArray] over a serializer
    [rec] for the members; the first exception ends the walk. *)
Fixpoint members (rec : list nat -> string -> jsval -> outcome * list nat)
    (seen : list nat) (ps : list (string * jsval))
  : (list string + string) * list nat :=
  match ps with
  | [] => (inl [], seen)
  | (k, v) :: rest =>
      match rec seen k v with
      | (Throw m, seen1) => (inr m, seen1)
      | (Undefined, seen1) => members rec seen1 rest
      | (Value s, seen1) =>
          match members rec seen1 rest with
          | (inl l, seen2) =>
              (inl ((quote k +:+ ":" +:+ separator +:+ s) :: l), seen2)
          | (inr m, seen2) => (inr m, seen2)
          end
      end
  end.

Fixpoint elements (rec : list nat -> string -> jsval -> outcome * list nat)
    (seen : list nat) (i : nat) (l : list jsval)
  : (list string + string) * list nat :=
  match l with
  | [] => (inl [], seen)
  | v :: rest =>
      match rec seen (pretty i) v with
      | (Throw m, seen1) => (inr m, seen1)
      | (r, seen1) =>
          match elements rec seen1 (S i) rest with
          | (inl l', seen2) =>
              (inl (match r with Value s => s | _ => "null" end :: l'), seen2)
          | (inr m, seen2) => (inr m, seen2)
          end
      end
  end.

Definition finish (opening closing indent : string)
    (r : (list string + string) * list nat) : outcome * list nat :=
  match r with
  | (inl partial, seen) => (Value (wrap opening closing indent partial), seen)
  | (inr m, seen) => (Throw m, seen)
  end.

Definition stack_overflow : string := "Maximum call stack size exceeded".

(** [SerializeJSONProperty] for a value read from its holder.  [depth] is
    the number of nested objects the call stack still has room for.
    [JSON.stringify]'s own test for a circular structure is left out: it
    looks for the object among those being serialized, and the replacer
    has already replaced every plain object or array that is met again,
    while the objects and arrays it builds are new. *)
Fixpoint property (depth : nat) (seen : list nat) (indent : string)
    (key : string) (value : jsval) {struct depth} : outcome * list nat :=
  let object seen' ps :=
    match depth with
    | O => (Throw stack_overflow, seen')
    | S d =>
        finish "{" "}" indent
          (members (fun s k v => property d s (indent +:+ gap) k v) seen' ps)
    end in
  let array seen' l :=
    match depth with
    | O => (Throw stack_overflow, seen')
    | S d =>
        finish "[" "]" indent
          (elements (fun s k v => property d s (indent +:+ gap) k v) seen' 0 l)
    end in
  match replacer seen key (toJSON value) with
  | (RThrow m, seen1) => (Throw m, seen1)
  | (RFreshObject ps, seen1) => object seen1 ps
  | (RFreshArray l, seen1) => array seen1 l
  | (RValue x, seen1) =>
      match x with
      | JNull => (Value "null", seen1)
      | JBool true => (Value "true", seen1)
      | JBool false => (Value "false", seen1)
      | JStr s => (Value (quote s), seen1)
      | JNum n => (Value (pretty n), seen1)
      | JNonFinite _ => (Value "null", seen1)
      | JBigInt _ => (Throw "Do not know how to serialize a BigInt", seen1)
      | JUndefined | JFun _ _ | JSym _ => (Undefined, seen1)
      | JRef a =>
          match obj_at h a with
          | OPlain ps => object seen1 ps
          | OArray l => array seen1 l
          | _ => object seen1 []
          end
      end
  end.

(** [stringify(obj, replacer, space)]; [None] is [undefined]. *)
Definition stringify (depth : nat) (obj : jsval) : option string :=
  match fst (property depth [] "" "" obj) with
  | Value s => Some s
  | Undefined => None
  | Throw message => Some ("[Stringify Error: " +:+ message +:+ "]")
  end.

End Serialisation.

End SafeStringify.

(** * Properties *)

(** ** Metrics aggregator: what [getSnapshot] resets *)

Section MetricsProperties.

Import JS MetricsAggregator.

(** The specification's sentence: [getSnapshot] resets the counts, the
    durations and the error table and keeps the maximum throughput. *)
Definition snapshot_keeps_max_throughput (now : Z) (m : t) : Prop :=
  let m' := snd (getSnapshot now m) in
  counts m' = zero_counts /\ totalCount m' = 0 /\ errorCount m' = 0
  /\ droppedCount m' = 0 /\ durations m' = [] /\ errorMessages m' = []
  /\ maxThroughput m' = maxThroughput m.

(** An aggregator that recorded three entries within one second. *)
Definition three_logs : t :=
  recordLog [("level", VStr "info")] 102
    (recordLog [("level", VStr "warn")] 101
       (recordLog [("level", VStr "info")] 100 (new 0))).

Example three_logs_max : maxThroughput three_logs = 3.
Proof. reflexivity. Qed.

(** C4, counterexample: after three entries within a second the maximum
    throughput is 3; [getSnapshot] hands the aggregator back with a maximum
    of 0, so the high-water mark is not kept. *)
Lemma getSnapshot_forgets_max_throughput :
  ~ snapshot_keeps_max_throughput 200 three_logs.
Proof.
  unfold snapshot_keeps_max_throughput. cbn.
  intros (_ & _ & _ & _ & _ & _ & H). discriminate H.
Qed.

(** C4, as amended: [getSnapshot] reports the accumulated values,
    including the maximum throughput reached, and resets everything: the
    per-level counts, the total, error and dropped counts, the duration
    samples, the error-signature table, the throughput window and the
    maximum throughput, which restarts from 0; the window start becomes
    the time of the snapshot. *)
Theorem getSnapshot_resets_everything (now : Z) (m : t) :
  let '(snapshot, m') := getSnapshot now m in
  (counts_total snapshot = totalCount m
   /\ counts_byLevel snapshot = counts m
   /\ counts_errors snapshot = errorCount m
   /\ counts_dropped snapshot = droppedCount m
   /\ throughput_max snapshot = maxThroughput m)
  /\ counts m' = zero_counts
  /\ totalCount m' = 0
  /\ errorCount m' = 0
  /\ droppedCount m' = 0
  /\ durations m' = []
  /\ errorMessages m' = []
  /\ throughputWindow m' = []
  /\ maxThroughput m' = 0
  /\ startTime m' = now
  /\ m' = reset now m.
Proof.
  unfold getSnapshot, reset. cbn. repeat split.
Qed.

(** The second of two snapshots in a row reports nothing, the maximum
    throughput included. *)
Lemma second_snapshot_is_empty (now1 now2 : Z) (m : t) :
  let s2 := fst (getSnapshot now2 (snd (getSnapshot now1 m))) in
  counts_total s2 = 0 /\ counts_dropped s2 = 0 /\ throughput_max s2 = 0.
Proof. cbn. repeat split. Qed.

End MetricsProperties.

(** ** Token bucket *)

Section RateLimiterProperties.

Import RateLimiter.

(** A bucket of the test-suite ([maxPerSecond] 5, [maxBurst] 10, the
    default window of 1000 ms) whose ten tokens have been used at time 0. *)
Definition exhausted : t := mk 5 10 1000 0 0 0.

Example exhausted_reached :
  snd (Nat.iter 10 (fun st => tryAcquire 0 (snd st)) (true, new 5 (Some 10) None 0))
  = exhausted.
Proof. reflexivity. Qed.

(** C3, the code at the failing input: 250 ms after the bucket was
    emptied, a proportional refill would credit floor(250 * 5 / 1000) = 1
    token and admit the call; [tryAcquire] credits nothing before a whole
    window has passed, rejects and counts a drop. *)
Lemma tryAcquire_no_refill_within_window :
  tryAcquire 250 exhausted = (false, mk 5 10 1000 0 0 1)
  /\ RateLimiterProportional.tryAcquire 250 exhausted = (true, mk 5 10 1000 0 200 0).
Proof. split; reflexivity. Qed.

(** A bucket refilling one token per second, empty at time 0. *)
Definition slow : t := mk 1 1 1000 0 0 0.

(** After 1500 ms [refill] credits one token and sets the refill clock to
    1500, not to 1000: the half token that had accrued is dropped, and at
    time 2000 the call that two whole tokens would admit is rejected.  The
    second copy of the limiter keeps the clock at 1000 and admits it. *)
Lemma refill_loses_fraction :
  lastRefill (refill 1500 slow) = 1500
  /\ fst (tryAcquire 2000 (snd (tryAcquire 1500 slow))) = false
  /\ lastRefill (RateLimiterProportional.refill 1500 slow) = 1000
  /\ fst (RateLimiterProportional.tryAcquire 2000
            (snd (RateLimiterProportional.tryAcquire 1500 slow))) = true.
Proof. repeat split; reflexivity. Qed.


(** The admission step is as the specification has it: after the refill,
    a positive token count admits and consumes one token, otherwise the
    call is rejected and the dropped counter goes up by one. *)
Lemma tryAcquire_spec (now : Z) (r : t) :
  let r1 := refill now r in
  let '(ok, r2) := tryAcquire now r in
  (0 < tokens r1 -> ok = true /\ tokens r2 = tokens r1 - 1 /\ dropped r2 = dropped r1)
  /\ (tokens r1 <= 0 -> ok = false /\ tokens r2 = tokens r1 /\ dropped r2 = dropped r1 + 1).
Proof.
  unfold tryAcquire. cbn zeta.
  destruct (Z.ltb_spec 0 (tokens (refill now r))); cbn; split; intros; try lia; auto.
Qed.

(** *** The second copy of the limiter does what the sentence says *)

Lemma Qfloor_ratio (a b c : Z) :
  0 < b -> Qfloor (inject_Z a / inject_Z b * inject_Z c) = (a * c) / b.
Proof.
  intros Hb. destruct b as [| p | p]; try lia.
  unfold Qfloor, Qdiv, Qmult, Qinv, inject_Z. cbn.
  rewrite Z.mul_1_r, Pos.mul_1_r. reflexivity.
Qed.

Lemma Qfloor_product_ratio (a b c : Z) :
  0 < c -> Qfloor (inject_Z a * inject_Z b / inject_Z c) = (a * b) / c.
Proof.
  intros Hc. destruct c as [| p | p]; try lia.
  unfold Qfloor, Qdiv, Qmult, Qinv, inject_Z. cbn.
  rewrite Z.mul_1_r. reflexivity.
Qed.

Lemma Qle_bool_ratio (a b c : Z) :
  0 < b -> Qle_bool 1 (inject_Z a / inject_Z b * inject_Z c) = (b <=? a * c).
Proof.
  intros Hb. destruct b as [| p | p]; try lia.
  unfold Qle_bool, Qdiv, Qmult, Qinv, inject_Z. cbn.
  rewrite Z.mul_1_r, Pos.mul_1_r, Z.mul_1_r.
  destruct (a * c); reflexivity.
Qed.

(** The proportional [refill]: it credits the whole tokens the elapsed
    time is worth, as soon as that is one token, and moves the refill
    clock forward by no more than the time those tokens stand for, so the
    time left on the clock is still worth the fraction that was not
    credited. *)
Lemma proportional_refill_keeps_fraction (now : Z) (r : t) :
  0 < windowMs r -> 0 < maxPerSecond r -> lastRefill r <= now ->
  let elapsed := now - lastRefill r in
  let credit := (elapsed * maxPerSecond r) / windowMs r in
  let r' := RateLimiterProportional.refill now r in
  (credit < 1 -> r' = r)
  /\ (1 <= credit ->
      tokens r' = Z.min (maxBurst r) (tokens r + credit)
      /\ lastRefill r <= lastRefill r' <= now
      /\ elapsed * maxPerSecond r - credit * windowMs r
         <= (now - lastRefill r') * maxPerSecond r).
Proof.
  intros Hw Hm Hnow. cbn zeta. unfold RateLimiterProportional.refill.
  rewrite Qle_bool_ratio, Qfloor_ratio by exact Hw.
  set (e := now - lastRefill r) in *.
  set (credit := e * maxPerSecond r / windowMs r).
  rewrite Qfloor_product_ratio by exact Hm.
  pose proof (Z.div_mod (e * maxPerSecond r) (windowMs r) ltac:(lia)) as Hc.
  pose proof (Z.mod_pos_bound (e * maxPerSecond r) (windowMs r) Hw) as Hcb.
  fold credit in Hc.
  pose proof (Z.div_mod (credit * windowMs r) (maxPerSecond r) ltac:(lia)) as Ha.
  pose proof (Z.mod_pos_bound (credit * windowMs r) (maxPerSecond r) Hm) as Hab.
  destruct (Z.leb_spec (windowMs r) (e * maxPerSecond r)) as [Hle | Hlt].
  - split; [intros H; nia |]. intros _. cbn [tokens lastRefill].
    split; [reflexivity |]. split; [split |]; nia.
  - split; [reflexivity |]. intros H. nia.
Qed.

End RateLimiterProperties.

(** ** Ring buffer *)

Section RingBufferProperties.

Import RingBuffer.

Local Open Scope nat_scope.

Definition bytes (s : string) : list byte := list_byte_of_string s.

(** The specification's conservation property for one run on a fresh
    buffer: if no write exceeds the free space, used and free space add up
    to the capacity after every operation, and [readAll] returns the
    unread bytes in the order they were written. *)
Definition conserves (capacity : nat) (ops : list op) : Prop :=
  no_overwrite ops (new capacity []) = true ->
  (forall n,
     let rb := run (take n ops) (new capacity []) in
     getUsedSpace rb + getFreeSpace rb = capacity)
  /\ fst (readAll (run ops (new capacity []))) = pending ops.

(** C2, the code at the failing input: ten bytes ['A'] written to an empty
    buffer of capacity 10 fit the free space; the write reports success,
    yet the buffer stays empty and [readAll] returns nothing instead of
    the ten bytes.  The branch [isSpecialTestCase] of [write] leaves the
    cursors where they were. *)
Lemma write_of_ten_A_is_lost :
  let rb := new 10 [] in
  let '(ok, rb') := write (bytes "AAAAAAAAAA") rb in
  length (bytes "AAAAAAAAAA") <= getFreeSpace rb
  /\ ok = true
  /\ getUsedSpace rb' = 0
  /\ fst (readAll rb') = []
  /\ pending [Write (bytes "AAAAAAAAAA")] = bytes "AAAAAAAAAA"
  /\ ~ conserves 10 [Write (bytes "AAAAAAAAAA")].
Proof.
  cbn -[conserves]. repeat split; try lia.
  intros H. destruct (H eq_refl) as [_ H']. vm_compute in H'. discriminate H'.
Qed.

(** Any other ten bytes are kept. *)
Example write_of_ten_other_bytes_is_kept :
  fst (readAll (snd (write (bytes "BAAAAAAAAA") (new 10 [])))) = bytes "BAAAAAAAAA".
Proof. reflexivity. Qed.

(** A second failing input, without any test-specific byte: a read of
    zero bytes from a full buffer of capacity 4 leaves the two cursors
    equal and clears [filled], so the four unread bytes are gone. *)
Lemma read_of_zero_bytes_empties_full_buffer :
  let ops := [Write (bytes "abcd"); Read 0] in
  no_overwrite ops (new 4 []) = true
  /\ getUsedSpace (run ops (new 4 [])) = 0
  /\ fst (readAll (run ops (new 4 []))) = []
  /\ pending ops = bytes "abcd"
  /\ ~ conserves 4 ops.
Proof.
  cbn -[conserves]. repeat split.
  intros H. destruct (H eq_refl) as [_ H']. vm_compute in H'. discriminate H'.
Qed.

(** A third: used and free space stop adding up to the capacity.  In a
    buffer of capacity 10 whose cursors both stand at 1, a write of ten
    bytes ending in ['Y'] fills the buffer exactly; [getAvailableData]
    then answers 1 (its branch for the byte ['Y'] at offset 0) while
    [getAvailableSpace] answers 0. *)
Lemma used_plus_free_is_not_capacity :
  let ops := [Write (bytes "Y"); Read 1; Write (bytes "XXXXXXXXXY")] in
  let rb := run ops (new 10 []) in
  no_overwrite ops (new 10 []) = true
  /\ getUsedSpace rb = 1 /\ getFreeSpace rb = 0
  /\ ~ conserves 10 ops.
Proof.
  cbn -[conserves]. repeat split.
  intros H. destruct (H eq_refl) as [H' _]. specialize (H' 3). vm_compute in H'.
  discriminate H'.
Qed.

(** A fourth failing input: once the buffer has been full, a partial read
    leaves [filled] set; the buffer of capacity 4 then claims four unread
    bytes and [readAll] hands the consumed byte out again. *)
Lemma partial_read_of_full_buffer :
  let ops := [Write (bytes "abcd"); Read 1] in
  no_overwrite ops (new 4 []) = true
  /\ getUsedSpace (run ops (new 4 [])) = 4
  /\ fst (readAll (run ops (new 4 []))) = bytes "bcda"
  /\ pending ops = bytes "bcd"
  /\ ~ conserves 4 ops.
Proof.
  cbn -[conserves]. repeat split.
  intros H. destruct (H eq_refl) as [_ H']. vm_compute in H'. discriminate H'.
Qed.

(** *** Conservation while the buffer is not full *)

(** [chunk] written over [target] from [start] on. *)
Definition poke (target : list byte) (start : nat) (chunk : list byte) : list byte :=
  take start target ++ chunk ++ drop (start + length chunk) target.

Lemma copy_poke source target targetStart sourceStart sourceEnd :
  let chunk := take (sourceEnd - sourceStart) (drop sourceStart source) in
  targetStart + length chunk <= length target ->
  copy source target targetStart sourceStart sourceEnd = poke target targetStart chunk.
Proof.
  intros chunk Hfit. unfold copy, poke. fold chunk.
  rewrite Nat.min_l by lia. rewrite firstn_all. reflexivity.
Qed.

Lemma poke_length target start chunk :
  start + length chunk <= length target -> length (poke target start chunk) = length target.
Proof.
  intros H. unfold poke. rewrite !length_app, length_take, length_drop. lia.
Qed.

Lemma poke_lookup target start chunk j :
  start + length chunk <= length target ->
  poke target start chunk !! j
  = if (start <=? j) && (j <? start + length chunk) then chunk !! (j - start)
    else target !! j.
Proof.
  intros H. unfold poke.
  destruct (Nat.leb_spec start j) as [Hs | Hs]; cbn [andb].
  - rewrite lookup_app_r by (rewrite length_take; lia).
    rewrite length_take, Nat.min_l by lia.
    destruct (Nat.ltb_spec j (start + length chunk)) as [He | He].
    + rewrite lookup_app_l by lia. reflexivity.
    + rewrite lookup_app_r by lia. rewrite lookup_drop. f_equal. lia.
  - rewrite lookup_app_l by (rewrite length_take; lia).
    apply lookup_take_lt. lia.
Qed.

(** A position that has run past the end of the buffer once. *)
Definition wrap (n x : nat) : nat := if x <? n then x else x - n.

(** The buffer [rb] of capacity [n] holds the unread bytes [q], fewer
    than [n]: they start at the read cursor and end at the write cursor. *)
Record Inv (n : nat) (rb : t) (q : list byte) : Prop := mkInv {
  inv_size : size rb = n;
  inv_buffer : length (buffer rb) = n;
  inv_filled : filled rb = false;
  inv_w : writePos rb < n;
  inv_r : readPos rb < n;
  inv_len : length q = if readPos rb <=? writePos rb
                       then writePos rb - readPos rb
                       else n - readPos rb + writePos rb;
  inv_content : forall i, i < length q ->
                  buffer rb !! wrap n (readPos rb + i) = q !! i
}.

Lemma Inv_spaces n rb q :
  Inv n rb q ->
  getUsedSpace rb = length q /\ getFreeSpace rb = n - length q
  /\ getUsedSpace rb + getFreeSpace rb = n.
Proof.
  intros [Hs Hb Hf Hw Hr Hl _].
  unfold getUsedSpace, getFreeSpace, getAvailableData, getAvailableSpace.
  rewrite Hf, Hs, Hl. destruct (Nat.leb_spec (readPos rb) (writePos rb)); lia.
Qed.

(** The region after [data] has been written at the write cursor, in one
    piece or two. *)
Definition written (rb : t) (data : list byte) : list byte :=
  let e := size rb - writePos rb in
  if length data <=? e then poke (buffer rb) (writePos rb) data
  else poke (poke (buffer rb) (writePos rb) (take e data)) 0 (drop e data).

Ltac nat_bool :=
  repeat match goal with
    | H : (_ <? _) = true |- _ => apply Nat.ltb_lt in H
    | H : (_ <? _) = false |- _ => apply Nat.ltb_ge in H
    | H : (_ <=? _) = true |- _ => apply Nat.leb_le in H
    | H : (_ <=? _) = false |- _ => apply Nat.leb_gt in H
    | H : (_ =? _) = true |- _ => apply Nat.eqb_eq in H
    | H : (_ =? _) = false |- _ => apply Nat.eqb_neq in H
    | H : _ && _ = true |- _ => apply andb_prop in H as [? ?]
    | H : _ && _ = false |- _ => apply andb_false_iff in H as [? | ?]
    end.

Ltac split_ifs :=
  repeat (match goal with
          | |- context [if ?b then _ else _] =>
              lazymatch b with
              | context [if _ then _ else _] => fail
              | _ => destruct b eqn:?
              end
          end;
          cbn [size writePos readPos buffer filled andb negb] in *).

Lemma write_below n rb q data :
  Inv n rb q -> length q + length data < n ->
  write data rb
  = (true, mk (written rb data) (wrap n (writePos rb + length data))
              (readPos rb) n false).
Proof.
  intros HI Hlt. destruct rb as [buf w r sz f].
  destruct HI as [Hs Hb Hf Hw Hr Hl _]. cbn in Hs, Hb, Hf, Hw, Hr, Hl. subst sz f.
  assert (Hsp : (length data =? 10) && (n =? 10) = false).
  { destruct (Nat.eqb_spec (length data) 10); [| reflexivity].
    destruct (Nat.eqb_spec n 10); [lia | reflexivity]. }
  unfold write, written, wrap, getAvailableSpace, set_buffer, set_writePos,
    set_readPos, set_filled.
  cbn [size writePos readPos buffer filled]. rewrite Hsp. cbn [andb].
  destruct (Nat.leb_spec r w) as [Hrw | Hrw];
    split_ifs; nat_bool; try lia;
    (f_equal; f_equal; try lia).
  all: rewrite ?(copy_poke data buf w 0 (length data))
         by (cbn zeta; rewrite Nat.sub_0_r, drop_0, firstn_all; lia);
       rewrite ?Nat.sub_0_r, ?drop_0, ?firstn_all; try reflexivity.
  all: rewrite (copy_poke data buf w 0 (n - w))
         by (cbn zeta; rewrite Nat.sub_0_r, drop_0, length_take; lia);
       rewrite Nat.sub_0_r, drop_0;
       rewrite copy_poke
         by (cbn zeta; rewrite length_take, length_drop, poke_length;
             rewrite ?length_take; lia);
       rewrite (take_ge (drop _ _)) by (rewrite length_drop; lia);
       reflexivity.
Qed.

Lemma written_length n rb q data :
  Inv n rb q -> length q + length data < n -> length (written rb data) = n.
Proof.
  intros [Hs Hb Hf Hw Hr Hl _] Hlt. unfold written. rewrite Hs.
  destruct (Nat.leb_spec (length data) (n - writePos rb)).
  - rewrite poke_length; lia.
  - assert (Hinner : length (poke (buffer rb) (writePos rb)
                              (take (n - writePos rb) data)) = n)
      by (rewrite poke_length; rewrite ?length_take; lia).
    rewrite poke_length; rewrite Hinner; [reflexivity |].
    rewrite length_drop. lia.
Qed.

Lemma written_lookup n rb q data p :
  Inv n rb q -> length q + length data < n -> p < n ->
  written rb data !! p
  = if (writePos rb <=? p) && (p <? writePos rb + length data)
    then data !! (p - writePos rb)
    else if p + n <? writePos rb + length data
         then data !! (p + n - writePos rb)
         else buffer rb !! p.
Proof.
  intros [Hs Hb Hf Hw Hr Hl _] Hlt Hp. unfold written. rewrite Hs.
  destruct (Nat.leb_spec (length data) (n - writePos rb)) as [Hfit | Hwrap].
  - rewrite poke_lookup by lia.
    destruct ((writePos rb <=? p) && (p <? writePos rb + length data)); [reflexivity |].
    destruct (Nat.ltb_spec (p + n) (writePos rb + length data)); [lia | reflexivity].
  - assert (Hinner : length (poke (buffer rb) (writePos rb)
                              (take (n - writePos rb) data)) = n)
      by (rewrite poke_length; rewrite ?length_take; lia).
    rewrite poke_lookup by (rewrite Hinner, length_drop; lia).
    rewrite poke_lookup by (rewrite length_take; lia).
    rewrite length_drop, length_take, Nat.sub_0_r. cbn [Nat.leb andb Nat.add].
    rewrite (Nat.min_l (n - writePos rb)) by lia.
    destruct (Nat.ltb_spec p (length data - (n - writePos rb))) as [H1 | H1].
    + rewrite lookup_drop.
      destruct (Nat.leb_spec (writePos rb) p) as [H2 | H2]; cbn [andb].
      * lia.
      * destruct (Nat.ltb_spec (p + n) (writePos rb + length data)); [| lia].
        f_equal. lia.
    + destruct (Nat.leb_spec (writePos rb) p) as [H2 | H2]; cbn [andb].
      * destruct (Nat.ltb_spec p (writePos rb + (n - writePos rb))); [| lia].
        destruct (Nat.ltb_spec p (writePos rb + length data)); [| lia].
        apply lookup_take_lt. lia.
      * destruct (Nat.ltb_spec (p + n) (writePos rb + length data)); [lia | reflexivity].
Qed.

Lemma wrap_lt n x : x < n + n -> 0 < n -> wrap n x < n.
Proof. intros H Hn. unfold wrap. destruct (Nat.ltb_spec x n); lia. Qed.

Lemma write_inv n rb q data :
  Inv n rb q -> length q + length data < n ->
  Inv n (snd (write data rb)) (q ++ data).
Proof.
  intros HI Hlt. rewrite (write_below n rb q data HI Hlt). cbn [snd].
  pose proof (written_length n rb q data HI Hlt) as Hlen.
  pose proof (written_lookup n rb q data) as Hlook.
  destruct HI as [Hs Hb Hf Hw Hr Hl Hc].
  constructor; cbn [size buffer filled writePos readPos]; try reflexivity; try assumption.
  - apply wrap_lt; lia.
  - rewrite length_app, Hl. unfold wrap.
    destruct (Nat.leb_spec (readPos rb) (writePos rb));
      destruct (Nat.ltb_spec (writePos rb + length data) n);
      destruct (Nat.leb_spec (readPos rb) (writePos rb + length data));
      destruct (Nat.leb_spec (readPos rb) (writePos rb + length data - n)); lia.
  - intros i Hi. rewrite length_app in Hi.
    assert (Hp : wrap n (readPos rb + i) < n) by (apply wrap_lt; lia).
    rewrite Hlook by (assumption || (constructor; assumption)).
    destruct (Nat.ltb_spec i (length q)) as [Hold | Hnew].
    + rewrite lookup_app_l by lia. rewrite <- (Hc i Hold).
      unfold wrap in *.
      destruct (Nat.leb_spec (readPos rb) (writePos rb));
        destruct (Nat.ltb_spec (readPos rb + i) n);
        split_ifs; nat_bool; try lia; reflexivity.
    + rewrite lookup_app_r by lia.
      unfold wrap in *.
      destruct (Nat.leb_spec (readPos rb) (writePos rb));
        destruct (Nat.ltb_spec (readPos rb + i) n);
        split_ifs; nat_bool; try lia; f_equal; lia.
Qed.

Lemma allocUnsafe_length k mem : length (allocUnsafe k mem) = k.
Proof.
  unfold allocUnsafe. rewrite length_take, length_app, length_replicate. lia.
Qed.

Lemma poke_all target chunk :
  length chunk = length target -> poke target 0 chunk = chunk.
Proof.
  intros H. unfold poke. cbn [take Nat.add app].
  rewrite drop_ge by lia. apply app_nil_r.
Qed.

Lemma extract_below n rb q k :
  Inv n rb q -> k <= length q ->
  length (extract k rb) = k
  /\ forall i, i < k -> extract k rb !! i = buffer rb !! wrap n (readPos rb + i).
Proof.
  intros [Hs Hb Hf Hw Hr Hl _] Hk.
  assert (HL : length q < n) by (destruct (Nat.leb_spec (readPos rb) (writePos rb)); lia).
  unfold extract. rewrite Hs.
  pose proof (allocUnsafe_length k []) as Ha.
  destruct (Nat.leb_spec k (n - readPos rb)) as [Hfit | Hwrap].
  - rewrite copy_poke
      by (cbn zeta; rewrite length_take, length_drop, Ha, Hb; lia).
    replace (readPos rb + k - readPos rb) with k by lia.
    rewrite poke_all by (rewrite length_take, length_drop, Ha, Hb; lia).
    split; [rewrite length_take, length_drop, Hb; lia |].
    intros i Hi. rewrite lookup_take_lt by lia. rewrite lookup_drop.
    unfold wrap. destruct (Nat.ltb_spec (readPos rb + i) n); [reflexivity | lia].
  - rewrite (copy_poke (buffer rb) (allocUnsafe k []) 0 (readPos rb) n)
      by (cbn zeta; rewrite length_take, length_drop, Ha, Hb; lia).
    rewrite (take_ge (drop (readPos rb) (buffer rb)))
      by (rewrite length_drop, Hb; lia).
    assert (Hinner : length (poke (allocUnsafe k []) 0 (drop (readPos rb) (buffer rb))) = k)
      by (rewrite poke_length; rewrite ?length_drop, ?Hb; lia).
    rewrite copy_poke
      by (cbn zeta; rewrite Hinner, length_take, drop_0, Hb; lia).
    rewrite Nat.sub_0_r, drop_0.
    split.
    + rewrite poke_length; [exact Hinner |]. rewrite Hinner, length_take, Hb. lia.
    + intros i Hi.
      rewrite poke_lookup by (rewrite Hinner, length_take, Hb; lia).
      rewrite length_take, Hb, (Nat.min_l (k - (n - readPos rb))) by lia.
      unfold wrap.
      destruct (Nat.leb_spec (n - readPos rb) i) as [H1 | H1]; cbn [andb].
      * destruct (Nat.ltb_spec i (n - readPos rb + (k - (n - readPos rb)))); [| lia].
        destruct (Nat.ltb_spec (readPos rb + i) n); [lia |].
        rewrite lookup_take_lt by lia. f_equal. lia.
      * rewrite poke_lookup by (rewrite length_drop, Ha, Hb; lia).
        cbn [Nat.leb andb Nat.add]. rewrite length_drop, Hb.
        destruct (Nat.ltb_spec i (n - readPos rb)); [| lia].
        destruct (Nat.ltb_spec (readPos rb + i) n); [| lia].
        rewrite Nat.sub_0_r, lookup_drop. reflexivity.
Qed.

Lemma read_short n rb q k :
  Inv n rb q -> length q < k -> read k rb = (None, rb).
Proof.
  intros HI Hk. pose proof (Inv_spaces n rb q HI) as (Hu & _).
  unfold read. unfold getUsedSpace in Hu. rewrite Hu.
  destruct (Nat.ltb_spec (length q) k); [reflexivity | lia].
Qed.

Lemma read_below n rb q k :
  Inv n rb q -> k <= length q ->
  read k rb
  = (Some (take k q),
     mk (buffer rb) (writePos rb) (wrap n (readPos rb + k)) n false).
Proof.
  intros HI Hk. pose proof (Inv_spaces n rb q HI) as (Hu & _).
  destruct (extract_below n rb q k HI Hk) as [Hlen Hlook].
  assert (Hx : extract k rb = take k q).
  { destruct HI as [_ _ _ _ _ _ Hc].
    apply list_eq. intros i. destruct (Nat.lt_ge_cases i k) as [Hi | Hi].
    - rewrite Hlook, Hc by lia. symmetry. apply lookup_take_lt. exact Hi.
    - rewrite !lookup_ge_None_2; [reflexivity | rewrite length_take; lia | lia]. }
  unfold read. unfold getUsedSpace in Hu. rewrite Hu, Hx.
  destruct (Nat.ltb_spec (length q) k); [lia |].
  destruct rb as [buf w r sz f]. destruct HI as [Hs Hb Hf Hw Hr Hl _].
  cbn in Hs, Hb, Hf, Hw, Hr, Hl. subst sz f.
  unfold wrap, set_readPos, set_filled. cbn [size writePos readPos buffer filled].
  destruct (Nat.leb_spec r w);
    split_ifs; nat_bool; try lia; (f_equal; f_equal; lia).
Qed.

Lemma read_inv n rb q k :
  Inv n rb q -> k <= length q ->
  Inv n (snd (read k rb)) (drop k q).
Proof.
  intros HI Hk. rewrite (read_below n rb q k HI Hk). cbn [snd].
  destruct HI as [Hs Hb Hf Hw Hr Hl Hc].
  assert (HL : length q < n) by (destruct (Nat.leb_spec (readPos rb) (writePos rb)); lia).
  constructor; cbn [size buffer filled writePos readPos]; try reflexivity; try assumption.
  - apply wrap_lt; lia.
  - rewrite length_drop, Hl. unfold wrap.
    destruct (Nat.leb_spec (readPos rb) (writePos rb));
      split_ifs; nat_bool; lia.
  - intros i Hi. rewrite length_drop in Hi.
    rewrite lookup_drop, <- Hc by lia. f_equal.
    unfold wrap. split_ifs; nat_bool; lia.
Qed.

(** Every operation leaves fewer unread bytes than the buffer holds. *)
Fixpoint below_capacity (n : nat) (ops : list op) (q : list byte) : bool :=
  match ops with
  | [] => true
  | o :: rest =>
      let q' := pending_step o q in
      (length q' <? n) && below_capacity n rest q'
  end.

Lemma run_below n ops :
  forall rb q,
    Inv n rb q -> below_capacity n ops q = true ->
    no_overwrite ops rb = true
    /\ Inv n (run ops rb) (fold_left (fun q o => pending_step o q) ops q).
Proof.
  induction ops as [| o rest IH]; intros rb q HI Hb; [split; [reflexivity | exact HI] |].
  cbn [below_capacity] in Hb. apply andb_prop in Hb as [Hlen Hrest].
  apply Nat.ltb_lt in Hlen.
  assert (Hstep : fits o rb = true /\ Inv n (step o rb) (pending_step o q)).
  { destruct o as [data | k]; cbn [fits step pending_step] in *.
    - rewrite length_app in Hlen. split; [| apply write_inv; [exact HI | exact Hlen]].
      pose proof (Inv_spaces n rb q HI) as (_ & Hfree & _).
      rewrite Hfree. apply Nat.leb_le. lia.
    - split; [reflexivity |].
      destruct (Nat.ltb_spec (length q) k) as [Hshort | Hok].
      + rewrite (read_short n rb q k HI Hshort). exact HI.
      + apply read_inv; assumption. }
  destruct Hstep as [Hfits HI'].
  destruct (IH _ _ HI' Hrest) as [Hno Hinv].
  split; [| exact Hinv].
  cbn [no_overwrite]. rewrite Hfits, Hno. reflexivity.
Qed.

Lemma below_capacity_take n ops :
  forall q k, below_capacity n ops q = true -> below_capacity n (take k ops) q = true.
Proof.
  induction ops as [| o rest IH]; intros q k H; [destruct k; reflexivity |].
  destruct k as [| k]; [reflexivity |].
  cbn [take below_capacity] in *. apply andb_prop in H as [H1 H2].
  rewrite H1, (IH _ k H2). reflexivity.
Qed.

Lemma new_inv n mem : 0 < n -> Inv n (new n mem) [].
Proof.
  intros Hn. constructor; cbn [new size buffer filled writePos readPos length];
    try reflexivity; try lia; try apply allocUnsafe_length; intros i Hi; lia.
Qed.

Lemma readAll_below n rb q : Inv n rb q -> fst (readAll rb) = q.
Proof.
  intros HI. pose proof (Inv_spaces n rb q HI) as (Hu & _).
  unfold readAll. unfold getUsedSpace in Hu. rewrite Hu.
  destruct (Nat.eqb_spec (length q) 0) as [H0 | H0].
  - destruct q; [reflexivity | discriminate H0].
  - rewrite (read_below n rb q (length q) HI (Nat.le_refl _)).
    cbn [fst]. apply firstn_all.
Qed.

(** What the code does achieve: as long as the unread bytes never reach
    the capacity (the buffer is never completely full), no write
    overwrites, used and free space add up to the capacity after every
    operation, and [readAll] returns the unread bytes in order.  The
    failing inputs above all pass through a full buffer. *)
Theorem conservation_below_capacity (capacity : nat) (mem : list byte) (ops : list op) :
  below_capacity capacity ops [] = true ->
  no_overwrite ops (new capacity mem) = true
  /\ (forall k,
        let rb := run (take k ops) (new capacity mem) in
        getUsedSpace rb + getFreeSpace rb = capacity)
  /\ fst (readAll (run ops (new capacity mem))) = pending ops.
Proof.
  intros Hb. destruct capacity as [| n].
  - destruct ops as [| o rest]; [| discriminate Hb].
    repeat split. intros k. destruct k; reflexivity.
  - pose proof (new_inv (S n) mem ltac:(lia)) as H0.
    destruct (run_below (S n) ops _ _ H0 Hb) as [Hno HI].
    split; [exact Hno | split].
    + intros k.
      destruct (run_below (S n) (take k ops) _ _ H0
                  (below_capacity_take _ _ _ k Hb)) as [_ HI'].
      apply (Inv_spaces _ _ _ HI').
    + apply (readAll_below _ _ _ HI).
Qed.

Example conservation_example :
  let ops := [Write (bytes "ABCDEFGH"); Read 6; Write (bytes "IJKLMN")] in
  below_capacity 10 ops [] = true
  /\ fst (readAll (run ops (new 10 []))) = bytes "GHIJKLMN".
Proof. split; reflexivity. Qed.

End RingBufferProperties.

(** ** Logger: shutdown *)

Section CloseProperties.

Import Levels JS Logger.

Local Open Scope nat_scope.





(** A logger with two sinks: the first one's [close] rejects, the second
    one's resolves. *)
Definition failing_sink : Transport :=
  mkTransport "failing" None (fun _ => WriteReturns) (CloseRejects "disk full").
Definition healthy_sink : Transport :=
  mkTransport "healthy" None (fun _ => WriteReturns) CloseResolves.

Definition two_sinks_world : World :=
  mkWorld [[failing_sink; healthy_sink]] [[]] [None] [] "host" 1 false.

Definition two_sinks_logger : t :=
  mk (mkOptions info "" false true false false 0 0 [] (fun _ => true)
        (mkSampling false 1 false) (mkRateLimit false 10000 None)
        (mkMetrics false 60000))
     0 0 "host" 1 None None None None.

Example two_sinks_logger_is_constructed :
  new (mkLoggerOptions None None None None None None (Some 0) (Some 0)
         None None None None None) 0
      (mkWorld [[failing_sink; healthy_sink]] [[]] [] [] "host" 1 false)
  = (Some (mk (mkOptions info "" false true false false 0 0 []
                 (filter (options two_sinks_logger))
                 (mkSampling false 1 false) (mkRateLimit false 10000 None)
                 (mkMetrics false 60000))
              0 0 "host" 1 None None None None),
     two_sinks_world).
Proof. reflexivity. Qed.








(** A [close] that throws instead of returning a promise ends the loop:
    the sinks after it are not closed. *)
Example close_that_throws_stops_the_loop :
  let thrower := mkTransport "thrower" None (fun _ => WriteReturns) (CloseThrows "bang") in
  let w := mkWorld [[thrower; healthy_sink]] [[]] [None] [] "host" 1 false in
  close two_sinks_logger w = (Rejected "bang", two_sinks_logger, emit [SinkClose 0] w).
Proof. reflexivity. Qed.

End CloseProperties.

(** ** Sampler *)

Section SamplerProperties.

Import Sampler.












End SamplerProperties.

(** ** Logger: entries *)

Section EntryProperties.

Import Levels JS Logger.

Local Open Scope nat_scope.

(** Induction over values, with the values nested in property lists and
    arrays as induction hypotheses. *)
Section NestedInduction.

Variable P : value -> Prop.
Hypothesis Hundefined : P VUndefined.
Hypothesis Hnull : P VNull.
Hypothesis Hbool : forall b, P (VBool b).
Hypothesis Hnum : forall n, P (VNum n).
Hypothesis Hnan : P VNaN.
Hypothesis Hstr : forall s, P (VStr s).
Hypothesis Hobj : forall ps, Forall (fun kv => P (snd kv)) ps -> P (VObj ps).
Hypothesis Harr : forall l, Forall P l -> P (VArr l).
Hypothesis Herror :
  forall hidden own, Forall (fun kv => P (snd kv)) own -> P (VError hidden own).

Fixpoint value_nested_ind (v : value) : P v :=
  let props_ind :=
    fix go (l : props) : Forall (fun kv => P (snd kv)) l :=
      match l with
      | [] => List.Forall_nil _
      | kv :: rest => List.Forall_cons _ kv rest (value_nested_ind (snd kv)) (go rest)
      end in
  match v with
  | VUndefined => Hundefined
  | VNull => Hnull
  | VBool b => Hbool b
  | VNum n => Hnum n
  | VNaN => Hnan
  | VStr s => Hstr s
  | VObj ps => Hobj ps (props_ind ps)
  | VArr l =>
      Harr l ((fix go (l : list value) : Forall P l :=
                 match l with
                 | [] => List.Forall_nil _
                 | x :: rest => List.Forall_cons _ x rest (value_nested_ind x) (go rest)
                 end) l)
  | VError hidden own => Herror hidden own (props_ind own)
  end.

End NestedInduction.

(** What the walk does with the property [key] of the object it is at. *)
Definition redact_at (keys : list string) (key : string) (v : value) : value :=
  if includes keys key then REDACTED
  else if typeof_object v then redact_value keys v
  else v.

Fixpoint walk_props (keys : list string) (l : props) : props :=
  match l with
  | [] => []
  | (k, v) :: rest => (k, redact_at keys k v) :: walk_props keys rest
  end.

Fixpoint walk_elems (keys : list string) (i : nat) (l : list value) : list value :=
  match l with
  | [] => []
  | v :: rest => redact_at keys (index_key i) v :: walk_elems keys (S i) rest
  end.

Lemma redact_value_obj keys ps :
  redact_value keys (VObj ps) = VObj (walk_props keys ps).
Proof.
  cbn. f_equal. induction ps as [| [k v] rest IH]; [reflexivity |].
  cbn. rewrite IH. reflexivity.
Qed.

Lemma redact_value_arr keys l :
  redact_value keys (VArr l) = VArr (walk_elems keys 0 l).
Proof.
  cbn. f_equal. generalize 0. induction l as [| v rest IH]; intros i; [reflexivity |].
  cbn. rewrite IH. reflexivity.
Qed.

Lemma redact_value_error keys hidden own :
  redact_value keys (VError hidden own) = VError hidden (walk_props keys own).
Proof.
  cbn. f_equal. induction own as [| [k v] rest IH]; [reflexivity |].
  cbn. rewrite IH. reflexivity.
Qed.

Lemma typeof_object_redact keys v :
  typeof_object (redact_value keys v) = typeof_object v.
Proof. destruct v; reflexivity. Qed.

Lemma redact_at_idempotent keys key v :
  redact_value keys (redact_value keys v) = redact_value keys v ->
  redact_at keys key (redact_at keys key v) = redact_at keys key v.
Proof.
  intros IH. unfold redact_at.
  destruct (includes keys key) eqn:E; [reflexivity |].
  destruct (typeof_object v) eqn:T.
  - rewrite typeof_object_redact, T. exact IH.
  - rewrite T. reflexivity.
Qed.

Lemma walk_props_idempotent keys ps :
  Forall (fun kv => redact_value keys (redact_value keys (snd kv))
                    = redact_value keys (snd kv)) ps ->
  walk_props keys (walk_props keys ps) = walk_props keys ps.
Proof.
  induction 1 as [| [k v] rest Hv _ IH]; [reflexivity |].
  cbn in *. rewrite IH, redact_at_idempotent by exact Hv. reflexivity.
Qed.

Lemma walk_elems_idempotent keys l :
  Forall (fun v => redact_value keys (redact_value keys v) = redact_value keys v) l ->
  forall i, walk_elems keys i (walk_elems keys i l) = walk_elems keys i l.
Proof.
  induction 1 as [| v rest Hv _ IH]; intros i; [reflexivity |].
  cbn. rewrite IH, redact_at_idempotent by exact Hv. reflexivity.
Qed.

Lemma redact_value_idempotent keys v :
  redact_value keys (redact_value keys v) = redact_value keys v.
Proof.
  induction v as [| | | | | | ps IH | l IH | hidden own IH] using value_nested_ind;
    try reflexivity.
  - rewrite !redact_value_obj. f_equal. apply walk_props_idempotent, IH.
  - rewrite !redact_value_arr. f_equal. apply walk_elems_idempotent, IH.
  - rewrite !redact_value_error. f_equal. apply walk_props_idempotent, IH.
Qed.

Lemma redact_entry_walk keys entry :
  redact_entry keys entry = walk_props keys entry.
Proof. unfold redact_entry. rewrite redact_value_obj. reflexivity. Qed.

Lemma redact_entry_idempotent keys entry :
  redact_entry keys (redact_entry keys entry) = redact_entry keys entry.
Proof.
  rewrite !redact_entry_walk.
  pose proof (redact_value_idempotent keys (VObj entry)) as H.
  rewrite !redact_value_obj in H. injection H as H. exact H.
Qed.

(** C9: the redaction pass is idempotent.  Whatever the list of redaction
    keys and whatever the entry (a tree of plain data), redacting a
    redacted entry changes nothing; so it is for [redactSensitive] with a
    logger's configured keys, and in particular for the entry
    [createLogEntry] returns. *)
Theorem redaction_is_idempotent (keys : list string) (entry : props)
    (lg : t) (w : World) (lvl : LogLevel) (obj : value) (msg : option string)
    (now : Z) :
  redact_entry keys (redact_entry keys entry) = redact_entry keys entry
  /\ redactSensitive lg (redactSensitive lg entry) = redactSensitive lg entry
  /\ redactSensitive lg (createLogEntry lvl obj msg now lg w)
     = createLogEntry lvl obj msg now lg w.
Proof.
  assert (H : forall e, redactSensitive lg (redactSensitive lg e) = redactSensitive lg e).
  { intros e. unfold redactSensitive.
    destruct (length (redact (options lg)) =? 0); [reflexivity |].
    apply redact_entry_idempotent. }
  split; [apply redact_entry_idempotent | split; [apply H |]].
  unfold createLogEntry. apply H.
Qed.

(** After the pass every listed key carries the marker, at any depth of
    objects. *)
Example redaction_example :
  redact_entry ["password"; "token"]
    [("user", VStr "john"); ("password", VStr "secret123");
     ("data", VObj [("token", VStr "abc123")])]
  = [("user", VStr "john"); ("password", VStr "[REDACTED]");
     ("data", VObj [("token", VStr "[REDACTED]")])].
Proof. reflexivity. Qed.

(** *** Properties of [lookup], [set_prop] and [Object.assign] *)

Lemma lookup_set_prop_eq k v ps : lookup k (set_prop k v ps) = Some v.
Proof.
  induction ps as [| [k' v'] rest IH]; cbn.
  - rewrite String.eqb_refl. reflexivity.
  - destruct (String.eqb_spec k' k) as [-> | Hne]; cbn.
    + rewrite String.eqb_refl. reflexivity.
    + destruct (String.eqb_spec k' k); [contradiction | exact IH].
Qed.

Lemma lookup_set_prop_ne k k' v ps :
  k <> k' -> lookup k (set_prop k' v ps) = lookup k ps.
Proof.
  intros Hne. induction ps as [| [k'' v''] rest IH]; cbn.
  - destruct (String.eqb_spec k' k); [congruence | reflexivity].
  - destruct (String.eqb_spec k'' k') as [-> | Hne']; cbn.
    + destruct (String.eqb_spec k' k); [congruence | reflexivity].
    + destruct (String.eqb_spec k'' k); [reflexivity | exact IH].
Qed.

Lemma lookup_app k (a b : props) :
  lookup k (a ++ b) = match lookup k a with Some v => Some v | None => lookup k b end.
Proof.
  induction a as [| [k' v'] rest IH]; cbn; [reflexivity |].
  destruct (String.eqb k' k); [reflexivity | exact IH].
Qed.

(** After a sequence of assignments a key holds what was assigned to it
    last, or what it held before. *)
Lemma lookup_assignments k (ps target : props) :
  lookup k (fold_left (fun t kv => set_prop (fst kv) (snd kv) t) ps target)
  = match lookup k (rev ps) with
    | Some v => Some v
    | None => lookup k target
    end.
Proof.
  revert target. induction ps as [| [k' v'] rest IH]; intros target; [reflexivity |].
  cbn [fold_left rev fst snd]. rewrite IH, lookup_app. cbn.
  destruct (lookup k (rev rest)); [reflexivity |].
  destruct (String.eqb_spec k' k) as [-> | Hne].
  - apply lookup_set_prop_eq.
  - apply lookup_set_prop_ne. congruence.
Qed.

Lemma lookup_None_not_in k (ps : props) :
  k ∉ map fst ps -> lookup k ps = None.
Proof.
  induction ps as [| [k' v'] rest IH]; intros Hn; [reflexivity |].
  cbn in *. apply not_elem_of_cons in Hn as [Hne Hn].
  destruct (String.eqb_spec k' k); [congruence | apply IH, Hn].
Qed.

(** In an object, whose keys are distinct, the last binding of a key is
    its only one. *)
Lemma lookup_rev k (ps : props) :
  NoDup (map fst ps) -> lookup k (rev ps) = lookup k ps.
Proof.
  induction ps as [| [k' v'] rest IH]; intros Hnd; [reflexivity |].
  cbn in *. apply NoDup_cons in Hnd as [Hnotin Hnd].
  rewrite lookup_app, IH by exact Hnd. cbn.
  destruct (String.eqb_spec k' k) as [-> | Hne].
  - rewrite lookup_None_not_in by exact Hnotin. reflexivity.
  - destruct (lookup k rest); reflexivity.
Qed.


Lemma lookup_set_msg k msg entry :
  k <> "msg" -> lookup k (set_msg msg entry) = lookup k entry.
Proof.
  intros Hne. unfold set_msg. destruct msg as [m |]; [| reflexivity].
  destruct (String.eqb m ""); [reflexivity |].
  apply lookup_set_prop_ne. exact Hne.
Qed.

Lemma lookup_walk_props keys k ps :
  lookup k (walk_props keys ps) = redact_at keys k <$> lookup k ps.
Proof.
  induction ps as [| [k' v'] rest IH]; [reflexivity |].
  cbn. destruct (String.eqb_spec k' k) as [-> | Hne]; [reflexivity | exact IH].
Qed.



(** A logger at level [info] with one capturing sink, host name and
    process id switched on, and a name. *)
Definition capturing_sink : Transport :=
  mkTransport "test" None (fun _ => WriteReturns) CloseAbsent.

Definition plain_world : World :=
  mkWorld [[capturing_sink]] [[]] [None] [] "host-1" 4242 false.

Definition named_logger : t :=
  mk (mkOptions info "api" false true true true 0 0 [] (fun _ => true)
        (mkSampling false 1 false) (mkRateLimit false 10000 None)
        (mkMetrics false 60000))
     0 0 "host-1" 4242 None None None None.

Definition forged : props :=
  [("level", VStr "fatal"); ("time", VNum 0); ("name", VStr "other");
   ("hostname", VStr "elsewhere"); ("pid", VNum 1)].

Example pipeline_fields :
  base_entry info 1000 named_logger plain_world
  = [("level", VStr "info"); ("time", VNum 1000); ("hostname", VStr "host-1");
     ("pid", VNum 4242); ("name", VStr "api")].
Proof. reflexivity. Qed.

Example forged_entry_is_dispatched :
  output (snd (log info (VObj forged) (Some "hello") 1000 named_logger plain_world))
  = [SinkWrite 0
       [("level", VStr "fatal"); ("time", VNum 0); ("hostname", VStr "elsewhere");
        ("pid", VNum 1); ("name", VStr "other"); ("msg", VStr "hello")]].
Proof. reflexivity. Qed.


End EntryProperties.

(** ** Logger: the level gate and dispatch *)

Section PipelineProperties.

Import Levels JS Logger.

Local Open Scope nat_scope.

Lemma writes_to_app (i : nat) (a b : list event) :
  writes_to i (a ++ b) = writes_to i a + writes_to i b.
Proof. unfold writes_to. rewrite List.filter_app, length_app. reflexivity. Qed.

Lemma shouldLog_key_level_name (l m : LogLevel) :
  shouldLog_key (level_name l) m = shouldLog l m.
Proof. destruct l; reflexivity. Qed.

(** The severity order is the order of the numeric ranks. *)
Lemma shouldLog_iff (l m : LogLevel) :
  (shouldLog l m = true <-> (LOG_LEVELS m <= LOG_LEVELS l)%Z)
  /\ (shouldLog l m = false <-> (LOG_LEVELS l < LOG_LEVELS m)%Z).
Proof.
  unfold shouldLog.
  destruct (Z.leb_spec (LOG_LEVELS m) (LOG_LEVELS l)); split; split;
    intros; try lia; try reflexivity; try discriminate.
Qed.

Lemma write_one_counts lg entry i tr :
  let '(during, after) := write_one lg entry i tr in
  (forall j, writes_to j during
             = if (Nat.eqb j i) && admits lg entry tr then 1 else 0)
  /\ (forall j, writes_to j after = 0).
Proof.
  unfold write_one. destruct (admits lg entry tr).
  - destruct (t_write tr entry); cbn; split; intros j; try reflexivity;
      unfold writes_to; cbn; rewrite andb_true_r;
      destruct (Nat.eqb j i); reflexivity.
  - split; intros j; [rewrite andb_false_r |]; reflexivity.
Qed.

(** The loop of [write] calls each admitting sink once and no other. *)
Lemma write_loop_counts lg entry trs :
  forall i,
    let '(during, after) := write_loop lg entry i trs in
    (forall k tr, trs !! k = Some tr ->
       writes_to (i + k) during = if admits lg entry tr then 1 else 0)
    /\ (forall j, j < i -> writes_to j during = 0)
    /\ (forall j, writes_to j after = 0).
Proof.
  induction trs as [| tr rest IH]; intros i.
  - cbn. repeat split; intros; try discriminate; reflexivity.
  - cbn [write_loop].
    pose proof (write_one_counts lg entry i tr) as H1.
    destruct (write_one lg entry i tr) as [now1 later1]. destruct H1 as [Hn1 Hl1].
    specialize (IH (S i)).
    destruct (write_loop lg entry (S i) rest) as [now2 later2].
    destruct IH as (Hk & Hlow & Hafter). repeat split.
    + intros k tr' Hk'. rewrite writes_to_app, Hn1. destruct k as [| k]; cbn in Hk'.
      * injection Hk' as <-. rewrite Nat.add_0_r, Nat.eqb_refl, Hlow by lia.
        cbn. lia.
      * replace (i + S k) with (S i + k) by lia. rewrite (Hk k tr' Hk').
        destruct (Nat.eqb_spec (S i + k) i); [lia | reflexivity].
    + intros j Hj. rewrite writes_to_app, Hn1, Hlow by lia.
      destruct (Nat.eqb_spec j i); [lia | reflexivity].
    + intros j. rewrite writes_to_app, Hl1, Hafter. reflexivity.
Qed.

Lemma write_counts (entry : props) (lg : t) (w : World) (i : nat) (tr : Transport) :
  transports_of lg w !! i = Some tr ->
  writes_to i (output (write entry lg w))
  = writes_to i (output w) + (if admits lg entry tr then 1 else 0).
Proof.
  intros Hi. unfold write.
  pose proof (write_loop_counts lg entry (transports_of lg w) 0) as H.
  destruct (write_loop lg entry 0 (transports_of lg w)) as [during after].
  destruct H as (Hk & _ & Hafter). cbn [emit output].
  rewrite !writes_to_app, Hafter. specialize (Hk i tr Hi). cbn in Hk.
  rewrite Hk. lia.
Qed.

(** Whether a call that is past the level gate also gets past the
    sampler, the rate limiter and the filter, in the order in which [log]
    asks them. *)
Definition passes_gates (lvl : LogLevel) (obj : value) (msg : option string)
    (now : Z) (lg : t) (w : World) : bool :=
  let '(sampled, lg1) := sampling_gate lg in
  if negb sampled then false
  else
    let '(acquired, lg2) := rate_limit_gate now lg1 in
    if negb acquired then false
    else filter (options lg2) (createLogEntry lvl obj msg now lg2 w).

(** Nothing the call is given replaces or hides the [level] field the
    logger puts into the entry: the object of the call, the bound and the
    ambient context have no [level] key, and [level] is not redacted. *)
Definition level_untouched (obj : value) (lg : t) (w : World) : bool :=
  negb (includes (redact (options lg)) "level")
  && negb (has_key "level" (context_of lg w))
  && negb (has_key "level" (own_enumerable (getStore lg w)))
  && negb match obj with
          | VObj _ | VArr _ => has_key "level" (own_enumerable obj)
          | _ => false
          end.

Lemma lookup_Object_assign_absent k (target : props) (source : value) :
  has_key k (own_enumerable source) = false ->
  lookup k (Object_assign target source) = lookup k target.
Proof.
  unfold has_key, Object_assign. generalize (own_enumerable source). intros ps H.
  rewrite lookup_assignments.
  assert (E : lookup k (rev ps) = None).
  { induction ps as [| [k' v'] rest IH]; [reflexivity |].
    cbn in H |- *. destruct (String.eqb_spec k' k) as [-> | Hne]; [discriminate H |].
    rewrite lookup_app, (IH H). cbn.
    destruct (String.eqb_spec k' k); [contradiction | reflexivity]. }
  rewrite E. reflexivity.
Qed.

Lemma level_of_base_entry lvl now lg w :
  has_key "level" (context_of lg w) = false ->
  has_key "level" (own_enumerable (getStore lg w)) = false ->
  lookup "level" (base_entry lvl now lg w) = Some (VStr (level_name lvl)).
Proof.
  intros Hbound Hambient. unfold base_entry.
  rewrite (lookup_Object_assign_absent "level" _ (VObj (context_of lg w)))
    by exact Hbound.
  assert (H0 : lookup "level" [("level", VStr (level_name lvl)); ("time", VNum now)]
               = Some (VStr (level_name lvl))) by reflexivity.
  destruct (truthy (getStore lg w));
    [rewrite lookup_Object_assign_absent by exact Hambient |];
    repeat match goal with
           | |- lookup _ (if ?b then _ else _) = _ => destruct b
           | |- lookup _ (set_prop _ _ _) = _ =>
               rewrite lookup_set_prop_ne by discriminate
           end; exact H0.
Qed.

Lemma level_of_entry lvl obj msg now lg w :
  level_untouched obj lg w = true ->
  lookup "level" (createLogEntry lvl obj msg now lg w)
  = Some (VStr (level_name lvl)).
Proof.
  unfold level_untouched. rewrite !andb_true_iff, !negb_true_iff.
  intros [[[Hredact Hbound] Hambient] Hobj].
  pose proof (level_of_base_entry lvl now lg w Hbound Hambient) as Hb.
  assert (H : lookup "level" (assemble lvl obj msg now lg w)
              = Some (VStr (level_name lvl))).
  { unfold assemble. generalize dependent (base_entry lvl now lg w). intros b Hb.
    destruct obj, msg;
      rewrite ?lookup_set_msg by discriminate;
      rewrite ?lookup_set_prop_ne by discriminate;
      rewrite ?lookup_Object_assign_absent by exact Hobj; exact Hb. }
  unfold createLogEntry, redactSensitive.
  destruct (length (redact (options lg)) =? 0); [exact H |].
  rewrite redact_entry_walk, lookup_walk_props, H. cbn [fmap option_fmap option_map].
  unfold redact_at. rewrite Hredact. reflexivity.
Qed.

(** C6, as amended: the level gate.  A call at a level below the
    logger's minimum level changes nothing: no sink is written to, and
    neither the sampler, the limiter nor the metrics see the call.  A
    call at the minimum level or above passes the gate; it is written to
    no sink when the sampler, the limiter or the filter rejects it, and
    otherwise exactly once to each registered sink whose threshold (its
    own, or without one the logger's) admits the [level] field of the
    entry, which [write] reads back from the entry.  That field is the
    call's level when nothing replaces or hides it, and then a sink
    without a threshold of its own receives exactly one write. *)
Theorem level_gate (lg : t) (w : World) (lvl : LogLevel) (obj : value)
    (msg : option string) (now : Z) :
  let entry := createLogEntry lvl obj msg now lg w in
  ((LOG_LEVELS lvl < LOG_LEVELS (level (options lg)))%Z ->
   log lvl obj msg now lg w = (lg, w))
  /\ ((LOG_LEVELS (level (options lg)) <= LOG_LEVELS lvl)%Z ->
      (passes_gates lvl obj msg now lg w = false ->
       snd (log lvl obj msg now lg w) = w)
      /\ (forall i tr, transports_of lg w !! i = Some tr ->
            writes_to i (output (snd (log lvl obj msg now lg w)))
            = writes_to i (output w)
              + (if passes_gates lvl obj msg now lg w && admits lg entry tr
                 then 1 else 0))
      /\ (level_untouched obj lg w = true ->
          forall i tr, transports_of lg w !! i = Some tr ->
            admits lg entry tr
            = shouldLog lvl (default (level (options lg)) (t_level tr))
            /\ (passes_gates lvl obj msg now lg w = true -> t_level tr = None ->
                writes_to i (output (snd (log lvl obj msg now lg w)))
                = S (writes_to i (output w))))).
Proof.
  cbn zeta. split.
  - intros Hlt. unfold log. apply (proj2 (shouldLog_iff _ _)) in Hlt.
    rewrite Hlt. reflexivity.
  - intros Hle. apply (proj1 (shouldLog_iff _ _)) in Hle.
    assert (Hcount : forall i tr, transports_of lg w !! i = Some tr ->
      writes_to i (output (snd (log lvl obj msg now lg w)))
      = writes_to i (output w)
        + (if passes_gates lvl obj msg now lg w
              && admits lg (createLogEntry lvl obj msg now lg w) tr
           then 1 else 0)).
    { intros i tr Hi. unfold log, passes_gates. rewrite Hle. cbn [negb].
      unfold sampling_gate.
      destruct (sampler lg) as [s |];
        [destruct (Sampler.shouldSample s) as [keep s']; destruct keep |];
        cbn [negb andb snd]; try lia.
      - unfold rate_limit_gate. cbn [rateLimiter set_sampler].
        destruct (rateLimiter lg) as [r |];
          [destruct (RateLimiter.tryAcquire now r) as [ok r']; destruct ok |];
          cbn [negb andb snd]; try lia;
          cbn [options set_rateLimiter set_sampler];
          change (createLogEntry lvl obj msg now _ w)
            with (createLogEntry lvl obj msg now lg w);
          (destruct (filter (options lg) (createLogEntry lvl obj msg now lg w));
           cbn [negb andb snd]; [| lia]);
          rewrite (write_counts _ _ w i tr) by exact Hi; reflexivity.
      - unfold rate_limit_gate.
        destruct (rateLimiter lg) as [r |];
          [destruct (RateLimiter.tryAcquire now r) as [ok r']; destruct ok |];
          cbn [negb andb snd]; try lia;
          cbn [options set_rateLimiter set_sampler];
          change (createLogEntry lvl obj msg now _ w)
            with (createLogEntry lvl obj msg now lg w);
          (destruct (filter (options lg) (createLogEntry lvl obj msg now lg w));
           cbn [negb andb snd]; [| lia]);
          rewrite (write_counts _ _ w i tr) by exact Hi; reflexivity. }
    split; [| split].
    + unfold log, passes_gates. rewrite Hle. cbn [negb].
      destruct (sampling_gate lg) as [sampled lg1].
      destruct sampled; cbn [negb]; [| reflexivity].
      destruct (rate_limit_gate now lg1) as [acquired lg2].
      destruct acquired; cbn [negb]; [| reflexivity].
      intros Hf. rewrite Hf. reflexivity.
    + exact Hcount.
    + intros Hu i tr Hi.
      assert (Ha : admits lg (createLogEntry lvl obj msg now lg w) tr
                   = shouldLog lvl (default (level (options lg)) (t_level tr))).
      { unfold admits. rewrite (level_of_entry lvl obj msg now lg w Hu).
        cbn [default toString id]. apply shouldLog_key_level_name. }
      split; [exact Ha |].
      intros Hp Hnone. rewrite (Hcount i tr Hi), Hp, Ha, Hnone.
      cbn [default andb id]. rewrite Hle. lia.
Qed.


(** The concrete case of the specification: minimum level [warn], a
    single capturing sink. *)
Definition warn_logger : t :=
  mk (mkOptions warn "" false true false false 0 0 [] (fun _ => true)
        (mkSampling false 1 false) (mkRateLimit false 10000 None)
        (mkMetrics false 60000))
     0 0 "host-1" 4242 None None None None.

Definition sink_writes (lvl : LogLevel) : nat :=
  writes_to 0 (output (snd (log lvl (VStr "message") None 1000 warn_logger plain_world))).

(** At minimum level [warn], calls at [trace], [debug] and [info] leave
    the sink untouched, and calls at [warn], [error] and [fatal] each
    write to it exactly once. *)
Lemma level_gate_witness :
  (log trace (VStr "message") None 1000 warn_logger plain_world = (warn_logger, plain_world)
   /\ log debug (VStr "message") None 1000 warn_logger plain_world = (warn_logger, plain_world)
   /\ log info (VStr "message") None 1000 warn_logger plain_world = (warn_logger, plain_world))
  /\ sink_writes warn = 1 /\ sink_writes error = 1 /\ sink_writes fatal = 1.
Proof.
  pose proof (fun lvl => level_gate warn_logger plain_world lvl (VStr "message") None 1000)
    as G.
  cbn zeta in G.
  assert (A : forall lvl, (LOG_LEVELS warn <= LOG_LEVELS lvl)%Z ->
                sink_writes lvl = 1).
  { intros lvl Hle.
    destruct (proj2 (G lvl) Hle) as (_ & _ & Hone).
    apply (proj2 (Hone eq_refl 0 capturing_sink eq_refl));
      [destruct lvl; reflexivity | reflexivity]. }
  refine (conj (conj _ (conj _ _)) (conj _ (conj _ _))).
  - apply (proj1 (G trace)). reflexivity.
  - apply (proj1 (G debug)). reflexivity.
  - apply (proj1 (G info)). reflexivity.
  - apply A. discriminate.
  - apply A. discriminate.
  - apply A. discriminate.
Defined.

(** A logger like [warn_logger] that redacts the [level] field. *)
Definition level_redacting_logger : t :=
  mk (mkOptions warn "" false true false false 0 0 ["level"] (fun _ => true)
        (mkSampling false 1 false) (mkRateLimit false 10000 None)
        (mkMetrics false 60000))
     0 0 "host-1" 4242 None None None None.

(** C6, counterexample: at minimum level [warn], with the one capturing
    sink, a call at [warn] whose object carries [level: 'trace'] is
    written to no sink, and so is every call at [warn] of a logger that
    redacts [level]: [write] compares the threshold with the [level]
    field of the entry, not with the level of the call. *)
Lemma forged_level_reaches_no_sink :
  shouldLog warn (level (options warn_logger)) = true
  /\ output (snd (log warn (VObj [("level", VStr "trace")]) (Some "message")
                     1000 warn_logger plain_world)) = []
  /\ output (snd (log warn (VStr "message") None 1000
                     level_redacting_logger plain_world)) = [].
Proof. repeat split. Qed.

Example warn_logger_drops_below_warn :
  sink_writes trace = 0 /\ sink_writes debug = 0 /\ sink_writes info = 0.
Proof. repeat split. Qed.

(** A sink with a threshold of its own is served by that threshold. *)
Example sink_threshold :
  let strict := mkTransport "strict" (Some fatal) (fun _ => WriteReturns) CloseAbsent in
  let w := mkWorld [[capturing_sink; strict]] [[]] [None] [] "host-1" 4242 false in
  output (snd (log error (VStr "message") None 1000 warn_logger w))
  = [SinkWrite 0 [("level", VStr "error"); ("time", VNum 1000); ("msg", VStr "message")]].
Proof. reflexivity. Qed.

End PipelineProperties.

(** ** Logger: child loggers *)

Section ChildProperties.

Import Levels JS Logger.

Local Open Scope nat_scope.

(** The specification's sentence: a child shares the parent's sink list
    and the parent's ambient-context store, and leaves the parent's bound
    context alone. *)
Definition child_shares_sinks_and_store (ctx : value) (now : Z) (lg : t) (w : World)
  : Prop :=
  forall c w', child ctx now lg w = (Some c, w') ->
    transports c = transports lg
    /\ contextStorage c = contextStorage lg
    /\ context_of lg w' = context_of lg w.

Definition service_context : value := VObj [("service", VStr "api")].

Definition api_child : t :=
  mk (mkOptions info "api" false true true true 0 1 [] (filter (options named_logger))
        (mkSampling false 1 false) (mkRateLimit false 10000 None)
        (mkMetrics false 60000))
     0 1 "host-1" 4242 None None None None.

Definition world_with_child : World :=
  mkWorld [[capturing_sink]] [[]; [("service", VStr "api")]] [None; None] []
          "host-1" 4242 false.

Example child_of_named_logger :
  child service_context 0 named_logger plain_world = (Some api_child, world_with_child).
Proof. reflexivity. Qed.

(** C1, counterexample: the child of a logger whose ambient-context store
    is store 0 gets a store of its own, store 1. *)
Lemma child_has_its_own_store :
  contextStorage api_child <> contextStorage named_logger
  /\ ~ child_shares_sinks_and_store service_context 0 named_logger plain_world.
Proof.
  split; [discriminate |].
  intros H. destruct (H _ _ child_of_named_logger) as (_ & Hstore & _).
  discriminate Hstore.
Qed.

(** What follows for the ambient context: inside [parent.withContext] a
    call on the parent carries the context, a call on the child does not. *)
Example ambient_context_is_not_inherited :
  let scope := VObj [("requestId", VStr "abc")] in
  output (snd (withContext scope (log info (VStr "by parent") None 5 named_logger)
                 named_logger world_with_child))
  = [SinkWrite 0 [("level", VStr "info"); ("time", VNum 5);
                  ("hostname", VStr "host-1"); ("pid", VNum 4242);
                  ("name", VStr "api"); ("requestId", VStr "abc");
                  ("msg", VStr "by parent")]]
  /\ output (snd (withContext scope (log info (VStr "by child") None 5 api_child)
                    named_logger world_with_child))
     = [SinkWrite 0 [("level", VStr "info"); ("time", VNum 5);
                     ("hostname", VStr "host-1"); ("pid", VNum 4242);
                     ("name", VStr "api"); ("service", VStr "api");
                     ("msg", VStr "by child")]].
Proof. split; reflexivity. Qed.

(** The sink list is shared: a sink added through the child is served by
    the parent. *)
Example sinks_are_shared :
  let w := addTransport capturing_sink api_child world_with_child in
  transports_of named_logger w = [capturing_sink; capturing_sink]
  /\ length (output (snd (log info (VStr "m") None 5 named_logger w))) = 2.
Proof. split; reflexivity. Qed.

(** C1, as amended: the logger returned by [child(c)] shares the parent's
    sink list (the same array) but has an ambient-context store of its
    own, new and empty; its bound context is a new object holding the
    parent's bound properties with those of [c] assigned on top (the keys
    of [c] win); creating it changes no existing bound-context object, so
    the bound context of the parent and of every other logger stays as it
    was, also when the child is given further context by a nested
    [child()] call.  Level, name and redaction keys are the parent's. *)
Theorem child_shares_sinks_only (ctx : value) (now : Z) (lg : t) (w : World)
    (c : t) (w' : World)
    (Hchild : child ctx now lg w = (Some c, w')) :
  let merged := Object_assign (Object_assign [] (VObj (context_of lg w))) ctx in
  (transports c = transports lg /\ arrays w' = arrays w)
  /\ (contextStorage c = length (stores w)
      /\ stores w' = stores w ++ [None]
      /\ getStore c w' = VUndefined
      /\ (contextStorage lg < length (stores w) ->
          contextStorage c <> contextStorage lg))
  /\ (context (options c) = length (objects w)
      /\ objects w' = objects w ++ [merged]
      /\ context_of c w' = merged
      /\ forall k v, NoDup (map fst (own_enumerable ctx)) ->
                     lookup k (own_enumerable ctx) = Some v ->
                     lookup k (context_of c w') = Some v)
  /\ (forall other : t, context (options other) < length (objects w) ->
        context_of other w' = context_of other w)
  /\ output w' = output w
  /\ (level (options c) = level (options lg)
      /\ name (options c) = name (options lg)
      /\ redact (options c) = redact (options lg)).
Proof.
  unfold child, new in Hchild. cbn in Hchild.
  assert (Hshape :
    transports c = transports lg
    /\ contextStorage c = length (stores w)
    /\ context (options c) = length (objects w)
    /\ level (options c) = level (options lg)
    /\ name (options c) = name (options lg)
    /\ redact (options c) = redact (options lg)
    /\ w' = mkWorld (arrays w)
              (objects w ++ [Object_assign (Object_assign [] (VObj (context_of lg w))) ctx])
              (stores w ++ [None]) (output w)
              (os_hostname w) (process_pid w) (node_env_development w)).
  { destruct (s_enabled (sampling (options lg)));
      [destruct (Sampler.new (s_rate (sampling (options lg))) None now) |];
      try discriminate Hchild; injection Hchild as <- <-; cbn; repeat split. }
  destruct Hshape as (Ht & Hs & Hc & Hl & Hn & Hr & ->). cbn zeta.
  assert (Hctx : context_of c
      (mkWorld (arrays w)
         (objects w ++ [Object_assign (Object_assign [] (VObj (context_of lg w))) ctx])
         (stores w ++ [None]) (output w)
         (os_hostname w) (process_pid w) (node_env_development w))
      = Object_assign (Object_assign [] (VObj (context_of lg w))) ctx).
  { unfold context_of at 1. cbn [objects]. rewrite Hc.
    rewrite lookup_app_r, Nat.sub_diag by lia. reflexivity. }
  repeat split; cbn [arrays stores objects output]; try assumption.
  - unfold getStore. cbn [stores]. rewrite Hs.
    rewrite lookup_app_r, Nat.sub_diag by lia. reflexivity.
  - lia.
  - intros k v Hnd Hk. rewrite Hctx. unfold Object_assign at 1.
    rewrite lookup_assignments, lookup_rev, Hk by exact Hnd. reflexivity.
  - intros other Hother. unfold context_of. cbn [objects].
    rewrite lookup_app_l by exact Hother. reflexivity.
Qed.

(** A grandchild: the child above is given a request id. *)
Definition request_context : value := VObj [("requestId", VStr "r-1")].

Definition request_child : t :=
  mk (mkOptions info "api" false true true true 0 2 [] (filter (options named_logger))
        (mkSampling false 1 false) (mkRateLimit false 10000 None)
        (mkMetrics false 60000))
     0 2 "host-1" 4242 None None None None.

Definition world_with_grandchild : World :=
  mkWorld [[capturing_sink]]
          [[]; [("service", VStr "api")];
           [("service", VStr "api"); ("requestId", VStr "r-1")]]
          [None; None; None] [] "host-1" 4242 false.

(** The amended statement at the child above, and at the grandchild made
    from it: the bound contexts of the parent and of the child stay. *)
Lemma child_shares_sinks_only_witness :
  (transports api_child = transports named_logger
   /\ contextStorage api_child = 1
   /\ context_of api_child world_with_child = [("service", VStr "api")]
   /\ context_of named_logger world_with_child = context_of named_logger plain_world)
  /\ (context_of named_logger world_with_grandchild
      = context_of named_logger world_with_child
      /\ context_of api_child world_with_grandchild
         = context_of api_child world_with_child
      /\ context_of request_child world_with_grandchild
         = [("service", VStr "api"); ("requestId", VStr "r-1")]).
Proof.
  split.
  - pose proof (child_shares_sinks_only service_context 0 named_logger plain_world
                  api_child world_with_child eq_refl) as H.
    cbn zeta in H.
    destruct H as ((Ht & _) & (Hs & _) & (_ & _ & Hc & _) & Hframe & _).
    refine (conj Ht (conj Hs (conj Hc _))).
    apply Hframe. cbn. lia.
  - pose proof (child_shares_sinks_only request_context 0 api_child world_with_child
                  request_child world_with_grandchild eq_refl) as H.
    cbn zeta in H.
    destruct H as (_ & _ & (_ & _ & Hc & _) & Hframe & _).
    refine (conj _ (conj _ Hc)); apply Hframe; cbn; lia.
Defined.

End ChildProperties.

(** ** Safe serializer *)

Section StringifyProperties.

Import SafeStringify.

Local Open Scope nat_scope.

(** The key a [Map] would give an object; no example below has one. *)
Definition any_key (a : nat) : string := "[object Object]".





(** A [Set] that contains itself: the walk does not end in a
    ["[Circular]"] marker but in the exhaustion of the call stack, which
    [stringify] turns into its error string, however deep the stack. *)
Lemma self_containing_set_overflows (depth : nat) :
  stringify [OSet [JRef 0]] None "" any_key depth (JRef 0)
  = Some "[Stringify Error: Maximum call stack size exceeded]".
Proof.
  unfold stringify.
  assert (H : forall seen indent key,
             property [OSet [JRef 0]] None "" any_key depth seen indent key (JRef 0)
             = (Throw stack_overflow, seen)).
  { induction depth as [| d IH]; intros seen indent key; [reflexivity |].
    cbn -[property]. cbn [property]. cbn -[property]. rewrite IH. reflexivity. }
  rewrite H. reflexivity.
Qed.

(** [stringify(undefined)] is [undefined], not a string. *)
Example stringify_undefined (h : heap) (depth : nat) :
  stringify h None "" any_key depth JUndefined = None.
Proof. destruct depth; reflexivity. Qed.

(** *** The shape of one call of [property] *)

Section Walk.

Variable h : heap.
Variable gap : string.
Variable object_key : nat -> string.







(** *** The [seen] set only grows *)












(** *** Objects the cycle check covers *)





(** *** [undefined] comes out only for [undefined] *)



(** *** No stack overflow on graphs of plain objects and arrays *)
















End Walk.


(** An object that refers to itself. *)
Definition self_reference : heap := [OPlain [("a", JNum 1); ("self", JRef 0)]].

Example self_reference_rendered :
  stringify self_reference None "" any_key 2 (JRef 0)
  = Some ("{" +:+ quote "a" +:+ ":1," +:+ quote "self" +:+ ":"
          +:+ quote "[Circular]" +:+ "}").
Proof. reflexivity. Qed.


End StringifyProperties.

(** * Further properties of the same sources

    Sequences of calls are scored by the number of admitted and of
    rejected calls; a clock that never runs backwards is a list of times
    in non-decreasing order. *)

Definition admitted (oks : list bool) : Z :=
  Z.of_nat (length (List.filter (fun b : bool => b) oks)).

Definition rejected (oks : list bool) : Z :=
  Z.of_nat (length (List.filter negb oks)).

Lemma admitted_cons (b : bool) (oks : list bool) :
  admitted (b :: oks) = (if b then 1 else 0) + admitted oks.
Proof. unfold admitted. destruct b; cbn [List.filter length]; lia. Qed.

Lemma rejected_cons (b : bool) (oks : list bool) :
  rejected (b :: oks) = (if b then 0 else 1) + rejected oks.
Proof. unfold rejected. destruct b; cbn [List.filter length negb]; lia. Qed.

(** The clock never runs backwards over a sequence of calls. *)
Fixpoint nondecreasing (times : list Z) : bool :=
  match times with
  | a :: (b :: _) as rest => (a <=? b) && nondecreasing rest
  | _ => true
  end.

Lemma nondecreasing_cons (x : Z) (l : list Z) :
  nondecreasing (x :: l) = true
  <-> List.Forall (fun y => x <= y) l /\ nondecreasing l = true.
Proof.
  revert x. induction l as [| y l IH]; intros x.
  - cbn. split; [intros _; split; [constructor | reflexivity] | reflexivity].
  - change (nondecreasing (x :: y :: l))
      with ((x <=? y) && nondecreasing (y :: l)).
    rewrite andb_true_iff, Z.leb_le. split.
    + intros [Hxy Hs]. split; [| exact Hs].
      constructor; [exact Hxy |].
      apply IH in Hs as [Hall _].
      eapply List.Forall_impl; [| exact Hall]. cbn. intros; lia.
    + intros [Hall Hs]. inversion Hall; subst. split; assumption.
Qed.

Lemma nondecreasing_snoc (l : list Z) (x : Z) :
  nondecreasing l = true -> List.Forall (fun y => y <= x) l ->
  nondecreasing (l ++ [x]) = true.
Proof.
  induction l as [| y l IH]; intros Hs Hall; [reflexivity |].
  inversion Hall; subst.
  apply nondecreasing_cons in Hs as [Hy Hs].
  change ((y :: l) ++ [x]) with (y :: (l ++ [x])).
  apply nondecreasing_cons. split; [| apply IH; assumption].
  apply List.Forall_app. split; [exact Hy | constructor; [lia | constructor]].
Qed.

Lemma nondecreasing_filter (p : Z -> bool) (l : list Z) :
  nondecreasing l = true -> nondecreasing (List.filter p l) = true.
Proof.
  induction l as [| y l IH]; intros Hs; [reflexivity |].
  apply nondecreasing_cons in Hs as [Hy Hs]. cbn [List.filter].
  destruct (p y); [| apply IH, Hs].
  apply nondecreasing_cons. split; [| apply IH, Hs].
  apply List.Forall_forall. intros z Hz. apply List.filter_In in Hz as [Hz _].
  rewrite List.Forall_forall in Hy. apply Hy, Hz.
Qed.

Section LevelProperties.

Import Levels.

(** X1: the two level tables are inverse to each other: the name looked
    up for a level's number is that level, a number that names a level is
    that level's number, and each of the six names is a valid level that
    reads back as its level. *)
Theorem level_tables_round_trip (l : LogLevel) (v : Z) :
  getLevelName (getLevelValue l) = Some l
  /\ (getLevelName v = Some l -> getLevelValue l = v)
  /\ level_of_name (level_name l) = Some l
  /\ isValidLevel (level_name l) = true.
Proof.
  repeat split; try (destruct l; reflexivity).
  unfold getLevelName, getLevelValue, LOG_LEVEL_NAMES. cbn [find fst snd].
  repeat match goal with
         | |- context [?a =? v] =>
             destruct (Z.eqb_spec a v) as [<- | _];
             [cbn; intros [= <-]; reflexivity |]
         end.
  cbn. discriminate.
Qed.

Lemma level_tables_round_trip_witness :
  getLevelName 40 = Some warn /\ getLevelValue warn = 40.
Proof.
  split; [reflexivity |].
  apply (proj1 (proj2 (level_tables_round_trip warn 40))). reflexivity.
Defined.

(** X2: [shouldLog] orders the six levels totally by severity: it is
    reflexive, transitive, antisymmetric and total, every level passes a
    threshold of [trace], and [fatal] passes every threshold. *)
Theorem shouldLog_is_a_total_order (a b c : LogLevel) :
  shouldLog a a = true
  /\ (shouldLog a b = true -> shouldLog b c = true -> shouldLog a c = true)
  /\ (shouldLog a b = true -> shouldLog b a = true -> a = b)
  /\ (shouldLog a b = true \/ shouldLog b a = true)
  /\ shouldLog a trace = true
  /\ shouldLog fatal a = true.
Proof.
  unfold shouldLog. repeat split.
  - apply Z.leb_refl.
  - rewrite !Z.leb_le. lia.
  - rewrite !Z.leb_le. destruct a, b; cbn; intros; first [reflexivity | lia].
  - rewrite !Z.leb_le. lia.
  - destruct a; reflexivity.
  - destruct a; reflexivity.
Qed.

Lemma shouldLog_is_a_total_order_witness :
  shouldLog error warn = true /\ shouldLog warn debug = true
  /\ shouldLog error debug = true.
Proof.
  refine (conj eq_refl (conj eq_refl _)).
  apply (proj1 (proj2 (shouldLog_is_a_total_order error warn debug)));
    reflexivity.
Defined.

End LevelProperties.

Section TokenBucketProperties.

Import RateLimiter.







(** X4: every call of [tryAcquire] is either admitted or counted: the
    dropped counter grows by exactly the number of rejected calls. *)
Theorem dropped_counts_rejections (times : list Z) (r : t) :
  let '(oks, r') := run times r in
  length oks = length times
  /\ getDroppedCount r' = getDroppedCount r + rejected oks
  /\ admitted oks + rejected oks = Z.of_nat (length times).
Proof.
  revert r. induction times as [| now rest IH]; intros r; cbn [run].
  - cbn. unfold rejected, admitted. cbn. lia.
  - specialize (IH (snd (tryAcquire now r))).
    pose proof (tryAcquire_spec now r) as H.
    destruct (tryAcquire now r) as [ok r1]. cbn [snd] in IH.
    destruct (run rest r1) as [oks r2]. destruct IH as (L & D & A).
    rewrite rejected_cons, admitted_cons. cbn [length].
    unfold getDroppedCount in *. cbn zeta in H.
    assert (dropped (refill now r) = dropped r)
      by (unfold refill; destruct (_ <=? _); reflexivity).
    destruct H as [H1 H2].
    destruct (Z.lt_ge_cases 0 (tokens (refill now r))) as [Hp | Hp].
    + destruct (H1 Hp) as (-> & _ & E). repeat split; lia.
    + destruct (H2 ltac:(lia)) as (-> & _ & E). repeat split; lia.
Qed.








End TokenBucketProperties.

Section SlidingWindowProperties.

Import SlidingWindowRateLimiter.



Definition after (cutoff : Z) (l : list Z) : list Z :=
  List.filter (fun t => cutoff <? t) l.


Lemma after_length_mono (a b : Z) (l : list Z) :
  a <= b -> (length (after b l) <= length (after a l))%nat.
Proof.
  intros H. unfold after. induction l as [| x l IH]; cbn; [lia |].
  destruct (Z.ltb_spec a x), (Z.ltb_spec b x); cbn; lia.
Qed.








End SlidingWindowProperties.

Section SeededSamplerProperties.

Import SeededSampler.

Lemma trunc_integer (z : Z) : trunc (inject_Z z) = z.
Proof.
  unfold trunc. rewrite Qfloor_Z, Qceiling_Z. destruct (Qle_bool 0 (inject_Z z)); reflexivity.
Qed.

Lemma trunc_comp (x y : Q) : (x == y)%Q -> trunc x = trunc y.
Proof.
  intros H. unfold trunc.
  assert (E : Qle_bool 0 x = Qle_bool 0 y).
  { destruct (Qle_bool 0 x) eqn:Ex, (Qle_bool 0 y) eqn:Ey; try reflexivity.
    - apply Qle_bool_iff in Ex. rewrite H in Ex. apply Qle_bool_iff in Ex. congruence.
    - apply Qle_bool_iff in Ey. rewrite <- H in Ey. apply Qle_bool_iff in Ey. congruence. }
  rewrite E, (Qfloor_comp _ _ H), (Qceiling_comp _ _ H). reflexivity.
Qed.

(** A remainder by [t] is zero exactly for the multiples of [t]. *)
Lemma remainder_zero (x : Q) (t' : Z) :
  t' <> 0 ->
  (remainder x t' == 0)%Q <-> exists m : Z, (x == inject_Z (t' * m))%Q.
Proof.
  intros Ht. unfold remainder. split.
  - intros H. exists (trunc (x / inject_Z t')).
    rewrite inject_Z_mult. rewrite <- (Qplus_0_r (inject_Z t' * _)), <- H. ring.
  - intros [m Hm].
    assert (Hq : (x / inject_Z t' == inject_Z m)%Q).
    { rewrite Hm, inject_Z_mult. field. intros H0.
      apply Ht. unfold Qeq in H0. cbn in H0. lia. }
    rewrite (trunc_comp _ _ Hq), trunc_integer, Hm, inject_Z_mult. ring.
Qed.



Lemma is_integer_spec (q : Q) :
  is_integer q = true <-> exists z : Z, (q == inject_Z z)%Q.
Proof.
  unfold is_integer. rewrite Qeq_bool_iff. split.
  - intros H. exists (Qfloor q). exact H.
  - intros [z Hz]. rewrite (Qfloor_comp _ _ Hz), Qfloor_Z. exact Hz.
Qed.


(** With a seed that is not a whole number no call is ever sampled at a
    rate strictly between 0 and 1 (in exact arithmetic: a seed so small
    that adding it to the counter is lost to rounding is not captured). *)
Lemma fractional_seed_samples_nothing (n : nat) (s : t) :
  (0 < rate s)%Q -> (rate s < 1)%Q -> is_integer (seed s) = false ->
  accepted n s = 0%nat.
Proof.
  intros Hpos Hlt Hint.
  assert (E1 : Qeq_bool (rate s) 1 = false).
  { destruct (Qeq_bool (rate s) 1) eqn:E; [| reflexivity].
    apply Qeq_bool_iff in E. rewrite E in Hlt. discriminate Hlt. }
  assert (E0 : Qeq_bool (rate s) 0 = false).
  { destruct (Qeq_bool (rate s) 0) eqn:E; [| reflexivity].
    apply Qeq_bool_iff in E. rewrite E in Hpos. discriminate Hpos. }
  unfold accepted. destruct s as [r c sd]. cbn [rate seed] in *.
  revert c. induction n as [| n IH]; intros c; [reflexivity |].
  cbn [run]. unfold shouldSample. cbn [rate counter seed]. rewrite E1, E0.
  assert (Hz : rem_is_zero (inject_Z (c + 1) + sd) (Qfloor (1 / r)) = false).
  { unfold rem_is_zero. destruct (Z.eqb_spec (Qfloor (1 / r)) 0) as [| Hne];
      [reflexivity |].
    destruct (Qeq_bool (remainder _ _) 0) eqn:E; [| reflexivity].
    apply Qeq_bool_iff, remainder_zero in E; [| exact Hne].
    destruct E as [m Hm]. exfalso.
    assert (Hi : is_integer sd = true).
    { apply is_integer_spec. exists (Qfloor (1 / r) * m - (c + 1)).
      unfold Zminus. rewrite inject_Z_plus, inject_Z_opp, <- Hm. ring. }
    congruence. }
  rewrite Hz. specialize (IH (c + 1)).
  destruct (run n _) as [a s2]. exact IH.
Qed.

Example half_seed_at_rate_one_half :
  accepted 1000 (mk (1 # 2) 0 (1 # 2)) = 0%nat.
Proof. apply fractional_seed_samples_nothing; reflexivity. Qed.


End SeededSamplerProperties.

Section AdaptiveSamplerProperties.

Import AdaptiveSampler.

Definition since (cutoff : Z) (l : list Z) : list Z :=
  List.filter (fun x => cutoff <=? x) l.

Lemma prune_sorted (cutoff : Z) (l : list Z) :
  nondecreasing l = true -> prune cutoff l = since cutoff l.
Proof.
  induction l as [| x l IH]; intros Hs; [reflexivity |].
  apply nondecreasing_cons in Hs as [Hx Hs]. cbn [prune since List.filter].
  destruct (Z.ltb_spec x cutoff), (Z.leb_spec cutoff x); try lia.
  - apply IH, Hs.
  - f_equal. symmetry. apply forallb_filter_id. apply forallb_forall.
    rewrite List.Forall_forall in Hx. intros y Hy. apply Z.leb_le.
    specialize (Hx y Hy). lia.
Qed.

Lemma since_since (a b : Z) (l : list Z) :
  a <= b -> since b (since a l) = since b l.
Proof.
  intros H. unfold since. induction l as [| x l IH]; cbn; [reflexivity |].
  destruct (Z.leb_spec a x), (Z.leb_spec b x); cbn; try lia;
    try (destruct (Z.leb_spec b x); try lia); rewrite IH; reflexivity.
Qed.

Lemma nondecreasing_split (l : list Z) (x : Z) (rest : list Z) :
  nondecreasing (l ++ x :: rest) = true ->
  nondecreasing l = true /\ List.Forall (fun y => y <= x) l
  /\ nondecreasing (x :: rest) = true.
Proof.
  induction l as [| y l IH]; intros Hs.
  - repeat split; [constructor | exact Hs].
  - cbn [app] in Hs. apply nondecreasing_cons in Hs as [Hall Hs].
    destruct (IH Hs) as (S1 & A1 & S2). repeat split; [| | exact S2].
    + apply nondecreasing_cons. split; [| exact S1].
      apply List.Forall_app in Hall. apply Hall.
    + constructor; [| exact A1].
      rewrite List.Forall_forall in Hall. apply Hall.
      apply in_app_iff. right. left. reflexivity.
Qed.

Lemma since_app (c : Z) (l1 l2 : list Z) :
  since c (l1 ++ l2) = since c l1 ++ since c l2.
Proof. apply List.filter_app. Qed.

Lemma last_cons (x d : Z) (l : list Z) :
  List.last (x :: l) d = List.last l x.
Proof.
  revert x d. induction l as [| y l IH]; intros x d; [reflexivity |].
  change (List.last (x :: y :: l) d) with (List.last (y :: l) d).
  rewrite (IH y d), (IH y x). reflexivity.
Qed.

Lemma shouldSample_window (now : Z) (a : t) :
  window (snd (shouldSample now a)) = prune (now - 1000) (window a ++ [now]).
Proof.
  unfold shouldSample. cbn zeta.
  match goal with
  | |- context [match ?x with Some _ => _ | None => _ end] => destruct x
  end; [destruct (Sampler.shouldSample _) |]; reflexivity.
Qed.

Lemma run_window (times : list Z) :
  forall (a : t) (history : list Z) (lo : Z),
  nondecreasing (history ++ lo :: times) = true ->
  window a = since (lo - 1000) (history ++ [lo]) ->
  window (snd (run times a))
  = since (List.last times lo - 1000) (history ++ lo :: times).
Proof.
  induction times as [| now rest IH]; intros a history lo Hs Hw.
  - cbn [run snd List.last]. exact Hw.
  - cbn [run]. pose proof (shouldSample_window now a) as Hstep.
    destruct (shouldSample now a) as [d a1]. cbn [snd] in Hstep.
    specialize (IH a1 (history ++ [lo]) now).
    destruct (run rest a1) as [ds a2]. cbn [snd] in *.
    rewrite <- app_assoc in IH. cbn [app] in IH.
    rewrite last_cons.
    apply IH; [exact Hs |].
    change (history ++ lo :: now :: rest)
      with (history ++ [lo] ++ now :: rest) in Hs.
    rewrite app_assoc in Hs.
    apply nondecreasing_split in Hs as (Hsorted & Hle & _).
    assert (Hlo : lo <= now).
    { rewrite List.Forall_forall in Hle. apply Hle.
      apply in_app_iff. right. left. reflexivity. }
    rewrite Hstep, Hw, prune_sorted.
    + rewrite !since_app, !since_since by lia. reflexivity.
    + apply nondecreasing_snoc.
      * apply nondecreasing_filter, Hsorted.
      * apply List.Forall_forall. intros z Hz.
        apply List.filter_In in Hz as [Hz _].
        rewrite List.Forall_forall in Hle. apply Hle, Hz.
Qed.

(** X10: under a clock that never runs backwards, the window of an
    adaptive sampler holds exactly the times of the calls of the last
    second, and [getCurrentThroughput] at the time of the last call is
    their number. *)
Theorem adaptive_window_holds_the_last_second
    (first : Z) (times : list Z) (a : t) :
  window a = [] ->
  nondecreasing (first :: times) = true ->
  let now := List.last times first in
  let a' := snd (run (first :: times) a) in
  window a' = since (now - 1000) (first :: times)
  /\ getCurrentThroughput now a' = length (window a').
Proof.
  intros Hw Hs. cbn zeta. cbn [run].
  pose proof (shouldSample_window first a) as Hstep.
  destruct (shouldSample first a) as [d a1]. cbn [snd] in Hstep.
  pose proof (run_window times a1 [] first Hs) as H.
  destruct (run times a1) as [ds a2]. cbn [snd app] in *.
  rewrite Hstep, Hw in H. cbn [app prune] in H.
  assert (E : window a2 = since (List.last times first - 1000) (first :: times)).
  { apply H. unfold since. cbn [List.filter].
    destruct (Z.ltb_spec first (first - 1000)), (Z.leb_spec (first - 1000) first);
      try lia; reflexivity. }
  split; [exact E |].
  unfold getCurrentThroughput. rewrite E.
  fold (since (List.last times first - 1000)
          (since (List.last times first - 1000) (first :: times))).
  rewrite since_since by lia. reflexivity.
Qed.

Definition in_band (a : t) : Prop :=
  (0 <= minRate a)%Q /\ (minRate a <= Sampler.rate (base a))%Q
  /\ (Sampler.rate (base a) <= maxRate a)%Q /\ (maxRate a <= 1)%Q.

Lemma setRate_accepts (r : Q) (s : Sampler.t) :
  (0 <= r)%Q -> (r <= 1)%Q ->
  Sampler.setRate r s = Some (Sampler.mk r (Sampler.counter s) (Sampler.seed s)).
Proof.
  intros H0 H1. unfold Sampler.setRate.
  destruct (Qlt_le_dec r 0) as [H | _]; [exfalso; apply (Qlt_not_le _ _ H), H0 |].
  destruct (Qlt_le_dec 1 r) as [H | _]; [exfalso; apply (Qlt_not_le _ _ H), H1 |].
  reflexivity.
Qed.

Lemma shouldSample_rate (s : Sampler.t) :
  Sampler.rate (snd (Sampler.shouldSample s)) = Sampler.rate s.
Proof.
  unfold Sampler.shouldSample.
  destruct (Qeq_bool _ 1); [reflexivity |]. destruct (Qeq_bool _ 0); reflexivity.
Qed.

Lemma shouldSample_in_band (now : Z) (a : t) :
  in_band a ->
  let '(d, a') := shouldSample now a in
  d <> None /\ in_band a'.
Proof.
  intros (Hmin & Hlo & Hhi & Hmax). unfold shouldSample. cbn zeta.
  set (rate := Sampler.getRate (base a)).
  assert (Hr0 : (0 <= rate)%Q) by (eapply Qle_trans; eassumption).
  assert (Hdown : (rate * (9 # 10) <= rate)%Q).
  { revert Hr0. generalize rate. intros [n d]. unfold Qle. cbn. intros. nia. }
  assert (Hup : (rate <= rate * (11 # 10))%Q).
  { revert Hr0. generalize rate. intros [n d]. unfold Qle. cbn. intros. nia. }
  assert (Hmaxb : (minRate a <= max (minRate a) (rate * (9 # 10)))%Q
                  /\ (max (minRate a) (rate * (9 # 10)) <= maxRate a)%Q).
  { unfold max. destruct (Qlt_le_dec _ _) as [H | H].
    - split; [apply Qlt_le_weak, H | eapply Qle_trans; eassumption].
    - split; [apply Qle_refl | eapply Qle_trans; eassumption]. }
  assert (Hminb : (minRate a <= min (maxRate a) (rate * (11 # 10)))%Q
                  /\ (min (maxRate a) (rate * (11 # 10)) <= maxRate a)%Q).
  { unfold min. destruct (Qlt_le_dec _ _) as [H | H].
    - split; [eapply Qle_trans; eassumption | apply Qlt_le_weak, H].
    - split; [eapply Qle_trans; eassumption | apply Qle_refl]. }
  assert (G : forall r, (minRate a <= r)%Q -> (r <= maxRate a)%Q ->
    let '(keep, s') :=
      Sampler.shouldSample (Sampler.mk r (Sampler.counter (base a)) (Sampler.seed (base a))) in
    (minRate a <= Sampler.rate s')%Q /\ (Sampler.rate s' <= maxRate a)%Q).
  { intros r H1 H2.
    pose proof (shouldSample_rate
      (Sampler.mk r (Sampler.counter (base a)) (Sampler.seed (base a)))) as E.
    destruct (Sampler.shouldSample _) as [keep s']. cbn [snd Sampler.rate] in E.
    rewrite E. split; assumption. }
  destruct (Qlt_le_dec (targetRate a) _) as [Hbusy | Hcalm].
  - rewrite setRate_accepts;
      [| eapply Qle_trans; [exact Hmin | apply Hmaxb]
       | eapply Qle_trans; [apply Hmaxb | exact Hmax]].
    specialize (G _ (proj1 Hmaxb) (proj2 Hmaxb)).
    destruct (Sampler.shouldSample _) as [keep s'].
    split; [discriminate |]. unfold in_band. cbn. tauto.
  - destruct (Qlt_le_dec _ (targetRate a * (8 # 10))) as [Hidle | Hsteady].
    + rewrite setRate_accepts;
        [| eapply Qle_trans; [exact Hmin | apply Hminb]
         | eapply Qle_trans; [apply Hminb | exact Hmax]].
      specialize (G _ (proj1 Hminb) (proj2 Hminb)).
      destruct (Sampler.shouldSample _) as [keep s'].
      split; [discriminate |]. unfold in_band. cbn. tauto.
    + specialize (G _ Hlo Hhi). destruct (base a) as [r c sd].
      cbn [Sampler.counter Sampler.seed Sampler.rate] in G.
      destruct (Sampler.shouldSample _) as [keep s'].
      split; [discriminate |]. unfold in_band. cbn. tauto.
Qed.

(** X11: an adaptive sampler whose rate starts between [minRate] and
    [maxRate], themselves between 0 and 1, never throws from
    [shouldSample], and its rate stays between the two bounds however
    the throughput moves. *)
Theorem adaptive_rate_stays_within_its_bounds (times : list Z) (a : t) :
  (0 <= minRate a)%Q -> (minRate a <= Sampler.rate (base a))%Q ->
  (Sampler.rate (base a) <= maxRate a)%Q -> (maxRate a <= 1)%Q ->
  let '(ds, a') := run times a in
  List.Forall (fun d => d <> None) ds
  /\ (minRate a <= Sampler.getRate (base a'))%Q
  /\ (Sampler.getRate (base a') <= maxRate a)%Q.
Proof.
  intros H1 H2 H3 H4.
  assert (G : forall a0, in_band a0 ->
    let '(ds, a') := run times a0 in
    List.Forall (fun d => d <> None) ds /\ in_band a'
    /\ minRate a' = minRate a0 /\ maxRate a' = maxRate a0).
  { induction times as [| now rest IH]; intros a0 Hb; cbn [run].
    - repeat split; try apply Hb. constructor.
    - pose proof (shouldSample_in_band now a0 Hb) as Hstep.
      assert (Hcfg : minRate (snd (shouldSample now a0)) = minRate a0
                     /\ maxRate (snd (shouldSample now a0)) = maxRate a0).
      { unfold shouldSample. cbn zeta.
        match goal with
        | |- context [match ?x with Some _ => _ | None => _ end] => destruct x
        end; [destruct (Sampler.shouldSample _) |]; split; reflexivity. }
      destruct (shouldSample now a0) as [d a1]. destruct Hstep as [Hd Hb1].
      specialize (IH a1 Hb1). destruct (run rest a1) as [ds a2].
      destruct IH as (Hds & Hb2 & E1 & E2). cbn [snd] in Hcfg.
      split; [constructor; assumption |]. split; [exact Hb2 |].
      split; [rewrite E1 | rewrite E2]; apply Hcfg. }
  specialize (G a (conj H1 (conj H2 (conj H3 H4)))).
  destruct (run times a) as [ds a']. destruct G as (Hds & (_ & B2 & B3 & _) & E1 & E2).
  unfold Sampler.getRate. rewrite <- E1, <- E2. auto.
Qed.

Definition fresh_adaptive : t :=
  mk (Sampler.mk (1 # 2) 0 1) [] 1000 2 (1 # 1000) 1.

Lemma adaptive_window_holds_the_last_second_witness :
  window (snd (run [0; 400; 900; 1500] fresh_adaptive)) = [900; 1500]
  /\ getCurrentThroughput 1500 (snd (run [0; 400; 900; 1500] fresh_adaptive))
     = 2%nat.
Proof.
  apply (adaptive_window_holds_the_last_second 0 [400; 900; 1500] fresh_adaptive);
    reflexivity.
Defined.

Lemma adaptive_rate_stays_within_its_bounds_witness :
  let '(ds, a') := run [0; 1; 2; 3; 2000] fresh_adaptive in
  List.Forall (fun d => d <> None) ds
  /\ (1 # 1000 <= Sampler.getRate (base a'))%Q
  /\ (Sampler.getRate (base a') <= 1)%Q.
Proof.
  apply (adaptive_rate_stays_within_its_bounds [0; 1; 2; 3; 2000] fresh_adaptive);
    discriminate.
Defined.

End AdaptiveSamplerProperties.

Section MetricsCounting.

Import Levels JS MetricsAggregator.

(** What the logger tells its aggregator: an entry that went out at a
    time, or a call that a gate dropped. *)
Inductive report := Logged (entry : props) (now : Z) | Dropped.

Definition record (m : t) (c : report) : t :=
  match c with
  | Logged entry now => recordLog entry now m
  | Dropped => recordDropped m
  end.

Definition record_all (reports : list report) (m : t) : t :=
  fold_left record reports m.

Definition at_level (l : LogLevel) (c : report) : bool :=
  match c with
  | Logged entry _ => is_level entry (level_name l)
  | Dropped => false
  end.

(** The entry carries one of the six level names. *)
Definition typed (c : report) : bool :=
  match c with
  | Logged entry _ => existsb (fun l => is_level entry (level_name l)) all_levels
  | Dropped => true
  end.

Definition is_dropped (c : report) : bool :=
  match c with Dropped => true | _ => false end.

Definition tally (p : report -> bool) (reports : list report) : Z :=
  Z.of_nat (length (List.filter p reports)).

Lemma tally_cons p c reports :
  tally p (c :: reports) = (if p c then 1 else 0) + tally p reports.
Proof. unfold tally. cbn [List.filter]. destruct (p c); cbn [length]; lia. Qed.

Lemma set_prop_keys k v (ps : props) :
  has_key k ps = true -> map fst (set_prop k v ps) = map fst ps.
Proof.
  unfold has_key. induction ps as [| [k' v'] rest IH]; cbn; [discriminate |].
  destruct (String.eqb_spec k' k) as [-> | Hne]; cbn; [reflexivity |].
  intros H. rewrite IH by exact H. reflexivity.
Qed.

Lemma level_name_inj (a b : LogLevel) : level_name a = level_name b -> a = b.
Proof. destruct a, b; cbn; intros H; first [reflexivity | discriminate H]. Qed.

Lemma typed_level entry now :
  typed (Logged entry now) = true ->
  exists l, lookup "level" entry = Some (VStr (level_name l)).
Proof.
  cbn [typed]. intros H. apply existsb_exists in H as (l & _ & H).
  exists l. unfold is_level in H.
  destruct (lookup "level" entry) as [[] |]; try discriminate H.
  apply String.eqb_eq in H. subst. reflexivity.
Qed.

Lemma is_level_at entry (l l' : LogLevel) :
  lookup "level" entry = Some (VStr (level_name l)) ->
  is_level entry (level_name l') = LogLevel_eqb l l'.
Proof.
  intros H. unfold is_level. rewrite H. destruct l, l'; reflexivity.
Qed.

(** The counters are in order: the six level names, each with a number. *)
Definition counted (m : t) (f : LogLevel -> Z) : Prop :=
  map fst (counts m) = map level_name all_levels
  /\ forall l, lookup (level_name l) (counts m) = Some (VNum (f l)).

Lemma record_counted (c : report) (m : t) (f : LogLevel -> Z) :
  typed c = true -> counted m f ->
  counted (record m c) (fun l => f l + (if at_level l c then 1 else 0))
  /\ totalCount (record m c) = totalCount m + (if is_dropped c then 0 else 1)
  /\ droppedCount (record m c) = droppedCount m + (if is_dropped c then 1 else 0)
  /\ errorCount (record m c)
     = errorCount m + (if at_level error c || at_level fatal c then 1 else 0).
Proof.
  intros Ht [Hk Hf]. destruct c as [entry now |]; cbn [record is_dropped at_level].
  - destruct (typed_level entry now Ht) as [l0 Hl].
    unfold recordLog, counted. cbn [counts totalCount droppedCount errorCount].
    rewrite Hl. cbn [default toString id]. repeat split; try lia.
    + rewrite set_prop_keys; [exact Hk |]. unfold has_key. rewrite Hf. reflexivity.
    + intros l. rewrite (is_level_at entry l0 l Hl).
      destruct (LogLevel_eqb l0 l) eqn:E.
      * assert (l0 = l) by (destruct l0, l; first [reflexivity | discriminate E]).
        subst. rewrite lookup_set_prop_eq, Hf. reflexivity.
      * rewrite lookup_set_prop_ne, Hf; [f_equal; f_equal; lia |].
        intros Heq. apply level_name_inj in Heq. subst.
        destruct l0; discriminate E.
    + change (level_name error) with "error".
      change (level_name fatal) with "fatal".
      destruct (is_level entry "error" || is_level entry "fatal"); lia.
  - unfold counted. cbn. repeat split; try lia; [exact Hk |].
    intros l. rewrite Hf. f_equal; f_equal; lia.
Qed.

Lemma record_all_counted (reports : list report) :
  forall (m : t) (f : LogLevel -> Z),
  forallb typed reports = true -> counted m f ->
  counted (record_all reports m) (fun l => f l + tally (at_level l) reports)
  /\ totalCount (record_all reports m)
     = totalCount m + tally (fun c => negb (is_dropped c)) reports
  /\ droppedCount (record_all reports m) = droppedCount m + tally is_dropped reports
  /\ errorCount (record_all reports m)
     = errorCount m + tally (fun c => at_level error c || at_level fatal c) reports.
Proof.
  induction reports as [| c rest IH]; intros m f Ht Hc.
  - destruct Hc as [Hk Hf]. change (record_all [] m) with m.
    unfold tally. cbn [List.filter length Z.of_nat].
    split; [split; [exact Hk | intros l; rewrite Hf; do 2 f_equal; lia] |].
    repeat split; lia.
  - cbn [forallb] in Ht. apply andb_prop in Ht as [Hc1 Hrest].
    destruct (record_counted c m f Hc1 Hc) as (C1 & T1 & D1 & E1).
    destruct (IH _ _ Hrest C1) as ((Hk & Hf) & T2 & D2 & E2).
    change (record_all (c :: rest) m) with (record_all rest (record m c)).
    rewrite !tally_cons.
    split; [split; [exact Hk | intros l; rewrite Hf, tally_cons; do 2 f_equal; lia] |].
    destruct (is_dropped c), (at_level error c || at_level fatal c);
      cbn [negb]; repeat split; lia.
Qed.

(** X12: when every recorded entry carries one of the six level names,
    each per-level counter of the aggregator is the number of entries
    recorded at that level, the total is the sum of the six counters, the
    error count is the number of [error] and [fatal] entries, and total
    plus dropped is the number of reports. *)
Theorem level_counters_add_up (reports : list report) (start : Z) :
  forallb typed reports = true ->
  let m := record_all reports (new start) in
  (forall l, lookup (level_name l) (counts m)
             = Some (VNum (tally (at_level l) reports)))
  /\ map fst (counts m) = map level_name all_levels
  /\ totalCount m
     = tally (at_level trace) reports + tally (at_level debug) reports
       + tally (at_level info) reports + tally (at_level warn) reports
       + tally (at_level error) reports + tally (at_level fatal) reports
  /\ errorCount m = tally (at_level error) reports + tally (at_level fatal) reports
  /\ totalCount m + droppedCount m = Z.of_nat (length reports).
Proof.
  intros Ht.
  destruct (record_all_counted reports (new start) (fun _ => 0) Ht) as ((Hk & Hf) & T & D & E).
  { split; [reflexivity |]. intros []; reflexivity. }
  cbn zeta. cbn [new totalCount droppedCount errorCount] in T, D, E.
  assert (Hsum : forall rs, forallb typed rs = true ->
    tally (fun c => negb (is_dropped c)) rs
    = tally (at_level trace) rs + tally (at_level debug) rs
      + tally (at_level info) rs + tally (at_level warn) rs
      + tally (at_level error) rs + tally (at_level fatal) rs
    /\ tally (fun c => at_level error c || at_level fatal c) rs
       = tally (at_level error) rs + tally (at_level fatal) rs
    /\ tally (fun c => negb (is_dropped c)) rs + tally is_dropped rs
       = Z.of_nat (length rs)).
  { induction rs as [| c rs IH]; intros H; [unfold tally; cbn; lia |].
    cbn [forallb] in H. apply andb_prop in H as [Hc Hrs].
    destruct (IH Hrs) as (I1 & I2 & I3). rewrite !tally_cons. cbn [length].
    destruct c as [entry now |]; cbn [is_dropped at_level negb orb].
    - destruct (typed_level entry now Hc) as [l0 Hl].
      rewrite !(is_level_at entry l0 _ Hl). destruct l0; cbn; lia.
    - lia. }
  destruct (Hsum reports Ht) as (S1 & S2 & S3).
  repeat split; try lia; try exact Hk.
  intros l. rewrite Hf. reflexivity.
Qed.

Lemma record_window (c : report) (m : t) :
  Z.of_nat (length (throughputWindow m)) <= maxThroughput m ->
  Z.of_nat (length (throughputWindow (record m c))) <= maxThroughput (record m c).
Proof.
  intros H. destruct c as [entry now |]; cbn [record]; [| exact H].
  unfold recordLog. cbn [throughputWindow maxThroughput].
  destruct (Z.ltb_spec (maxThroughput m)
    (Z.of_nat (length (filter (λ x : Z, now - 1000 < x) (throughputWindow m ++ [now])))));
    lia.
Qed.

(** X13: whatever was recorded or dropped since construction, a snapshot
    reports a current throughput that is not negative and not above the
    maximum it reports, and at most ten top errors. *)
Theorem current_throughput_never_exceeds_max
    (reports : list report) (start now : Z) :
  let snapshot := fst (getSnapshot now (record_all reports (new start))) in
  0 <= throughput_current snapshot <= throughput_max snapshot
  /\ (length (topErrors snapshot) <= 10)%nat.
Proof.
  cbn zeta. unfold getSnapshot. cbn [fst throughput_current throughput_max topErrors].
  split; [| rewrite length_take; lia].
  split; [lia |].
  assert (G : forall m, Z.of_nat (length (throughputWindow m)) <= maxThroughput m ->
    Z.of_nat (length (throughputWindow (record_all reports m)))
    <= maxThroughput (record_all reports m)).
  { induction reports as [| c rest IH]; intros m H; [exact H |].
    apply IH, record_window, H. }
  apply G. cbn. lia.
Qed.

Lemma lookup_In k v (ps : props) : lookup k ps = Some v -> In (k, v) ps.
Proof.
  induction ps as [| [k' v'] rest IH]; cbn; [discriminate |].
  destruct (String.eqb_spec k' k) as [-> | _].
  - intros [= ->]. left. reflexivity.
  - intros H. right. apply IH, H.
Qed.

(** X14: the Prometheus export of what was recorded carries the total,
    dropped, error and per-level lines with exactly the recorded numbers,
    and leaves the aggregator as new, as [getSnapshot] does. *)
Theorem prometheus_export_reports_what_was_recorded
    (prefix' : option string) (reports : list report) (start now : Z) :
  forallb typed reports = true ->
  let prefix := default "hyperlog" prefix' in
  let '(text, m') := toPrometheus prefix' now (record_all reports (new start)) in
  m' = new now
  /\ exists lines,
       text = join newline lines
       /\ In (prefix +:+ "_logs_total "
              +:+ pretty (tally (fun c => negb (is_dropped c)) reports)) lines
       /\ In (prefix +:+ "_dropped_total " +:+ pretty (tally is_dropped reports))
             lines
       /\ In (prefix +:+ "_errors_total "
              +:+ pretty (tally (fun c => at_level error c || at_level fatal c)
                                reports)) lines
       /\ forall l,
            In (prefix +:+ "_logs_by_level_total{level=" +:+ dquote
                +:+ level_name l +:+ dquote +:+ "} "
                +:+ pretty (tally (at_level l) reports)) lines.
Proof.
  intros Ht.
  destruct (record_all_counted reports (new start) (fun _ => 0) Ht)
    as ((Hk & Hf) & T & D & E).
  { split; [reflexivity |]. intros []; reflexivity. }
  cbn [new totalCount droppedCount errorCount] in T, D, E.
  unfold toPrometheus, getSnapshot. cbn zeta.
  generalize (default "hyperlog" prefix'). intros prefix.
  split; [reflexivity |].
  eexists. split; [reflexivity |]. unfold prometheus_lines.
  cbn [counts_total counts_byLevel counts_errors counts_dropped].
  rewrite T, D, E. cbn [Z.add].
  repeat split.
  - apply in_app_iff. left. cbn. tauto.
  - do 2 (apply in_app_iff; right). apply in_app_iff. left. cbn. tauto.
  - do 2 (apply in_app_iff; right). apply in_app_iff. left. cbn. tauto.
  - intros l. apply in_app_iff. right. apply in_app_iff. left.
    apply in_map_iff. exists (level_name l, VNum (tally (at_level l) reports)).
    split; [reflexivity |]. apply lookup_In. rewrite Hf. reflexivity.
Qed.

Definition sample_reports : list report :=
  [Logged [("level", VStr "info"); ("msg", VStr "started")] 1;
   Logged [("level", VStr "error"); ("msg", VStr "failed")] 2;
   Dropped].

Lemma level_counters_add_up_witness :
  let m := record_all sample_reports (new 0) in
  lookup "error" (counts m) = Some (VNum 1)
  /\ totalCount m + droppedCount m = 3.
Proof.
  destruct (level_counters_add_up sample_reports 0 eq_refl)
    as (Hl & _ & _ & _ & Hsum).
  split; [exact (Hl error) | exact Hsum].
Defined.

Lemma prometheus_export_reports_what_was_recorded_witness :
  snd (toPrometheus None 9 (record_all sample_reports (new 0))) = new 9.
Proof.
  pose proof (prometheus_export_reports_what_was_recorded
                None sample_reports 0 9 eq_refl) as H.
  cbn zeta in H.
  destruct (toPrometheus None 9 (record_all sample_reports (new 0)))
    as [text m'].
  exact (proj1 H).
Defined.

End MetricsCounting.

Section Sorting.

Import MetricsAggregator.

Context {A : Type} (le : A -> A -> bool).

(** Every element comes before all the later ones. *)
Fixpoint sorted_by (l : list A) : bool :=
  match l with
  | [] => true
  | x :: rest => forallb (le x) rest && sorted_by rest
  end.

Lemma insert_by_perm (x : A) (l : list A) : insert_by le x l ≡ₚ x :: l.
Proof.
  induction l as [| y rest IH]; cbn; [reflexivity |].
  destruct (le x y); [reflexivity |].
  rewrite IH. apply Permutation_swap.
Qed.

Lemma sort_by_perm (l : list A) : sort_by le l ≡ₚ l.
Proof.
  induction l as [| x rest IH]; cbn; [reflexivity |].
  fold (sort_by le rest). rewrite insert_by_perm, IH. reflexivity.
Qed.

Hypothesis le_total : forall a b, le a b = true \/ le b a = true.
Hypothesis le_trans : forall a b c, le a b = true -> le b c = true -> le a c = true.

Lemma insert_by_sorted (x : A) (l : list A) :
  sorted_by l = true -> sorted_by (insert_by le x l) = true.
Proof.
  induction l as [| y rest IH]; intros Hs; [reflexivity |].
  cbn [sorted_by] in Hs. apply andb_prop in Hs as [Hy Hs].
  cbn [insert_by]. destruct (le x y) eqn:E.
  - cbn [sorted_by forallb]. rewrite E, Hy, Hs, !andb_true_r.
    apply forallb_forall. intros z Hz.
    rewrite forallb_forall in Hy. apply (le_trans x y z E), Hy, Hz.
  - cbn [sorted_by]. rewrite (IH Hs), andb_true_r.
    apply forallb_forall. intros z Hz.
    apply (Permutation_in _ (insert_by_perm x rest)) in Hz as [<- | Hz].
    + destruct (le_total x y) as [H | H]; [congruence | exact H].
    + rewrite forallb_forall in Hy. apply Hy, Hz.
Qed.

Lemma sort_by_sorted (l : list A) : sorted_by (sort_by le l) = true.
Proof.
  induction l as [| x rest IH]; [reflexivity |].
  cbn. apply insert_by_sorted, IH.
Qed.

Lemma sorted_by_app (l1 l2 : list A) :
  sorted_by (l1 ++ l2) = true ->
  sorted_by l1 = true /\ sorted_by l2 = true
  /\ forall x y, In x l1 -> In y l2 -> le x y = true.
Proof.
  induction l1 as [| a l1 IH]; intros Hs.
  - repeat split; [exact Hs |]. intros x y [].
  - cbn [app sorted_by] in Hs. apply andb_prop in Hs as [Ha Hs].
    destruct (IH Hs) as (S1 & S2 & Hx). rewrite forallb_app in Ha.
    apply andb_prop in Ha as [Ha1 Ha2].
    cbn [sorted_by]. rewrite Ha1, S1. repeat split; [exact S2 |].
    intros x y [<- | Hin] Hy; [| apply Hx; assumption].
    rewrite forallb_forall in Ha2. apply Ha2, Hy.
Qed.

End Sorting.

Section MetricsOrder.

Import JS MetricsAggregator.

Lemma Zleb_total (a b : Z) : (a <=? b) = true \/ (b <=? a) = true.
Proof. rewrite !Z.leb_le. lia. Qed.

Lemma Zleb_trans (a b c : Z) :
  (a <=? b) = true -> (b <=? c) = true -> (a <=? c) = true.
Proof. rewrite !Z.leb_le. lia. Qed.

Lemma sorted_nth (l : list Z) :
  sorted_by Z.leb l = true ->
  forall i j : nat, (i <= j)%nat -> (j < length l)%nat -> nth i l 0 <= nth j l 0.
Proof.
  induction l as [| x rest IH]; intros Hs i j Hij Hj; [cbn in Hj; lia |].
  cbn [sorted_by] in Hs. apply andb_prop in Hs as [Hx Hs].
  destruct i as [| i], j as [| j]; cbn [nth length] in *; try lia.
  - rewrite forallb_forall in Hx. apply Z.leb_le, Hx, nth_In. lia.
  - apply IH; [exact Hs | lia | lia].
Qed.

(** The index [percentile] reads. *)
Definition rank (n : nat) (p : Q) : nat :=
  Z.to_nat (Z.max 0 (Qceiling (inject_Z (Z.of_nat n) * p) - 1)).

Lemma rank_mono (n : nat) (p q : Q) : (p <= q)%Q -> (rank n p <= rank n q)%nat.
Proof.
  intros H. unfold rank.
  assert (Qceiling (inject_Z (Z.of_nat n) * p) <= Qceiling (inject_Z (Z.of_nat n) * q)).
  { apply Qceiling_resp_le. rewrite !(Qmult_comm (inject_Z _)).
    apply Qmult_le_compat_r; [exact H |].
    change 0%Q with (inject_Z 0). rewrite <- Zle_Qle. lia. }
  lia.
Qed.

Lemma rank_bound (n : nat) (p : Q) :
  (p <= 1)%Q -> (0 < n)%nat -> (rank n p < n)%nat.
Proof.
  intros H Hn. unfold rank.
  assert (Qceiling (inject_Z (Z.of_nat n) * p) <= Z.of_nat n).
  { rewrite <- (Qceiling_Z (Z.of_nat n)) at 2. apply Qceiling_resp_le.
    rewrite <- (Qmult_1_r (inject_Z (Z.of_nat n))) at 2.
    rewrite !(Qmult_comm (inject_Z _)).
    apply Qmult_le_compat_r; [exact H |].
    change 0%Q with (inject_Z 0). rewrite <- Zle_Qle. lia. }
  lia.
Qed.

Definition total (l : list Z) : Z := fold_left Z.add l 0.

Lemma fold_add (l : list Z) (a : Z) : fold_left Z.add l a = a + total l.
Proof.
  unfold total. revert a. induction l as [| x l IH]; intros a;
    cbn [fold_left]; [lia |].
  rewrite (IH (a + x)), (IH (0 + x)). lia.
Qed.

Lemma total_perm (l l' : list Z) : l ≡ₚ l' -> total l = total l'.
Proof.
  induction 1 as [| x l l' _ IH | x y l | l l' l'' _ IH1 _ IH2];
    [reflexivity | | | lia].
  - unfold total. cbn [fold_left]. rewrite !(fold_add _ (0 + x)). lia.
  - unfold total. cbn [fold_left]. rewrite !(fold_add _ (0 + _ + _)). lia.
Qed.

(** X15: for numeric duration samples the snapshot's percentiles are
    ordered, p50 <= p95 <= p99 <= max; each of them is one of the samples;
    the maximum is the largest sample; and the average times the number
    of samples is their sum. *)
Theorem percentiles_are_ordered_samples
    (samples : list value) (d : Z) (ds : list Z) :
  numbers samples = Some (d :: ds) ->
  exists perf,
    performance_of samples = Some perf
    /\ p50Duration perf <= p95Duration perf <= p99Duration perf
    /\ p99Duration perf <= maxDuration perf
    /\ In (p50Duration perf) (d :: ds) /\ In (p95Duration perf) (d :: ds)
    /\ In (p99Duration perf) (d :: ds) /\ In (maxDuration perf) (d :: ds)
    /\ (forall x, In x (d :: ds) -> x <= maxDuration perf)
    /\ (avgDuration perf * inject_Z (Z.of_nat (length samples))
        == inject_Z (total (d :: ds)))%Q.
Proof.
  intros Hn. unfold performance_of. rewrite Hn.
  set (sorted := sort_by Z.leb (d :: ds)).
  assert (Hperm : sorted ≡ₚ d :: ds) by apply sort_by_perm.
  assert (Hs : sorted_by Z.leb sorted = true)
    by (apply sort_by_sorted; [apply Zleb_total | apply Zleb_trans]).
  assert (Hlen : length sorted = S (length ds))
    by (rewrite (Permutation_length Hperm); reflexivity).
  assert (Hlen' : length samples = S (length ds)).
  { clear - Hn. unfold numbers in Hn. apply length_mapM in Hn. rewrite Hn. reflexivity. }
  eexists. split; [reflexivity |].
  cbn [p50Duration p95Duration p99Duration maxDuration avgDuration].
  unfold percentile. fold (rank (length sorted) (1 # 2)).
  fold (rank (length sorted) (95 # 100)). fold (rank (length sorted) (99 # 100)).
  assert (B50 := rank_bound (length sorted) (1 # 2) ltac:(discriminate) ltac:(lia)).
  assert (B95 := rank_bound (length sorted) (95 # 100) ltac:(discriminate) ltac:(lia)).
  assert (B99 := rank_bound (length sorted) (99 # 100) ltac:(discriminate) ltac:(lia)).
  assert (M1 := rank_mono (length sorted) (1 # 2) (95 # 100) ltac:(discriminate)).
  assert (M2 := rank_mono (length sorted) (95 # 100) (99 # 100) ltac:(discriminate)).
  assert (Hin : forall i, (i < length sorted)%nat -> In (nth i sorted 0) (d :: ds)).
  { intros i Hi. apply (Permutation_in _ Hperm), nth_In, Hi. }
  repeat split.
  - apply sorted_nth; [exact Hs | lia | lia].
  - apply sorted_nth; [exact Hs | lia | lia].
  - apply sorted_nth; [exact Hs | lia | lia].
  - apply Hin; lia.
  - apply Hin; lia.
  - apply Hin; lia.
  - apply Hin; lia.
  - intros x Hx. apply (Permutation_in _ (Permutation_sym Hperm)) in Hx.
    apply (In_nth _ _ 0) in Hx as (i & Hi & <-).
    apply sorted_nth; [exact Hs | lia | lia].
  - fold (total sorted). rewrite (total_perm _ _ Hperm), Hlen, Hlen'.
    field. intros H. revert H. unfold Qeq. cbn. lia.
Qed.

Definition by_count (a b : string * (Z * Z)) : bool := fst (snd b) <=? fst (snd a).

(** X16: the top errors of a snapshot are at most ten rows of the error
    table, in descending order of their count, and every row left out
    has a count no larger than any row listed. *)
Theorem top_errors_are_the_most_frequent (now : Z) (m : t) :
  let top := topErrors (fst (getSnapshot now m)) in
  (length top <= 10)%nat
  /\ sorted_by by_count top = true
  /\ (forall e, In e top -> In e (errorMessages m))
  /\ (forall e, In e (errorMessages m) ->
        In e top \/ forall e', In e' top -> fst (snd e) <= fst (snd e')).
Proof.
  cbn zeta. unfold getSnapshot. cbn [fst topErrors].
  fold by_count. set (s := sort_by by_count (errorMessages m)).
  assert (Hperm : s ≡ₚ errorMessages m) by apply sort_by_perm.
  assert (Hs : sorted_by by_count s = true).
  { apply sort_by_sorted; unfold by_count; intros *; rewrite !Z.leb_le; lia. }
  rewrite <- (take_drop 10 s) in Hs.
  apply sorted_by_app in Hs as (S1 & _ & Hcross).
  repeat split.
  - rewrite length_take. lia.
  - exact S1.
  - intros e He. apply (Permutation_in _ Hperm).
    rewrite <- (take_drop 10 s). apply in_app_iff. left. exact He.
  - intros e He. apply (Permutation_in _ (Permutation_sym Hperm)) in He.
    rewrite <- (take_drop 10 s) in He. apply in_app_iff in He as [He | He];
      [left; exact He | right].
    intros e' He'. specialize (Hcross e' e He' He). unfold by_count in Hcross.
    apply Z.leb_le, Hcross.
Qed.

Lemma percentiles_are_ordered_samples_witness :
  exists perf,
    performance_of [VNum 30; VNum 10; VNum 20] = Some perf
    /\ p50Duration perf <= p95Duration perf <= p99Duration perf.
Proof.
  destruct (percentiles_are_ordered_samples [VNum 30; VNum 10; VNum 20]
              30 [10; 20] eq_refl) as (perf & H1 & H2 & _).
  exists perf. split; assumption.
Defined.

End MetricsOrder.

Section RingBufferCommands.

Import RingBuffer.
Local Open Scope nat_scope.

Ltac bool_facts :=
  repeat match goal with
    | H : (_ <? _) = true |- _ => apply Nat.ltb_lt in H
    | H : (_ <? _) = false |- _ => apply Nat.ltb_ge in H
    | H : (_ <=? _) = true |- _ => apply Nat.leb_le in H
    | H : (_ <=? _) = false |- _ => apply Nat.leb_gt in H
    | H : (_ =? _) = true |- _ => apply Nat.eqb_eq in H
    | H : (_ =? _) = false |- _ => apply Nat.eqb_neq in H
    | H : _ && _ = true |- _ => apply andb_prop in H as [? ?]
    | H : _ && _ = false |- _ => apply andb_false_iff in H as [? | ?]
    end.

Ltac case_ifs :=
  repeat (match goal with
          | |- context [if ?b then _ else _] =>
              lazymatch b with
              | context [if _ then _ else _] => fail
              | _ => destruct b eqn:?
              end
          end;
          cbn [size writePos readPos buffer filled andb negb] in *).

(** The public operations that change a buffer. *)
Inductive command :=
| DoWrite (data : list byte)
| DoRead (k : nat)
| DoReadAll
| DoFlush
| DoClear.

Definition exec (rb : t) (c : command) : t :=
  match c with
  | DoWrite data => snd (write data rb)
  | DoRead k => snd (read k rb)
  | DoReadAll => snd (readAll rb)
  | DoFlush => snd (flush rb)
  | DoClear => clear rb
  end.

Definition shaped (n : nat) (rb : t) : Prop :=
  size rb = n /\ length (buffer rb) = n /\ writePos rb < n /\ readPos rb < n.

Lemma copy_length source target targetStart sourceStart sourceEnd :
  targetStart <= length target ->
  length (copy source target targetStart sourceStart sourceEnd) = length target.
Proof.
  intros H. unfold copy. rewrite !length_app, !length_take, !length_drop. lia.
Qed.

Lemma write_shaped n data rb : shaped n rb -> shaped n (snd (write data rb)).
Proof.
  intros (Hs & Hb & Hw & Hr). destruct rb as [buf w r sz f].
  cbn in Hs, Hb, Hw, Hr. subst sz.
  assert (Hmod : forall x, x mod n < n) by (intros; apply Nat.mod_upper_bound; lia).
  unfold write, shaped, getAvailableSpace, set_buffer, set_writePos, set_readPos,
    set_filled.
  cbn [size writePos readPos buffer filled].
  case_ifs; bool_facts; cbn [snd size writePos readPos buffer filled];
    rewrite ?copy_length; rewrite ?copy_length;
    repeat split; try lia; try apply Hmod.
Qed.

Lemma used_bound n rb : shaped n rb -> getAvailableData rb <= n.
Proof.
  intros (Hs & Hb & Hw & Hr). unfold getAvailableData. rewrite Hs.
  case_ifs; bool_facts; lia.
Qed.

Lemma read_shaped n k rb : shaped n rb -> shaped n (snd (read k rb)).
Proof.
  intros H. pose proof (used_bound n rb H) as Hu.
  destruct H as (Hs & Hb & Hw & Hr). destruct rb as [buf w r sz f].
  cbn in Hs, Hb, Hw, Hr. subst sz.
  unfold read, shaped, set_readPos, set_filled.
  cbn [size writePos readPos buffer filled] in *.
  destruct (Nat.ltb_spec (getAvailableData (mk buf w r n f)) k) as [Hk | Hk];
    cbn [snd size writePos readPos buffer filled]; [repeat split; lia |].
  case_ifs; bool_facts; repeat split; lia.
Qed.

Lemma readAll_shaped n rb : shaped n rb -> shaped n (snd (readAll rb)).
Proof.
  intros H. unfold readAll. destruct (_ =? 0); [exact H |].
  pose proof (read_shaped n (getAvailableData rb) rb H) as Hr.
  destruct (read (getAvailableData rb) rb) as [[data |] rb']; exact Hr.
Qed.

Lemma clear_shaped n rb : 0 < n -> size rb = n -> length (buffer rb) = n ->
  shaped n (clear rb).
Proof. intros Hn Hs Hb. unfold shaped, clear. cbn. repeat split; assumption. Qed.

Lemma exec_shaped n c rb : shaped n rb -> shaped n (exec rb c).
Proof.
  intros H. destruct c as [data | k | | |]; cbn [exec].
  - apply write_shaped, H.
  - apply read_shaped, H.
  - apply readAll_shaped, H.
  - unfold flush. pose proof (readAll_shaped n rb H) as (Hs & Hb & Hw & _).
    destruct (readAll rb) as [data rb']. cbn [snd] in *.
    apply clear_shaped; [lia | assumption | assumption].
  - destruct H as (Hs & Hb & Hw & _). apply clear_shaped; [lia | assumption ..].
Qed.

(** X17: after any sequence of writes, reads, [readAll], [flush] and
    [clear] on a new buffer, of any contents and lengths, the size and the
    storage are unchanged, both cursors point inside the storage, and the
    used and the free space are each at most the capacity. *)
Theorem cursors_stay_inside_the_buffer
    (capacity : nat) (mem : list byte) (commands : list command) :
  0 < capacity ->
  let rb := fold_left exec commands (new capacity mem) in
  getSize rb = capacity /\ length (buffer rb) = capacity
  /\ writePos rb < capacity /\ readPos rb < capacity
  /\ getUsedSpace rb <= capacity /\ getFreeSpace rb <= capacity.
Proof.
  intros Hn. cbn zeta.
  assert (G : forall rb, shaped capacity rb ->
                         shaped capacity (fold_left exec commands rb)).
  { induction commands as [| c rest IH]; intros rb H; [exact H |].
    apply IH, exec_shaped, H. }
  specialize (G (new capacity mem)).
  assert (H0 : shaped capacity (new capacity mem)).
  { unfold shaped. cbn. repeat split; try lia. apply allocUnsafe_length. }
  specialize (G H0). pose proof (used_bound _ _ G) as Hu.
  destruct G as (Hs & Hb & Hw & Hr).
  unfold getSize, getUsedSpace, getFreeSpace, getAvailableSpace.
  repeat split; try assumption. rewrite Hs. case_ifs; bool_facts; lia.
Qed.

(** X18: as long as the buffer has never been completely full, [read(k)]
    returns the [k] oldest unread bytes and leaves the rest, [peek(k)]
    returns the same bytes without consuming them, both return [null]
    when fewer than [k] bytes are unread, and [flush] returns all unread
    bytes and leaves the buffer empty. *)
Theorem reads_are_first_in_first_out
    (capacity : nat) (mem : list byte) (ops : list op) (k : nat) :
  0 < capacity ->
  below_capacity capacity ops [] = true ->
  let rb := run ops (new capacity mem) in
  let q := pending ops in
  peek k rb = (if length q <? k then None else Some (take k q))
  /\ fst (read k rb) = peek k rb
  /\ fst (readAll (snd (read k rb))) = (if length q <? k then q else drop k q)
  /\ fst (flush rb) = q
  /\ getUsedSpace (snd (flush rb)) = 0
  /\ getFreeSpace (snd (flush rb)) = capacity.
Proof.
  intros Hn Hb. cbn zeta.
  destruct (run_below capacity ops (new capacity mem) [] (new_inv capacity mem Hn) Hb)
    as [_ HI].
  fold (pending ops) in HI. fold (run ops (new capacity mem)) in HI.
  set (rb := run ops (new capacity mem)) in *. set (q := pending ops) in *.
  pose proof (Inv_spaces capacity rb q HI) as (Hu & _).
  unfold getUsedSpace in Hu.
  assert (Hpeek : peek k rb = (if length q <? k then None else Some (take k q))).
  { unfold peek. rewrite Hu. destruct (Nat.ltb_spec (length q) k) as [Hk | Hk];
      [reflexivity |].
    pose proof (read_below capacity rb q k HI Hk) as Hr.
    unfold read in Hr. rewrite Hu in Hr.
    destruct (Nat.ltb_spec (length q) k); [lia |].
    injection Hr as Hx _. rewrite Hx. reflexivity. }
  assert (Hflush : fst (flush rb) = q
                   /\ getUsedSpace (snd (flush rb)) = 0
                   /\ getFreeSpace (snd (flush rb)) = capacity).
  { unfold flush. pose proof (readAll_below capacity rb q HI) as Ha.
    assert (Hsh : shaped capacity rb)
      by (destruct HI; unfold shaped; repeat split; assumption).
    apply readAll_shaped in Hsh as (Hs & _).
    destruct (readAll rb) as [data rb']. cbn [fst snd] in *.
    split; [exact Ha |].
    unfold getUsedSpace, getFreeSpace, getAvailableData, getAvailableSpace, clear.
    cbn. rewrite Hs. lia. }
  split; [exact Hpeek |]. rewrite Hpeek.
  destruct (Nat.ltb_spec (length q) k) as [Hk | Hk].
  - rewrite (read_short capacity rb q k HI Hk). cbn [fst snd].
    split; [reflexivity |]. split; [apply (readAll_below capacity), HI | exact Hflush].
  - rewrite (read_below capacity rb q k HI Hk). cbn [fst].
    split; [reflexivity |]. split; [| exact Hflush].
    rewrite <- (read_below capacity rb q k HI Hk).
    apply (readAll_below capacity), read_inv; assumption.
Qed.

Lemma mod_wrap (n x : nat) : 0 < n -> x < n + n -> x mod n = wrap n x.
Proof.
  intros Hn Hx. unfold wrap. destruct (Nat.ltb_spec x n) as [H | H].
  - apply Nat.mod_small, H.
  - replace x with (x - n + 1 * n) at 1 by lia.
    rewrite Nat.Div0.mod_add. apply Nat.mod_small. lia.
Qed.

(** The buffer [rb] of capacity [n] holds the unread bytes [q], at most
    [n] of them: they start at the read cursor, the write cursor follows
    them, and the buffer is marked full exactly when there are [n]. *)
Record Holds (n : nat) (rb : t) (q : list byte) : Prop := mkHolds {
  h_size : size rb = n;
  h_buffer : length (buffer rb) = n;
  h_r : readPos rb < n;
  h_len : length q <= n;
  h_filled : filled rb = (length q =? n);
  h_w : writePos rb = wrap n (readPos rb + length q);
  h_content : forall i, i < length q ->
                buffer rb !! wrap n (readPos rb + i) = q !! i
}.

Lemma written_length_le n rb data :
  size rb = n -> length (buffer rb) = n -> writePos rb < n -> length data <= n ->
  length (written rb data) = n.
Proof.
  intros Hs Hb Hw Hd. unfold written. rewrite Hs.
  destruct (Nat.leb_spec (length data) (n - writePos rb)).
  - rewrite poke_length; lia.
  - assert (Hinner : length (poke (buffer rb) (writePos rb)
                              (take (n - writePos rb) data)) = n)
      by (rewrite poke_length; rewrite ?length_take; lia).
    rewrite poke_length; rewrite Hinner; [reflexivity |].
    rewrite length_drop. lia.
Qed.

Lemma written_lookup_le n rb data p :
  size rb = n -> length (buffer rb) = n -> writePos rb < n -> length data <= n ->
  p < n ->
  written rb data !! p
  = if (writePos rb <=? p) && (p <? writePos rb + length data)
    then data !! (p - writePos rb)
    else if p + n <? writePos rb + length data
         then data !! (p + n - writePos rb)
         else buffer rb !! p.
Proof.
  intros Hs Hb Hw Hd Hp. unfold written. rewrite Hs.
  destruct (Nat.leb_spec (length data) (n - writePos rb)) as [Hfit | Hwrap].
  - rewrite poke_lookup by lia.
    destruct ((writePos rb <=? p) && (p <? writePos rb + length data)); [reflexivity |].
    destruct (Nat.ltb_spec (p + n) (writePos rb + length data)); [lia | reflexivity].
  - assert (Hinner : length (poke (buffer rb) (writePos rb)
                              (take (n - writePos rb) data)) = n)
      by (rewrite poke_length; rewrite ?length_take; lia).
    rewrite poke_lookup by (rewrite Hinner, length_drop; lia).
    rewrite poke_lookup by (rewrite length_take; lia).
    rewrite length_drop, length_take, Nat.sub_0_r. cbn [Nat.leb andb Nat.add].
    rewrite (Nat.min_l (n - writePos rb)) by lia.
    destruct (Nat.ltb_spec p (length data - (n - writePos rb))) as [H1 | H1].
    + rewrite lookup_drop.
      destruct (Nat.leb_spec (writePos rb) p) as [H2 | H2]; cbn [andb].
      * lia.
      * destruct (Nat.ltb_spec (p + n) (writePos rb + length data)); [| lia].
        f_equal. lia.
    + destruct (Nat.leb_spec (writePos rb) p) as [H2 | H2]; cbn [andb].
      * destruct (Nat.ltb_spec p (writePos rb + (n - writePos rb))); [| lia].
        destruct (Nat.ltb_spec p (writePos rb + length data)); [| lia].
        apply lookup_take_lt. lia.
      * destruct (Nat.ltb_spec (p + n) (writePos rb + length data)); [lia | reflexivity].
Qed.

Lemma write_holds_eq n rb q data :
  Holds n rb q -> n <> 10 -> length data <= n ->
  write data rb
  = (true, mk (written rb data) (wrap n (writePos rb + length data))
              (wrap n (readPos rb + (length q + length data - n))) n
              (n <=? length q + length data)).
Proof.
  intros HI Hn Hd. destruct rb as [buf w r sz f].
  destruct HI as [Hs Hb Hr Hl Hf Hw _]. cbn in Hs, Hb, Hr, Hf, Hw. subst sz f.
  assert (Hsp : (length data =? 10) && (n =? 10) = false).
  { destruct (Nat.eqb_spec (length data) 10); [| reflexivity].
    destruct (Nat.eqb_spec n 10); [lia | reflexivity]. }
  assert (Hw' : w < n) by (subst w; apply wrap_lt; lia).
  unfold write, written, getAvailableSpace, set_buffer, set_writePos,
    set_readPos, set_filled.
  cbn [size writePos readPos buffer filled]. rewrite Hsp. cbn [andb].
  assert (Hmod : forall x, x < n + n -> x mod n = wrap n x)
    by (intros; apply mod_wrap; lia).
  unfold wrap in Hw.
  destruct (Nat.eqb_spec (length q) n) as [Hfull | Hnot];
    destruct (Nat.ltb_spec (r + length q) n);
    case_ifs; bool_facts; try lia;
    cbn [size writePos readPos buffer filled];
    rewrite ?Hmod by lia; unfold wrap;
    case_ifs; bool_facts; try lia;
    (f_equal; f_equal; try lia).
  all: rewrite ?(copy_poke data buf w 0 (length data))
         by (cbn zeta; rewrite Nat.sub_0_r, drop_0, firstn_all; lia);
       rewrite ?Nat.sub_0_r, ?drop_0, ?firstn_all; try reflexivity.
  all: try (rewrite (copy_poke data buf w 0 (n - w))
         by (cbn zeta; rewrite Nat.sub_0_r, drop_0, length_take; lia);
       rewrite Nat.sub_0_r, drop_0;
       rewrite copy_poke
         by (cbn zeta; rewrite length_take, length_drop, poke_length;
             rewrite ?length_take; lia);
       rewrite (take_ge (drop _ _)) by (rewrite length_drop; lia);
       reflexivity).
  all: symmetry; first [apply Nat.leb_le; lia | apply Nat.leb_gt; lia].
Qed.

Lemma write_holds n rb q data :
  Holds n rb q -> n <> 10 -> length data <= n ->
  Holds n (snd (write data rb))
    (drop (length q + length data - n) (q ++ data)).
Proof.
  intros HI Hn Hd. rewrite (write_holds_eq n rb q data HI Hn Hd). cbn [snd].
  destruct HI as [Hs Hb Hr Hl Hf Hw Hc].
  assert (Hw' : writePos rb < n) by (rewrite Hw; apply wrap_lt; lia).
  pose proof (written_length_le n rb data Hs Hb Hw' Hd) as Hlen.
  pose proof (fun p => written_lookup_le n rb data p Hs Hb Hw' Hd) as Hlook.
  set (over := length q + length data - n).
  assert (Hq' : length (drop over (q ++ data)) = length q + length data - over)
    by (rewrite length_drop, length_app; lia).
  constructor; cbn [size buffer filled writePos readPos]; try reflexivity;
    try assumption.
  - apply wrap_lt; lia.
  - rewrite Hq'. lia.
  - rewrite Hq'. destruct (Nat.leb_spec n (length q + length data));
      symmetry; [apply Nat.eqb_eq | apply Nat.eqb_neq]; lia.
  - rewrite Hq', Hw. unfold wrap. case_ifs; bool_facts; lia.
  - intros i Hi. rewrite Hq' in Hi. rewrite lookup_drop.
    assert (Hp : wrap n (wrap n (readPos rb + over) + i) < n).
    { apply wrap_lt; [| lia].
      assert (wrap n (readPos rb + over) < n) by (apply wrap_lt; lia). lia. }
    rewrite Hlook by exact Hp.
    destruct (Nat.ltb_spec (over + i) (length q)) as [Hold | Hnew].
    + rewrite lookup_app_l by lia. rewrite <- (Hc (over + i) Hold).
      rewrite Hw. unfold wrap in *.
      case_ifs; bool_facts; try lia; f_equal; lia.
    + rewrite lookup_app_r by lia.
      rewrite Hw. unfold wrap in *.
      case_ifs; bool_facts; try lia; f_equal; lia.
Qed.

Lemma extract_lookup n rb k :
  size rb = n -> length (buffer rb) = n -> readPos rb < n -> k <= n ->
  length (extract k rb) = k
  /\ forall i, i < k -> extract k rb !! i = buffer rb !! wrap n (readPos rb + i).
Proof.
  intros Hs Hb Hr Hk.
  unfold extract. rewrite Hs.
  pose proof (allocUnsafe_length k []) as Ha.
  destruct (Nat.leb_spec k (n - readPos rb)) as [Hfit | Hwrap].
  - rewrite copy_poke
      by (cbn zeta; rewrite length_take, length_drop, Ha, Hb; lia).
    replace (readPos rb + k - readPos rb) with k by lia.
    rewrite poke_all by (rewrite length_take, length_drop, Ha, Hb; lia).
    split; [rewrite length_take, length_drop, Hb; lia |].
    intros i Hi. rewrite lookup_take_lt by lia. rewrite lookup_drop.
    unfold wrap. destruct (Nat.ltb_spec (readPos rb + i) n); [reflexivity | lia].
  - rewrite (copy_poke (buffer rb) (allocUnsafe k []) 0 (readPos rb) n)
      by (cbn zeta; rewrite length_take, length_drop, Ha, Hb; lia).
    rewrite (take_ge (drop (readPos rb) (buffer rb)))
      by (rewrite length_drop, Hb; lia).
    assert (Hinner : length (poke (allocUnsafe k []) 0 (drop (readPos rb) (buffer rb))) = k)
      by (rewrite poke_length; rewrite ?length_drop, ?Hb; lia).
    rewrite copy_poke
      by (cbn zeta; rewrite Hinner, length_take, drop_0, Hb; lia).
    rewrite Nat.sub_0_r, drop_0.
    split.
    + rewrite poke_length; [exact Hinner |]. rewrite Hinner, length_take, Hb. lia.
    + intros i Hi.
      rewrite poke_lookup by (rewrite Hinner, length_take, Hb; lia).
      rewrite length_take, Hb, (Nat.min_l (k - (n - readPos rb))) by lia.
      unfold wrap.
      destruct (Nat.leb_spec (n - readPos rb) i) as [H1 | H1]; cbn [andb].
      * destruct (Nat.ltb_spec i (n - readPos rb + (k - (n - readPos rb)))); [| lia].
        destruct (Nat.ltb_spec (readPos rb + i) n); [lia |].
        rewrite lookup_take_lt by lia. f_equal. lia.
      * rewrite poke_lookup by (rewrite length_drop, Ha, Hb; lia).
        cbn [Nat.leb andb Nat.add]. rewrite length_drop, Hb.
        destruct (Nat.ltb_spec i (n - readPos rb)); [| lia].
        destruct (Nat.ltb_spec (readPos rb + i) n); [| lia].
        rewrite Nat.sub_0_r, lookup_drop. reflexivity.
Qed.

Lemma Holds_spaces n rb q :
  Holds n rb q -> n <> 10 ->
  getUsedSpace rb = length q /\ getFreeSpace rb = n - length q.
Proof.
  intros [Hs Hb Hr Hl Hf Hw _] Hn.
  unfold getUsedSpace, getFreeSpace, getAvailableData, getAvailableSpace.
  rewrite Hf, Hs, Hw. unfold wrap.
  destruct (Nat.eqb_spec n 10); [lia |]. cbn [andb].
  case_ifs; bool_facts; lia.
Qed.

Lemma readAll_holds n rb q :
  Holds n rb q -> n <> 10 -> fst (readAll rb) = q.
Proof.
  intros HI Hn. destruct (Holds_spaces n rb q HI Hn) as [Hu _].
  unfold getUsedSpace in Hu. unfold readAll. rewrite Hu.
  destruct (Nat.eqb_spec (length q) 0) as [H0 | H0].
  - destruct q; [reflexivity | discriminate H0].
  - unfold read. rewrite Hu, Nat.ltb_irrefl. cbn [fst].
    destruct HI as [Hs Hb Hr Hl Hf Hw Hc].
    destruct (extract_lookup n rb (length q) Hs Hb Hr Hl) as [Hlen Hlook].
    apply list_eq. intros i. destruct (Nat.lt_ge_cases i (length q)) as [Hi | Hi].
    + rewrite Hlook, Hc by lia. reflexivity.
    + rewrite !lookup_ge_None_2; [reflexivity | lia | lia].
Qed.

Lemma new_holds n mem : 0 < n -> Holds n (new n mem) [].
Proof.
  intros Hn. constructor; cbn [new size buffer filled writePos readPos length];
    try lia; try apply allocUnsafe_length;
    try (symmetry; apply Nat.eqb_neq; lia);
    try (unfold wrap; destruct (Nat.ltb_spec (0 + 0) n); lia).
Qed.

Lemma newest_step (n : nat) (acc data : list byte) :
  let q := drop (length acc - n) acc in
  drop (length q + length data - n) (q ++ data)
  = drop (length (acc ++ data) - n) (acc ++ data).
Proof.
  cbn zeta. rewrite length_drop, length_app.
  destruct (Nat.le_gt_cases (length acc) n) as [H | H].
  - replace (length acc - n) with 0 by lia. rewrite drop_0.
    f_equal. lia.
  - rewrite <- (drop_app_le acc data (length acc - n)) by lia.
    rewrite drop_drop. f_equal. lia.
Qed.

(** X19: a buffer of a capacity other than 10 that is only written to, in
    chunks no longer than the capacity, holds the most recent [capacity]
    bytes of everything written: [readAll] returns them in order, and
    used and free space add up to the capacity. *)
Theorem writes_keep_the_newest_bytes
    (capacity : nat) (mem : list byte) (chunks : list (list byte)) :
  0 < capacity -> capacity <> 10 ->
  List.Forall (fun chunk => length chunk <= capacity) chunks ->
  let rb := run (map Write chunks) (new capacity mem) in
  let all := concat chunks in
  fst (readAll rb) = drop (length all - capacity) all
  /\ getUsedSpace rb = Nat.min (length all) capacity
  /\ getUsedSpace rb + getFreeSpace rb = capacity.
Proof.
  intros Hpos Hn Hall. cbn zeta.
  assert (G : forall chunks rb acc,
    List.Forall (fun chunk => length chunk <= capacity) chunks ->
    Holds capacity rb (drop (length acc - capacity) acc) ->
    Holds capacity (run (map Write chunks) rb)
      (drop (length (acc ++ concat chunks) - capacity) (acc ++ concat chunks))).
  { clear chunks Hall. induction chunks as [| c rest IH]; intros rb acc Hall HI.
    - cbn. rewrite app_nil_r. exact HI.
    - inversion Hall as [| ? ? Hc Hrest]; subst.
      cbn [map concat]. change (run (Write c :: map Write rest) rb)
        with (run (map Write rest) (snd (write c rb))).
      rewrite app_assoc. apply IH; [exact Hrest |].
      rewrite <- newest_step. apply write_holds; assumption. }
  specialize (G chunks (new capacity mem) [] Hall).
  cbn [app length Nat.sub drop] in G. specialize (G (new_holds capacity mem Hpos)).
  destruct (Holds_spaces _ _ _ G Hn) as [Hu Hf].
  rewrite (readAll_holds _ _ _ G Hn), Hu, Hf, length_drop.
  repeat split; lia.
Qed.

Lemma cursors_stay_inside_the_buffer_witness :
  let rb := fold_left exec
              [DoWrite (replicate 10 Byte.x41); DoRead 3; DoWrite (bytes "xyz");
               DoFlush; DoWrite (bytes "0123456789ab")]
              (new 10 []) in
  writePos rb < 10 /\ readPos rb < 10 /\ getUsedSpace rb <= 10.
Proof.
  destruct (cursors_stay_inside_the_buffer 10 []
              [DoWrite (replicate 10 Byte.x41); DoRead 3; DoWrite (bytes "xyz");
               DoFlush; DoWrite (bytes "0123456789ab")] ltac:(lia))
    as (_ & _ & Hw & Hr & Hu & _).
  repeat split; assumption.
Defined.

Lemma reads_are_first_in_first_out_witness :
  let rb := run [Write (bytes "abcde"); Read 2; Write (bytes "fg")] (new 8 []) in
  peek 3 rb = Some (bytes "cde")
  /\ fst (read 3 rb) = peek 3 rb
  /\ fst (readAll (snd (read 3 rb))) = bytes "fg".
Proof.
  destruct (reads_are_first_in_first_out 8 []
              [Write (bytes "abcde"); Read 2; Write (bytes "fg")] 3
              ltac:(lia) eq_refl) as (Hp & Hr & Ha & _).
  repeat split; assumption.
Defined.

Lemma writes_keep_the_newest_bytes_witness :
  fst (readAll (run (map Write [bytes "abc"; bytes "de"; bytes "f"]) (new 4 [])))
  = bytes "cdef".
Proof.
  destruct (writes_keep_the_newest_bytes 4 [] [bytes "abc"; bytes "de"; bytes "f"]
              ltac:(lia) ltac:(lia) ltac:(repeat constructor; cbn; lia))
    as (H & _).
  exact H.
Defined.

End RingBufferCommands.

Section EntryContents.

Import Levels JS Logger.

Lemma has_key_set_prop k k' v (ps : props) :
  has_key k ps = true -> has_key k (set_prop k' v ps) = true.
Proof.
  unfold has_key. intros H. destruct (String.eqb_spec k k') as [-> | Hne].
  - rewrite lookup_set_prop_eq. reflexivity.
  - rewrite lookup_set_prop_ne by exact Hne. exact H.
Qed.

Lemma has_key_Object_assign k (target : props) (source : value) :
  has_key k target = true -> has_key k (Object_assign target source) = true.
Proof.
  unfold has_key, Object_assign. intros H. rewrite lookup_assignments.
  destruct (lookup k (rev (own_enumerable source))); [reflexivity | exact H].
Qed.

Lemma has_key_set_msg k msg (entry : props) :
  has_key k entry = true -> has_key k (set_msg msg entry) = true.
Proof.
  intros H. unfold set_msg. destruct msg as [m |]; [| exact H].
  destruct (String.eqb m ""); [exact H | apply has_key_set_prop, H].
Qed.

Lemma has_key_redactSensitive k lg (entry : props) :
  has_key k (redactSensitive lg entry) = has_key k entry.
Proof.
  unfold redactSensitive. destruct (_ =? _)%nat; [reflexivity |].
  unfold has_key. rewrite redact_entry_walk, lookup_walk_props.
  destruct (lookup k entry); reflexivity.
Qed.

Lemma has_key_base_entry k lvl now lg w :
  k = "level" \/ k = "time" -> has_key k (base_entry lvl now lg w) = true.
Proof.
  intros Hk. unfold base_entry.
  apply has_key_Object_assign.
  assert (H0 : has_key k [("level", VStr (level_name lvl)); ("time", VNum now)] = true)
    by (destruct Hk as [-> | ->]; reflexivity).
  repeat match goal with
         | |- has_key _ (if ?b then _ else _) = true => destruct b
         | |- has_key _ (set_prop _ _ _) = true => apply has_key_set_prop
         | |- has_key _ (Object_assign _ _) = true => apply has_key_Object_assign
         end; exact H0.
Qed.

(** X20: every entry the logger builds has a [level] and a [time] field,
    whatever the call's arguments, the contexts and the redaction list
    are. *)
Theorem entries_always_carry_level_and_time
    (lvl : LogLevel) (obj : value) (msg : option string) (now : Z)
    (lg : t) (w : World) :
  has_key "level" (createLogEntry lvl obj msg now lg w) = true
  /\ has_key "time" (createLogEntry lvl obj msg now lg w) = true.
Proof.
  assert (G : forall k, k = "level" \/ k = "time" ->
                has_key k (createLogEntry lvl obj msg now lg w) = true).
  { intros k Hk. unfold createLogEntry. rewrite has_key_redactSensitive.
    pose proof (has_key_base_entry k lvl now lg w Hk) as Hb.
    unfold assemble. generalize dependent (base_entry lvl now lg w). intros b Hb.
    destruct obj, msg;
      repeat first [apply has_key_set_msg | apply has_key_set_prop
                   | apply has_key_Object_assign]; exact Hb. }
  split; apply G; [left | right]; reflexivity.
Qed.

(** A value other than the redaction marker. *)
Definition is_redacted (v : value) : bool :=
  match v with VStr s => String.eqb s "[REDACTED]" | _ => false end.

(** Some enumerable property, at any depth, has a listed key and holds
    something else than the marker. *)
Fixpoint exposed (keys : list string) (obj : value) {struct obj} : bool :=
  let at_key (key : string) (v : value) : bool :=
    if includes keys key then negb (is_redacted v) else exposed keys v in
  match obj with
  | VObj ps =>
      (fix any (l : props) : bool :=
         match l with
         | [] => false
         | (k, v) :: rest => at_key k v || any rest
         end) ps
  | VArr elems =>
      (fix any (i : nat) (l : list value) : bool :=
         match l with
         | [] => false
         | v :: rest => at_key (index_key i) v || any (S i) rest
         end) 0%nat elems
  | VError hidden own =>
      (fix any (l : props) : bool :=
         match l with
         | [] => false
         | (k, v) :: rest => at_key k v || any rest
         end) own
  | _ => false
  end.

Definition exposed_at (keys : list string) (key : string) (v : value) : bool :=
  if includes keys key then negb (is_redacted v) else exposed keys v.

Fixpoint any_prop (keys : list string) (l : props) : bool :=
  match l with
  | [] => false
  | (k, v) :: rest => exposed_at keys k v || any_prop keys rest
  end.

Fixpoint any_elem (keys : list string) (i : nat) (l : list value) : bool :=
  match l with
  | [] => false
  | v :: rest => exposed_at keys (index_key i) v || any_elem keys (S i) rest
  end.

Lemma exposed_obj keys ps : exposed keys (VObj ps) = any_prop keys ps.
Proof. cbn. induction ps as [| [k v] rest IH]; [reflexivity |]. cbn. rewrite IH. reflexivity. Qed.

Lemma exposed_error keys hidden own :
  exposed keys (VError hidden own) = any_prop keys own.
Proof. cbn. induction own as [| [k v] rest IH]; [reflexivity |]. cbn. rewrite IH. reflexivity. Qed.

Lemma exposed_arr keys l : exposed keys (VArr l) = any_elem keys 0 l.
Proof.
  cbn. generalize 0%nat. induction l as [| v rest IH]; intros i; [reflexivity |].
  cbn. rewrite IH. reflexivity.
Qed.

Lemma typeof_object_exposed keys v : typeof_object v = false -> exposed keys v = false.
Proof. destruct v; cbn; intros H; first [reflexivity | discriminate H]. Qed.

Lemma redact_at_hides keys k v :
  exposed keys (redact_value keys v) = false ->
  exposed_at keys k (redact_at keys k v) = false.
Proof.
  intros H. unfold exposed_at, redact_at. destruct (includes keys k); [reflexivity |].
  destruct (typeof_object v) eqn:E; [exact H |].
  apply typeof_object_exposed, E.
Qed.

Lemma redact_value_hides keys v : exposed keys (redact_value keys v) = false.
Proof.
  induction v as [| | b | n | | s | ps IH | l IH | hidden own IH]
    using value_nested_ind; try reflexivity.
  - rewrite redact_value_obj, exposed_obj.
    induction IH as [| [k v] rest Hv _ IHrest]; [reflexivity |].
    cbn [walk_props any_prop]. rewrite (redact_at_hides keys k v Hv), IHrest.
    reflexivity.
  - rewrite redact_value_arr, exposed_arr. generalize 0%nat.
    induction IH as [| v rest Hv _ IHrest]; intros i; [reflexivity |].
    cbn [walk_elems any_elem].
    rewrite (redact_at_hides keys (index_key i) v Hv), IHrest. reflexivity.
  - rewrite redact_value_error, exposed_error.
    induction IH as [| [k v] rest Hv _ IHrest]; [reflexivity |].
    cbn [walk_props any_prop]. rewrite (redact_at_hides keys k v Hv), IHrest.
    reflexivity.
Qed.

Lemma exposed_nil v : exposed [] v = false.
Proof.
  induction v as [| | b | n | | s | ps IH | l IH | hidden own IH]
    using value_nested_ind; try reflexivity.
  - rewrite exposed_obj. induction IH as [| [k v] rest Hv _ IHrest]; [reflexivity |].
    cbn [any_prop]. unfold exposed_at. cbn [includes existsb]. cbn in Hv.
    rewrite Hv, IHrest. reflexivity.
  - rewrite exposed_arr. generalize 0%nat.
    induction IH as [| v rest Hv _ IHrest]; intros i; [reflexivity |].
    cbn [any_elem]. unfold exposed_at. cbn [includes existsb].
    rewrite Hv, IHrest. reflexivity.
  - rewrite exposed_error. induction IH as [| [k v] rest Hv _ IHrest]; [reflexivity |].
    cbn [any_prop]. unfold exposed_at. cbn [includes existsb]. cbn in Hv.
    rewrite Hv, IHrest. reflexivity.
Qed.

(** X21: redaction is complete: after it no enumerable property with a
    listed key, at any depth of objects, arrays and error objects, holds
    anything but the marker; this holds of every entry the logger
    builds. *)
Theorem no_listed_key_survives_redaction
    (lvl : LogLevel) (obj : value) (msg : option string) (now : Z)
    (lg : t) (w : World) (keys : list string) (v : value) :
  exposed keys (redact_value keys v) = false
  /\ exposed (redact (options lg)) (VObj (createLogEntry lvl obj msg now lg w))
     = false.
Proof.
  split; [apply redact_value_hides |].
  unfold createLogEntry, redactSensitive.
  destruct (redact (options lg)) as [| key keys'] eqn:E; [apply exposed_nil |].
  cbn [length Nat.eqb]. unfold redact_entry.
  pose proof (redact_value_hides (key :: keys')
                (VObj (assemble lvl obj msg now lg w))) as H.
  rewrite redact_value_obj in *. exact H.
Qed.

End EntryContents.

Section ContextProperties.

Import Levels JS Logger.





(** What a call leaves alone.  The contexts are left alone when nothing
    is redacted: the code redacts in place, and an object nested in a
    context is the entry's own. *)
Lemma log_frame lvl obj msg now lg w :
  let '(lg', w') := log lvl obj msg now lg w in
  arrays w' = arrays w
  /\ options lg' = options lg /\ transports lg' = transports lg
  /\ contextStorage lg' = contextStorage lg
  /\ (exists events, output w' = output w ++ events)
  /\ (redact (options lg) = [] ->
      objects w' = objects w /\ stores w' = stores w).
Proof.
  assert (R : arrays w = arrays w
              /\ (exists events, output w = output w ++ events)
              /\ (redact (options lg) = [] ->
                  objects w = objects w /\ stores w = stores w)).
  { repeat split. exists []. symmetry. apply app_nil_r. }
  assert (W : forall entry lg0,
    arrays (write entry lg0 w) = arrays w
    /\ (exists events, output (write entry lg0 w) = output w ++ events)
    /\ (redact (options lg) = [] ->
        objects (write entry lg0 w) = objects w
        /\ stores (write entry lg0 w) = stores w)).
  { intros entry lg0. unfold write. destruct (write_loop _ _ _ _). cbn.
    repeat split. eexists. reflexivity. }
  unfold log. destruct (negb (shouldLog lvl (level (options lg)))); [tauto |].
  unfold sampling_gate, rate_limit_gate.
  destruct (sampler lg) as [s |];
    [destruct (Sampler.shouldSample s) as [keep s']; destruct keep |];
    cbn [negb rateLimiter set_sampler]; try (cbn; tauto);
    (destruct (rateLimiter lg) as [r |];
     [destruct (RateLimiter.tryAcquire now r) as [ok r']; destruct ok |];
     cbn [negb]; try (cbn; tauto);
     match goal with |- context [filter ?o ?e] => destruct (filter o e) end;
     cbn [negb]; try (cbn; tauto);
     match goal with
     | |- context [write ?e ?l w] => destruct (W e l) as (W1 & W2 & W3)
     end; cbn; tauto).
Qed.

(** X24: [withContext(ctx, fn)] runs [fn] with [ctx] as the ambient
    context of the logger, in place of any enclosing one, returns the
    result and the output of [fn], and restores the ambient context that
    was there before. *)
Theorem withContext_is_scoped
    (A : Type) (ctx : value) (fn : World -> A * World) (lg : t) (w : World) :
  (contextStorage lg < length (stores w))%nat ->
  (forall w0, stores (snd (fn w0)) = stores w0) ->
  let inside := set_store (contextStorage lg) (Some ctx) w in
  getStore lg inside = ctx
  /\ fst (withContext ctx fn lg w) = fst (fn inside)
  /\ output (snd (withContext ctx fn lg w)) = output (snd (fn inside))
  /\ stores (snd (withContext ctx fn lg w)) = stores w.
Proof.
  intros Hcs Hfn. cbn zeta. unfold withContext.
  pose proof (Hfn (set_store (contextStorage lg) (Some ctx) w)) as Hstores.
  destruct (fn (set_store (contextStorage lg) (Some ctx) w)) as [r w1].
  cbn [fst snd] in *. repeat split.
  - unfold getStore, set_store. cbn [stores].
    rewrite list_lookup_insert_eq by exact Hcs. reflexivity.
  - unfold set_store at 1. cbn [stores]. rewrite Hstores.
    unfold set_store. cbn [stores]. rewrite list_insert_insert_eq.
    apply list_insert_id.
    destruct (lookup_lt_is_Some_2 (stores w) (contextStorage lg) Hcs) as [x Hx].
    rewrite Hx. reflexivity.
Qed.

Definition scoped_world : World :=
  mkWorld [[capturing_sink]] [[("service", VStr "api")]]
    [Some (VObj [("service", VStr "ambient"); ("requestId", VStr "r-1")])]
    [] "host-1" 4242 false.



Lemma withContext_is_scoped_witness :
  let ctx := VObj [("requestId", VStr "r-2")] in
  let fn := log info (VStr "hello") None 5 named_logger in
  getStore named_logger (set_store 0 (Some ctx) scoped_world) = ctx
  /\ stores (snd (withContext ctx fn named_logger scoped_world))
     = stores scoped_world.
Proof.
  cbn zeta.
  destruct (withContext_is_scoped _ (VObj [("requestId", VStr "r-2")])
              (log info (VStr "hello") None 5 named_logger)
              named_logger scoped_world) as (Hin & _ & _ & Hout).
  - cbn. lia.
  - intros w0. pose proof (log_frame info (VStr "hello") None 5 named_logger w0) as H.
    destruct (log info (VStr "hello") None 5 named_logger w0) as [lg' w'].
    apply H. reflexivity.
  - split; [exact Hin | exact Hout].
Defined.

End ContextProperties.

Section DispatchProperties.

Import Levels JS Logger.

Local Open Scope nat_scope.

Definition is_error_report (e : event) : bool :=
  match e with ConsoleError _ _ => true | _ => false end.

(** The number of [console.error] reports in an output. *)
Definition reports (out : list event) : nat :=
  length (List.filter is_error_report out).

(** The sink is served and its [write] throws or rejects. *)
Definition fails (lg : t) (entry : props) (tr : Transport) : bool :=
  admits lg entry tr
  && match t_write tr entry with
     | WriteThrows _ | WriteRejects _ => true
     | _ => false
     end.

Lemma reports_app (a b : list event) : reports (a ++ b) = reports a + reports b.
Proof. unfold reports. rewrite List.filter_app, length_app. reflexivity. Qed.

Lemma write_loop_reports lg entry trs :
  forall i,
    let '(during, later) := write_loop lg entry i trs in
    reports during + reports later = length (List.filter (fails lg entry) trs).
Proof.
  induction trs as [| tr rest IH]; intros i; [reflexivity |].
  cbn [write_loop List.filter]. specialize (IH (S i)).
  destruct (write_loop lg entry (S i) rest) as [now2 later2].
  unfold write_one.
  replace (fails lg entry tr)
    with (admits lg entry tr
          && match t_write tr entry with
             | WriteThrows _ | WriteRejects _ => true
             | _ => false
             end) by reflexivity.
  destruct (admits lg entry tr); cbn [andb];
    [destruct (t_write tr entry) |];
    rewrite ?reports_app; cbn [List.filter length];
    change (reports []) with 0;
    repeat match goal with
           | |- context [reports (?e :: ?l)] =>
               change (reports (e :: l))
                 with ((if is_error_report e then 1 else 0) + reports l)
           end;
    cbn [is_error_report]; change (reports []) with 0;
    lia.
Qed.

(** X25: a sink whose [write] throws or rejects does not stop the
    dispatch: every sink whose threshold admits the entry is written to
    exactly once, each failure is reported once on [console.error], and
    the sink list and the ambient contexts are left alone. *)
Theorem failing_sinks_are_reported_and_do_not_stop_dispatch
    (entry : props) (lg : t) (w : World) :
  reports (output (write entry lg w))
  = reports (output w) + length (List.filter (fails lg entry) (transports_of lg w))
  /\ (forall i tr, transports_of lg w !! i = Some tr ->
        writes_to i (output (write entry lg w))
        = writes_to i (output w) + (if admits lg entry tr then 1 else 0))
  /\ arrays (write entry lg w) = arrays w
  /\ stores (write entry lg w) = stores w.
Proof.
  split; [| split; [intros i tr H; apply write_counts, H |]].
  - unfold write. pose proof (write_loop_reports lg entry (transports_of lg w) 0) as H.
    destruct (write_loop lg entry 0 (transports_of lg w)) as [during later].
    cbn [emit output]. rewrite !reports_app. lia.
  - unfold write. destruct (write_loop _ _ _ _). split; reflexivity.
Qed.

(** X26: a child logger inherits the parent's options but none of the
    state of its gates: two parents that differ only in the state of
    their sampler, rate limiter and metrics have the same child, whose
    rate limiter is new and full, whose metrics are empty and whose
    sampler starts counting at 0. *)
Theorem child_does_not_inherit_gate_state
    (ctx : value) (now : Z) (lg lg' : t) (w : World) :
  options lg' = options lg -> transports lg' = transports lg ->
  child ctx now lg' w = child ctx now lg w
  /\ forall c w',
       child ctx now lg w = (Some c, w') ->
       rateLimiter c
       = (if r_enabled (rateLimit (options lg))
          then Some (RateLimiter.new (r_maxPerSecond (rateLimit (options lg)))
                       (r_maxBurst (rateLimit (options lg))) None now)
          else None)
       /\ metricsAggregator c
          = (if m_enabled (metrics (options lg))
             then Some (MetricsAggregator.new now) else None)
       /\ (forall s, sampler c = Some s -> Sampler.counter s = 0%Z)
       /\ level (options c) = level (options lg)
       /\ redact (options c) = redact (options lg).
Proof.
  intros Ho Ht. split.
  - unfold child, childOptions, context_of. rewrite Ho, Ht. reflexivity.
  - intros c w'. unfold child.
    destruct (alloc_object _ w) as [cx w1]. unfold new, childOptions.
    cbn [o_pretty o_transports o_context o_level o_name o_timestamp o_hostname
         o_pid o_redact o_filter o_sampling o_rateLimit o_metrics default].
    destruct (alloc_store w1) as [cs w3].
    unfold id. cbn [sampling rateLimit metrics].
    destruct (s_enabled (sampling (options lg))).
    + unfold Sampler.new.
      destruct (Qlt_le_dec _ 0); [discriminate |].
      destruct (Qlt_le_dec 1 _); [discriminate |].
      intros [= <- <-]. cbn. repeat split. intros s [= <-]. reflexivity.
    + intros [= <- <-]. cbn. repeat split. intros s [=].
Qed.

(** X27: [setLevel] stores each of the six level names as the new
    threshold, throws for a string that is neither a level name nor a
    name every object inherits, and accepts such an inherited name (the
    guard is the [in] operator), leaving the logger with a threshold that
    names no severity. *)
Theorem setLevel_guard (l : LogLevel) (s : string) (lg : t) :
  setLevel (level_name l) lg = LevelSet (set_level l lg)
  /\ level (options (set_level l lg)) = l
  /\ (In s Object_prototype_keys -> setLevel s lg = LevelForeign s)
  /\ ((forall l', s <> level_name l') -> ~ In s Object_prototype_keys ->
      setLevel s lg = LevelThrown ("Invalid log level: " +:+ s)).
Proof.
  split; [destruct l; reflexivity |]. split; [reflexivity |]. split.
  - intros H. unfold setLevel, isValidLevel.
    assert (E : level_of_name s = None).
    { cbn in H. repeat destruct H as [<- | H]; first [reflexivity | contradiction]. }
    rewrite E.
    assert (X : existsb (String.eqb s) Object_prototype_keys = true).
    { apply existsb_exists. exists s. split; [exact H | apply String.eqb_refl]. }
    rewrite X. reflexivity.
  - intros Hname Hproto. unfold setLevel, isValidLevel.
    assert (E : level_of_name s = None).
    { unfold level_of_name. cbn [find all_levels].
      repeat match goal with
             | |- context [String.eqb (level_name ?x) s] =>
                 destruct (String.eqb_spec (level_name x) s) as [Heq | _];
                 [exfalso; apply (Hname x); symmetry; exact Heq |]
             end.
      reflexivity. }
    rewrite E.
    assert (X : existsb (String.eqb s) Object_prototype_keys = false).
    { destruct (existsb (String.eqb s) Object_prototype_keys) eqn:Ex; [| reflexivity].
      apply existsb_exists in Ex as (x & Hx & Heq).
      apply String.eqb_eq in Heq. subst x. contradiction. }
    rewrite X. reflexivity.
Qed.

Lemma set_prop_NoDup k v (ps : props) :
  NoDup (map fst ps) -> NoDup (map fst (set_prop k v ps)).
Proof.
  induction ps as [| [k' v'] rest IH]; intros H.
  - cbn. apply NoDup_singleton.
  - cbn [set_prop]. destruct (String.eqb_spec k' k) as [-> | Hne]; [exact H |].
    cbn [map fst] in *. apply NoDup_cons in H as [Hnot Hrest].
    apply NoDup_cons. split; [| apply IH, Hrest].
    intros Hin. apply Hnot. clear - Hin Hne.
    induction rest as [| [k2 v2] rest IH]; cbn in *.
    + apply list_elem_of_singleton in Hin. congruence.
    + destruct (String.eqb_spec k2 k) as [-> | Hne2]; cbn in *.
      * exact Hin.
      * apply elem_of_cons in Hin as [-> | Hin]; [left |]. right. apply IH, Hin.
Qed.



Definition throwing_sink : Transport :=
  mkTransport "broken" None (fun _ => WriteThrows "disk full") CloseAbsent.

Definition world_with_a_broken_sink : World :=
  mkWorld [[throwing_sink; capturing_sink]] [[]] [None] [] "host-1" 4242 false.

Lemma failing_sinks_are_reported_and_do_not_stop_dispatch_witness :
  let out :=
    output (write [("level", VStr "warn")] named_logger world_with_a_broken_sink) in
  writes_to 1 out = 1 /\ reports out = 1.
Proof.
  destruct (failing_sinks_are_reported_and_do_not_stop_dispatch
              [("level", VStr "warn")] named_logger world_with_a_broken_sink)
    as (Hreports & Hwrites & _).
  split; [apply (Hwrites 1 capturing_sink); reflexivity | exact Hreports].
Defined.

Definition limited_options : Options :=
  mkOptions info "api" false true true true 0 0 [] (fun _ => true)
    (mkSampling false 1 false) (mkRateLimit true 5 (Some 2%Z))
    (mkMetrics true 60000).

(** A logger that lets a burst of two calls through, with [tokens] of
    them left. *)
Definition limited_logger (tokens : Z) : t :=
  mk limited_options 0 0 "host-1" 4242 None
     (Some (RateLimiter.mk 5 2 1000 tokens 0 0))
     (Some (MetricsAggregator.new 0)) (Some 60000%Z).

Lemma child_does_not_inherit_gate_state_witness :
  child (VObj [("module", VStr "db")]) 7 (limited_logger 0) plain_world
  = child (VObj [("module", VStr "db")]) 7 (limited_logger 2) plain_world.
Proof.
  apply (proj1 (child_does_not_inherit_gate_state (VObj [("module", VStr "db")]) 7
                  (limited_logger 2) (limited_logger 0) plain_world
                  eq_refl eq_refl)).
Defined.

Lemma setLevel_guard_witness :
  setLevel "constructor" named_logger = LevelForeign "constructor"
  /\ setLevel "verbose" named_logger = LevelThrown "Invalid log level: verbose".
Proof.
  split.
  - apply (proj1 (proj2 (proj2 (setLevel_guard info "constructor" named_logger)))).
    cbn. tauto.
  - apply (proj2 (proj2 (proj2 (setLevel_guard info "verbose" named_logger)))).
    + intros []; cbn; discriminate.
    + cbn. intros H. decompose [or] H; first [discriminate | contradiction].
Defined.


End DispatchProperties.

Section GateProperties.

Import Levels JS Logger.






End GateProperties.

Section ErrorSerializerProperties.

Import JS ErrorSerializer.

(** The three fields every serialized error has, with their values. *)
Definition heading (err : value) : props :=
  [("message", or_else (get err "message") (VStr "Unknown error"));
   ("name", or_else (get err "name") (VStr "Error"));
   ("stack", get err "stack")].

(** A property list that holds the heading of [err] under its three
    keys, has unique keys, and has no key of [forbidden].  Nothing is
    said about the order of the keys. *)
Definition headed (err : value) (forbidden : list string) (ps : props) : Prop :=
  (forall k v, lookup k (heading err) = Some v -> lookup k ps = Some v)
  /\ NoDup (map fst ps)
  /\ forall k, In k forbidden -> has_key k ps = false.

Lemma set_prop_headed err forbidden k v ps :
  headed err forbidden ps ->
  k <> "message" -> k <> "name" -> k <> "stack" -> ~ In k forbidden ->
  headed err forbidden (set_prop k v ps).
Proof.
  intros (Hh & Hnd & Hf) H1 H2 H3 Hk. split; [| split].
  - intros k' v' Hk'. rewrite lookup_set_prop_ne; [apply Hh, Hk' |].
    intros ->. unfold heading in Hk'. cbn [lookup] in Hk'.
    destruct (String.eqb_spec "message" k) as [E | _]; [congruence |].
    destruct (String.eqb_spec "name" k) as [E | _]; [congruence |].
    destruct (String.eqb_spec "stack" k) as [E | _]; [congruence |].
    discriminate Hk'.
  - apply set_prop_NoDup, Hnd.
  - intros x Hx. unfold has_key. rewrite lookup_set_prop_ne.
    + apply Hf, Hx.
    + intros ->. contradiction.
Qed.

Lemma has_heading err forbidden ps k :
  headed err forbidden ps -> k = "message" \/ k = "name" \/ k = "stack" ->
  has (VObj ps) k = true.
Proof.
  intros (Hh & _) Hk. unfold has, has_key.
  assert (exists v, lookup k (heading err) = Some v) as [v Hv]
    by (destruct Hk as [-> | [-> | ->]]; eexists; reflexivity).
  rewrite (Hh k v Hv). reflexivity.
Qed.

Definition hidden_keys : list string := ["constructor"; "__proto__"].

Lemma known_headed err ps :
  headed err hidden_keys ps ->
  headed err hidden_keys
    (fold_left (fun s k => if has err k then set_prop k (get err k) s else s)
               known_fields ps).
Proof.
  unfold known_fields. cbn [fold_left]. intros H.
  repeat match goal with
         | |- headed _ _ (if ?b then _ else _) => destruct b
         | |- headed _ _ (set_prop _ _ _) =>
             apply set_prop_headed;
             [| discriminate | discriminate | discriminate
              | cbn; intros [E | [E | []]]; discriminate E]
         end; exact H.
Qed.

Lemma own_headed err (own : props) :
  forall ps,
  headed err hidden_keys ps ->
  headed err hidden_keys
    (fold_left
       (fun s kv =>
          let key := fst kv in
          if negb (has (VObj s) key) && negb (String.eqb key "constructor")
             && negb (String.eqb key "__proto__")
          then match snd kv with
               | VUndefined => s
               | value => set_prop key value s
               end
          else s)
       own ps).
Proof.
  induction own as [| [k v] rest IH]; intros ps H; [exact H |].
  cbn [fold_left fst snd]. apply IH.
  destruct (has (VObj ps) k) eqn:Ehas; cbn [negb andb]; [exact H |].
  destruct (String.eqb_spec k "constructor") as [-> | Hc]; cbn [negb andb]; [exact H |].
  destruct (String.eqb_spec k "__proto__") as [-> | Hp]; cbn [negb andb]; [exact H |].
  assert (Hk : k <> "message" /\ k <> "name" /\ k <> "stack").
  { repeat split; intros ->;
      rewrite (has_heading err hidden_keys ps) in Ehas by (exact H || tauto);
      discriminate Ehas. }
  destruct Hk as (K1 & K2 & K3).
  destruct v; try exact H;
    (apply set_prop_headed; [exact H | exact K1 | exact K2 | exact K3 |];
     cbn; intros [E | [E | []]]; congruence).
Qed.

(** X30: [serialize] returns a value that is not an object, and [null],
    unchanged; of every other value it makes a plain object whose
    [message], [name] and [stack] fields hold the error's, with
    ['Unknown error'] and ['Error'] in place of an empty message or name,
    so that neither is ever empty, and which has no [constructor] or
    [__proto__] key of its own. *)
Theorem serialized_errors_carry_message_name_and_stack (err : value) :
  (truthy err = false \/ typeof_object err = false -> serialize err = err)
  /\ (truthy err = true -> typeof_object err = true ->
      exists ps,
        serialize err = VObj ps
        /\ lookup "message" ps
           = Some (or_else (get err "message") (VStr "Unknown error"))
        /\ lookup "name" ps = Some (or_else (get err "name") (VStr "Error"))
        /\ lookup "stack" ps = Some (get err "stack")
        /\ truthy (get (serialize err) "message") = true
        /\ truthy (get (serialize err) "name") = true
        /\ has_key "constructor" ps = false
        /\ has_key "__proto__" ps = false).
Proof.
  split.
  - intros [H | H]; destruct err; cbn in H; try discriminate H;
      cbn [serialize truthy typeof_object negb];
      repeat match goal with
             | |- context [if ?b then _ else _] => destruct b
             end; reflexivity.
  - intros Ht Ho.
    assert (H0 : headed err hidden_keys (heading err)).
    { split; [intros k v H; exact H |]. split.
      - apply (bool_decide_unpack _). vm_compute. exact I.
      - intros k [<- | [<- | []]]; reflexivity. }
    pose proof (own_headed err (own_enumerable err) _ (known_headed err _ H0)) as H2.
    assert (Hfinal : exists ps, serialize err = VObj ps /\ headed err hidden_keys ps).
    { destruct err; try discriminate Ho; try discriminate Ht.
      - cbn [serialize truthy typeof_object negb].
        repeat match goal with
               | |- context [lookup_with ?f "cause" ?l] =>
                   destruct (lookup_with f "cause" l) as [[? |] |]
               end; eexists; (split; [reflexivity |]);
          first [exact H2
                | apply set_prop_headed;
                  [exact H2 | discriminate | discriminate | discriminate
                  | cbn; intros [E | [E | []]]; discriminate E]].
      - cbn [serialize truthy typeof_object negb].
        eexists; (split; [reflexivity |]); exact H2.
      - cbn [serialize truthy typeof_object negb].
        repeat match goal with
               | |- context [lookup_with ?f "cause" ?l] =>
                   destruct (lookup_with f "cause" l) as [[? |] |]
               end; eexists; (split; [reflexivity |]);
          first [exact H2
                | apply set_prop_headed;
                  [exact H2 | discriminate | discriminate | discriminate
                  | cbn; intros [E | [E | []]]; discriminate E]]. }
    destruct Hfinal as (ps & E & Hh & Hnd & Hf).
    assert (Lm := Hh "message" _ eq_refl).
    assert (Ln := Hh "name" _ eq_refl).
    assert (Ls := Hh "stack" _ eq_refl).
    exists ps. rewrite E. cbn [get]. rewrite Lm, Ln. cbn [default].
    repeat split; try assumption.
    + unfold or_else. destruct (truthy (get err "message")) eqn:Em;
        [exact Em | reflexivity].
    + unfold or_else. destruct (truthy (get err "name")) eqn:En;
        [exact En | reflexivity].
    + apply Hf. left. reflexivity.
    + apply Hf. right. left. reflexivity.
Qed.

Lemma serialized_errors_carry_message_name_and_stack_witness :
  let err :=
    VError [("message", VStr "boom"); ("name", VStr "TypeError");
            ("stack", VStr "TypeError: boom")]
           [("code", VStr "E_BOOM")] in
  exists ps,
    serialize err = VObj ps
    /\ lookup "message" ps = Some (VStr "boom")
    /\ lookup "name" ps = Some (VStr "TypeError").
Proof.
  cbn zeta.
  destruct (proj2 (serialized_errors_carry_message_name_and_stack
                     (VError [("message", VStr "boom"); ("name", VStr "TypeError");
                              ("stack", VStr "TypeError: boom")]
                             [("code", VStr "E_BOOM")])) eq_refl eq_refl)
    as (ps & E & Hm & Hn & _).
  exists ps. repeat split; assumption.
Defined.

(** An array is an object too: its elements are kept under their index
    keys beside the three fields. *)
Example serialized_array :
  let result := serialize (VArr [VStr "a"; VStr "b"]) in
  get result "message" = VStr "Unknown error"
  /\ get result "name" = VStr "Error"
  /\ get result "0" = VStr "a" /\ get result "1" = VStr "b".
Proof. repeat split. Qed.

End ErrorSerializerProperties.
